(** * The finalize pipeline of the buildpack shim ([shims/finalizer.go])

    A shallow embedding of [shims.Finalizer] and of the part of the Go
    runtime it drives (a hierarchical filesystem with the failure modes of
    [os.Stat], [os.Rename], [os.MkdirAll], [os.RemoveAll], [os.Create]), and
    the properties of the order merger, the legacy-buildpack injector, the
    override engine and the layer migrator that the specification states.

    Conventions of the embedding.
    - A path is the list of its components below the root; the fields of
      [Finalizer] that hold directories are paths, [filepath.Join dir name]
      is [dir ++ [name]] (every joined name in the source is a literal, the
      output of [strconv.Itoa]/[fmt.Sprintf], a name returned by
      [filepath.Glob], or [DepsIndex] after [strconv.Atoi] accepted it).
    - A file holds a value of one of the descriptor formats; the TOML/YAML
      codec is abstracted to "encode stores the value, decode returns it".
    - A Go method with result [error] that works on the disk is a
      computation in the monad [M]: it takes the world (disk and call log)
      and returns the error or success together with the world it left. *)

From Stdlib Require Import ZArith Lia String Ascii List.
From Stdlib Require Import DecimalString Decimal DecimalZ DecimalPos.
From stdpp Require Import base decidable option list sorting strings gmap.

(** ** Results and errors *)

Inductive result (E A : Type) : Type :=
| Ok (a : A)
| Err (e : E).
Arguments Ok {E A} a.
Arguments Err {E A} e.

Global Instance result_ret {E} : MRet (result E) := λ A a, Ok a.
Global Instance result_bind {E} : MBind (result E) := λ A B k m,
  match m with Ok a => k a | Err e => Err e end.

Definition path := list string.

(** The error numbers the modelled system calls can report. *)
Inductive errno := ENOENT | ENOTDIR | EISDIR | EEXIST | EINVAL.

Global Instance errno_eq_dec : EqDecision errno.
Proof. solve_decision. Defined.

(** Go [error] values that occur in the pipeline. *)
Inductive error :=
| PathError (op : string) (p : path) (e : errno)
| LinkError (op : string) (old new : path) (e : errno)
| NumError (fn s : string)
| DecodeError (p : path)
| ErrorString (msg : string)
| ExitError (msg : string)
| WithMessage (cause : error) (msg : string).

(** [os.IsNotExist]: the underlying error number of a [PathError] or
    [LinkError] is [ENOENT]. *)
Definition IsNotExist (e : error) : bool :=
  match e with
  | PathError _ _ ENOENT | LinkError _ _ _ ENOENT => true
  | _ => false
  end.

(** ** Descriptor formats (spec, section 3 and section 6) *)

(** Modelled from the spec: the types [buildpack], [group], [order] and
    [stack] are declared outside the sources; their fields are those that
    the finalizer reads and writes and that section 6 lists. *)
Record buildpack := mkBuildpack { bpID : string; bpName : string; bpVersion : string }.
Record group := mkGroup { Buildpacks : list buildpack }.
Record order := mkOrder { Groups : list group }.
Record stack := mkStack { stackID : string }.

Record LayerMetadata := mkLayerMetadata { Build : bool; Launch : bool; Cache : bool }.

Record V3Dependency := mkV3Dependency {
  ID : string;
  Name : string;
  Sha256 : string;
  Stacks : list string;
  URI : string;
  Version : string;
  Source : string;
  SourceSha256 : string }.

(** A value decoded into a Go [interface{}]. *)
#[warnings="-register-all"]
Inductive tomlval :=
| TNil
| TString (s : string)
| TArray (l : list tomlval)
| TTable (kv : list (string * tomlval)).

Record BuildpackMetadata := mkBuildpackMetadata {
  IncludeFiles : tomlval;
  PrePackage : tomlval;
  DefaultVersions : option (gmap string tomlval);
  Dependencies : list V3Dependency }.

Record BuildpackTOML := mkBuildpackTOML {
  Buildpack : tomlval;
  Metadata : BuildpackMetadata;
  BPStacks : tomlval }.

(** Modelled from the spec: the legacy manifest types of [libbuildpack],
    declared outside the sources, as the override engine reads them:
    [Dependency], [ManifestEntry] and the two fields of [Manifest] used
    here. *)
Record Dependency := mkDependency { depName : string; depVersion : string }.
Record ManifestEntry := mkManifestEntry {
  meDependency : Dependency;
  meURI : string;
  meFile : string;
  meSHA256 : string;
  meCFStacks : list string }.
Record Manifest := mkManifest {
  mDefaultVersions : list Dependency;
  ManifestEntries : list ManifestEntry }.

(** ** The filesystem *)

Inductive content :=
| Bytes (s : string)
| OrderTOML (o : order)
| GroupTOML (g : group)
| LayerTOML (m : LayerMetadata)
| BuildpackTOMLFile (b : BuildpackTOML)
| FakeBuildpackTOML (b : buildpack) (ss : list stack)
| OverrideYML (m : gmap string Manifest).

#[warnings="-register-all"]
Inductive node :=
| File (c : content)
| Dir (es : list (string * node)).

Definition entries := list (string * node).

Section Entries.
Context {A : Type}.

Fixpoint assoc (c : string) (es : list (string * A)) : option A :=
  match es with
  | [] => None
  | (c', n) :: es' => if decide (c' = c) then Some n else assoc c es'
  end.

(** Replace the entry called [c] where it stands, or add it at the end. *)
Fixpoint set_entry (c : string) (n : A) (es : list (string * A)) : list (string * A) :=
  match es with
  | [] => [(c, n)]
  | (c', n') :: es' =>
      if decide (c' = c) then (c, n) :: es' else (c', n') :: set_entry c n es'
  end.

Fixpoint del_entry (c : string) (es : list (string * A)) : list (string * A) :=
  match es with
  | [] => []
  | (c', n') :: es' =>
      if decide (c' = c) then del_entry c es' else (c', n') :: del_entry c es'
  end.

Definition put_entry (c : string) (o : option A) (es : list (string * A)) :=
  match o with
  | Some n => set_entry c n es
  | None => del_entry c es
  end.
End Entries.

(** [get p n]: the node at path [p] below [n], if there is one. *)
Fixpoint get (p : path) (n : node) : option node :=
  match p with
  | [] => Some n
  | c :: p' =>
      match n with
      | File _ => None
      | Dir es => match assoc c es with Some n' => get p' n' | None => None end
      end
  end.

(** Path resolution as the kernel does it: a missing component is [ENOENT],
    a component below a regular file is [ENOTDIR]. *)
Fixpoint walk (p : path) (n : node) : result errno node :=
  match p with
  | [] => Ok n
  | c :: p' =>
      match n with
      | File _ => Err ENOTDIR
      | Dir es => match assoc c es with Some n' => walk p' n' | None => Err ENOENT end
      end
  end.

(** [upd f p o] rewrites the node at [p] with [f]; every proper prefix of
    [p] must be a directory. [f] receives the present node (or [None]) and
    answers with the new one ([None] removes it). *)
Fixpoint upd (f : option node → result errno (option node)) (p : path)
    (o : option node) : result errno (option node) :=
  match p with
  | [] => f o
  | c :: p' =>
      match o with
      | None => Err ENOENT
      | Some (File _) => Err ENOTDIR
      | Some (Dir es) =>
          match upd f p' (assoc c es) with
          | Ok o' => Ok (Some (Dir (put_entry c o' es)))
          | Err e => Err e
          end
      end
  end.

Definition upd_root (f : option node → result errno (option node)) (p : path)
    (root : node) : result errno node :=
  match upd f p (Some root) with
  | Ok (Some root') => Ok root'
  | Ok None => Err EINVAL
  | Err e => Err e
  end.

Definition put (p : path) (n : node) : node → result errno node :=
  upd_root (λ _, Ok (Some n)) p.

Definition del (p : path) : node → result errno node :=
  upd_root (λ _, Ok None) p.

(** [os.MkdirAll]: creates the missing directories of [p]; fails with
    [ENOTDIR] when a component is a regular file; touches nothing on failure. *)
Fixpoint mkdirAll (p : path) (o : option node) : result errno node :=
  match o with
  | Some (File _) => Err ENOTDIR
  | Some (Dir es) =>
      match p with
      | [] => Ok (Dir es)
      | c :: p' =>
          match mkdirAll p' (assoc c es) with
          | Ok ch => Ok (Dir (set_entry c ch es))
          | Err e => Err e
          end
      end
  | None =>
      match p with
      | [] => Ok (Dir [])
      | c :: p' =>
          match mkdirAll p' None with
          | Ok ch => Ok (Dir [(c, ch)])
          | Err e => Err e
          end
      end
  end.

(** [os.Create]/[ioutil.WriteFile]: create or truncate the file at [p]. *)
Definition writeFile (p : path) (c : content) : node → result errno node :=
  upd_root (λ o, match o with
                 | Some (Dir _) => Err EISDIR
                 | _ => Ok (Some (File c))
                 end) p.

(** [os.Rename] on Unix. Go first refuses an existing directory as the new
    name ([EEXIST], unless the old name is bad, whose error then wins); the
    system call reports a missing old name or new parent as [ENOENT],
    a directory renamed onto a file as [ENOTDIR], a directory renamed into
    itself as [EINVAL], and replaces an existing file. *)
Definition rename (old new : path) (root : node) : result errno node :=
  match walk new root, walk old root with
  | Ok (Dir _), Err e => Err e
  | Ok (Dir _), Ok _ => Err EEXIST
  | _, Err e => Err e
  | wn, Ok n =>
      if decide (old = new) then Ok root
      else if decide (old `prefix_of` new) then Err EINVAL
      else
        match n, wn with
        | Dir _, Ok (File _) => Err ENOTDIR
        | _, _ =>
            match del old root with
            | Ok root1 => put new n root1
            | Err e => Err e
            end
        end
  end.

(** [os.RemoveAll]: removing what does not exist is not an error. *)
Definition removeAll (p : path) (root : node) : result errno node :=
  match walk p root with
  | Err ENOENT => Ok root
  | Err e => Err e
  | Ok _ => del p root
  end.

(** Insertion sort of names in byte order, the order of Go's [sort.Strings]. *)
Fixpoint insert_sorted (s : string) (l : list string) : list string :=
  match l with
  | [] => [s]
  | t :: l' => if String.leb s t then s :: l else t :: insert_sorted s l'
  end.

Definition sort_strings (l : list string) : list string :=
  foldr insert_sorted [] l.

(** The names in directory [p], sorted, as [filepath.Glob] and
    [ioutil.ReadDir] list them; nothing when [p] is not a directory. *)
Definition readdirnames (p : path) (root : node) : list string :=
  match get p root with
  | Some (Dir es) => sort_strings (map fst es)
  | _ => []
  end.

(** [filepath.Glob (filepath.Join dir pat)] for a pattern [pat] without a
    separator, given as the predicate that [filepath.Match pat] decides.
    Errors of the directory read are ignored, as [Glob] does. *)
Definition glob1 (dir : path) (pat : string → bool) (root : node) : list path :=
  map (λ n, dir ++ [n]) (filter (λ n, pat n = true) (readdirnames dir root)).

(** ** The world and the monad of the pipeline *)

(** Calls that the log of a run records: the collaborator, the probe of
    the injector at each index it visits and the injection steps of the
    finalizer. *)
Inductive call :=
| CallRunLifecycleDetect
| CallStat (v2Layer : path)
| CallMoveV2Layers (src dst : path)
| CallWriteLayerMetadata (p : path)
| CallRenameEnvDir (dst : path)
| CallUpdateGroupTOML (buildpackID : string)
| CallAddFakeCNBBuildpack (buildpackID : string).

Record World := mkWorld {
  disk : node;
  CF_STACK : string;
  calls : list call }.

Definition M (A : Type) : Type := World → result error A * World.

Global Instance M_ret : MRet M := λ A a w, (Ok a, w).
Global Instance M_bind : MBind M := λ A B k m w,
  match m w with
  | (Ok a, w') => k a w'
  | (Err e, w') => (Err e, w')
  end.

Definition fail {A} (e : error) : M A := λ w, (Err e, w).

(** [err := m] kept as a value, for code that inspects the error. *)
Definition attempt {A} (m : M A) : M (result error A) :=
  λ w, let '(r, w') := m w in (Ok r, w').

Definition lift {A} (r : result error A) : M A := λ w, (r, w).

Definition log (c : call) : M unit :=
  λ w, (Ok (), mkWorld (disk w) (CF_STACK w) (calls w ++ [c])).

Definition set_disk (w : World) (d : node) : World :=
  mkWorld d (CF_STACK w) (calls w).

(** A system call that changes the disk. *)
Definition syscall (f : node → result errno node) (mkerr : errno → error) : M unit :=
  λ w, match f (disk w) with
       | Ok d => (Ok (), set_disk w d)
       | Err e => (Err (mkerr e), w)
       end.

Definition os_Stat (p : path) : M node :=
  λ w, match walk p (disk w) with
       | Ok n => (Ok n, w)
       | Err e => (Err (PathError "stat" p e), w)
       end.

Definition os_MkdirAll (p : path) : M unit :=
  syscall (λ d, mkdirAll p (Some d)) (PathError "mkdir" p).

Definition os_Rename (old new : path) : M unit :=
  syscall (rename old new) (LinkError "rename" old new).

Definition os_RemoveAll (p : path) : M unit :=
  syscall (removeAll p) (PathError "unlinkat" p).

Definition os_Create (p : path) : M unit :=
  syscall (writeFile p (Bytes "")) (PathError "open" p).

Definition ioutil_WriteFile (p : path) (data : string) : M unit :=
  syscall (writeFile p (Bytes data)) (PathError "open" p).

Definition ioutil_ReadFile (p : path) : M content :=
  λ w, match walk p (disk w) with
       | Ok (File c) => (Ok c, w)
       | Ok (Dir _) => (Err (PathError "read" p EISDIR), w)
       | Err e => (Err (PathError "open" p e), w)
       end.

Definition os_Getenv_CF_STACK : M string := λ w, (Ok (CF_STACK w), w).

(** ** [strconv] *)

Definition digit (a : ascii) : option Z :=
  let n := Z.of_nat (nat_of_ascii a) in
  if decide (48 ≤ n ≤ 57)%Z then Some (n - 48)%Z else None.

Fixpoint digits (acc : Z) (s : string) : option Z :=
  match s with
  | EmptyString => Some acc
  | String a s' =>
      match digit a with
      | Some d => digits (10 * acc + d)%Z s'
      | None => None
      end
  end.

(** [strconv.Atoi] for a 64-bit [int]: an optional sign, then one or more
    decimal digits; a value outside the range of [int] is an error. *)
Definition Atoi (s : string) : result error Z :=
  let '(neg, body) :=
    match s with
    | String "+" s' => (false, s')
    | String "-" s' => (true, s')
    | _ => (false, s)
    end in
  match body with
  | EmptyString => Err (NumError "Atoi" s)
  | _ =>
      match digits 0 body with
      | None => Err (NumError "Atoi" s)
      | Some n =>
          let v := if neg then (- n)%Z else n in
          if decide (- 2 ^ 63 ≤ v < 2 ^ 63)%Z then Ok v else Err (NumError "Atoi" s)
      end
  end.

(** The value of a 64-bit [int] after an operation whose exact result is [z]. *)
Definition wrap64 (z : Z) : Z := ((z + 2 ^ 63) mod 2 ^ 64 - 2 ^ 63)%Z.

(** [strconv.Itoa], also what the verb [%d] of [fmt.Sprintf] prints. *)
Definition Itoa (i : Z) : string := NilZero.string_of_int (Z.to_int i).

(** ** The metadata codec *)

(** Modelled from the spec: [encodeTOML] is not among the sources. It
    writes the encoded descriptor to the file [dest], creating or
    truncating it (section 2, Metadata Codec; section 6, file formats). *)
Definition encodeTOML (dest : path) (data : content) : M unit :=
  syscall (writeFile dest data) (PathError "open" dest).

Definition unmarshal {A} (p : path) (sel : content → option A) (c : content) : M A :=
  match sel c with
  | Some a => mret a
  | None => fail (DecodeError p)
  end.

Definition decode {A} (p : path) (sel : content → option A) : M A :=
  c ← ioutil_ReadFile p;
  unmarshal p sel c.

(** [toml.DecodeFile path &v] at the types the finalizer decodes. *)
Definition DecodeFile_group (p : path) : M group :=
  decode p (λ c, match c with GroupTOML g => Some g | _ => None end).

Definition DecodeFile_LayerMetadata (p : path) : M LayerMetadata :=
  decode p (λ c, match c with LayerTOML m => Some m | _ => None end).

Definition DecodeFile_order (p : path) : M order :=
  decode p (λ c, match c with OrderTOML o => Some o | _ => None end).

(** A descriptor read into [BuildpackTOML]: the synthesized descriptor of
    [AddFakeCNBBuildpack] has the same top-level tables and no metadata. *)
Definition Unmarshal_BuildpackTOML (p : path) (contents : content) : M BuildpackTOML :=
  unmarshal p (λ c,
    match c with
    | BuildpackTOMLFile b => Some b
    | FakeBuildpackTOML b ss =>
        Some (mkBuildpackTOML
                (TTable [("id", TString (bpID b)); ("name", TString (bpName b));
                         ("version", TString (bpVersion b))])
                (mkBuildpackMetadata TNil TNil None [])
                (TArray (map (λ s, TTable [("id", TString (stackID s))]) ss)))
    | _ => None
    end) contents.

(** Modelled from the spec: [libbuildpack.YAML.Load] is not among the
    sources. It loads an override file into a
    [map[string]libbuildpack.Manifest] (section 4.5). *)
Definition YAML_Load (p : path) : M (gmap string Manifest) :=
  decode p (λ c, match c with OverrideYML m => Some m | _ => None end).

(** ** Paths as the source computes them *)

(** [path + ext]: the text is appended to the last component. *)
Fixpoint path_append (p : path) (ext : string) : path :=
  match p with
  | [] => [ext]
  | [c] => [c +:+ ext]
  | c :: p' => c :: path_append p' ext
  end.

(** A path text that ends in a separator has an empty last component and
    names the directory before it. *)
Definition dir_of (p : path) : path :=
  match last p with
  | Some EmptyString => removelast p
  | _ => p
  end.

(** [filepath.Base]. *)
Definition Base (p : path) : string := default "/" (last (dir_of p)).

(** [strip_suffix suf s] is the text before [suf] when [s] ends in [suf]. *)
Fixpoint strip_suffix (suf s : string) : option string :=
  if decide (s = suf) then Some EmptyString
  else match s with
       | EmptyString => None
       | String a s' => String a <$> strip_suffix suf s'
       end.

(** [filepath.Match "*.toml"]. *)
Definition is_toml (name : string) : bool :=
  bool_decide (is_Some (strip_suffix ".toml" name)).

(** [tomlFile[:len(tomlFile)-len(".toml")]]. *)
Definition trimTOML (tomlFile : path) : path :=
  match last tomlFile with
  | Some name => removelast tomlFile ++ [default name (strip_suffix ".toml" name)]
  | None => tomlFile
  end.

Fixpoint forM_ {A} (l : list A) (body : A → M unit) : M unit :=
  match l with
  | [] => mret ()
  | x :: l' => body x ;; forM_ l' body
  end.

(** [errors.Wrap]. *)
Definition Wrap {A} (m : M A) (msg : string) : M A :=
  λ w, match m w with
       | (Err e, w') => (Err (WithMessage e msg), w')
       | r => r
       end.

Definition Glob (pat : node → list path) : M (list path) :=
  λ w, (Ok (pat (disk w)), w).

(** ** Helpers of [libbuildpack] used by the layer migrator *)

(** Modelled from the spec: [libbuildpack.FileExists] is not among the
    sources. It reports whether the path exists; absence is not an error
    (section 4.4, restore). *)
Definition FileExists (file : path) : M bool :=
  st ← attempt (os_Stat file);
  match st with
  | Ok _ => mret true
  | Err e => if IsNotExist e then mret false else fail e
  end.

(** Modelled from the spec: [libbuildpack.CopyFile] is not among the
    sources. It copies the contents of the file [src] to the file [dst]. *)
Definition CopyFile (src dst : path) : M unit :=
  c ← ioutil_ReadFile src;
  syscall (writeFile dst c) (PathError "open" dst).

(** Modelled from the spec: the copy that [libbuildpack.CopyDirectory]
    makes of the tree [s] over what is at the destination ([d], if
    anything): files are written (replacing a file of the same name),
    directories are created when missing and filled recursively; what the
    destination holds under other names stays. *)
Fixpoint copyTree (s : node) (d : option node) : result errno node :=
  match s with
  | File c =>
      match d with
      | Some (Dir _) => Err EISDIR
      | _ => Ok (File c)
      end
  | Dir es =>
      match d with
      | Some (File _) => Err ENOTDIR
      | _ =>
          match
            (fix go (es : list (string * node)) (ds : entries) : result errno entries :=
               match es with
               | [] => Ok ds
               | (c, ch) :: es' =>
                   match copyTree ch (assoc c ds) with
                   | Ok r => go es' (set_entry c r ds)
                   | Err e => Err e
                   end
               end) es (match d with Some (Dir ds) => ds | _ => [] end)
          with
          | Ok ds' => Ok (Dir ds')
          | Err e => Err e
          end
      end
  end.

(** Modelled from the spec: [libbuildpack.CopyDirectory] is not among the
    sources. It copies the full directory tree [srcDir] into the existing
    directory [destDir] (section 4.4, persist). *)
Definition copyDirectory (srcDir destDir : path) (root : node) : result errno node :=
  match walk srcDir root with
  | Err e => Err e
  | Ok (File _) => Err ENOTDIR
  | Ok (Dir es) =>
      upd_root (λ o, match o with
                     | Some (Dir ds) =>
                         match copyTree (Dir es) (Some (Dir ds)) with
                         | Ok r => Ok (Some r)
                         | Err e => Err e
                         end
                     | Some (File _) => Err ENOTDIR
                     | None => Err ENOENT
                     end) destDir root
  end.

Definition CopyDirectory (srcDir destDir : path) : M unit :=
  syscall (copyDirectory srcDir destDir) (PathError "copy" destDir).

(** Modelled from the spec: [libbuildpack.MoveDirectory] is not among the
    sources. It moves the contents of [srcDir] wholesale into [destDir]:
    every entry is renamed, none is copied (section 4.4, restore;
    section 8, idempotent restore). *)
Definition MoveDirectory (srcDir destDir : path) : M unit :=
  st ← os_Stat srcDir;
  match st with
  | File _ => fail (PathError "readdir" srcDir ENOTDIR)
  | Dir es =>
      os_MkdirAll destDir ;;
      forM_ (sort_strings (map fst es))
            (λ name, os_Rename (srcDir ++ [name]) (destDir ++ [name]))
  end.

(** ** The order merger's helpers *)

(** Modelled from the spec: the index of the legacy buildpack that left
    the fragment [name] (section 4.1: one fragment per legacy buildpack
    index). A supply step names its fragment [order<index>.toml]
    ([Supplier.SaveOrderTOML]); the index is the decimal number between
    [order] and [.toml]. *)
Definition fragmentIndex (name : string) : option Z :=
  match name with
  | String "o" (String "r" (String "d" (String "e" (String "r" rest)))) =>
      match strip_suffix ".toml" rest with
      | Some (String a index) => digits 0 (String a index)
      | _ => None
      end
  | _ => None
  end.

(** Modelled from the spec: the order of the fragments, lowest index first
    (section 4.1); an entry whose name carries no index comes after those
    that carry one. *)
Definition lowerIndex (a b : string) : Prop :=
  match fragmentIndex a, fragmentIndex b with
  | Some i, Some j => (i ≤ j)%Z
  | _, None => True
  | None, Some _ => False
  end.

Global Instance lowerIndex_dec a b : Decision (lowerIndex a b).
Proof. unfold lowerIndex. destruct (fragmentIndex a), (fragmentIndex b); apply _. Defined.

(** Modelled from the spec: the discovery of [parseOrderTOMLs], which is
    not among the sources. It yields the fragments that the order directory
    holds, in the execution order of the legacy buildpacks that left them:
    lowest index first (section 4.1), whatever the order in which the
    directory stores its entries. A directory that is missing holds no
    fragment. *)
Definition discover (dir : path) (root : node) : list path :=
  match get dir root with
  | Some (Dir es) => map (λ name, dir ++ [name]) (merge_sort lowerIndex (map fst es))
  | _ => []
  end.

(** Modelled from the spec: [parseOrderTOMLs] is not among the sources. It
    discovers every order fragment in the order directory, in discovery
    order, and decodes each as an Order (section 4.1). *)
Fixpoint parseOrderTOMLs_from (orders : list order) (files : list path) : M (list order) :=
  match files with
  | [] => mret orders
  | file :: files' =>
      orderTOML ← DecodeFile_order file;
      parseOrderTOMLs_from (orders ++ [orderTOML]) files'
  end.

Definition parseOrderTOMLs (orders : list order) (orderFilesDir : path) : M (list order) :=
  files ← (λ w, (Ok (discover orderFilesDir (disk w)), w));
  parseOrderTOMLs_from orders files.

(** Modelled from the spec: [combineOrders] is not among the sources. The
    combined Order holds every fragment's groups, each fragment's groups in
    their own order, fragment after fragment in discovery order
    (section 4.1; section 8, order merge completeness). *)
Definition combineOrders (orders : list order) : order :=
  foldl (λ combined o, mkOrder (Groups combined ++ Groups o)) (mkOrder []) orders.

(** A collaborator run as an external process. *)
Definition external (run : node → result error unit * node) : M unit :=
  λ w, let '(r, d) := run (disk w) in (r, set_disk w d).

(** ** The supplier's order fragment ([shims/supplier.go]) *)

Module Supplier.

Record t := mk {
  V2AppDir : path;
  V3AppDir : path;
  V2DepsDir : path;
  V2CacheDir : path;
  DepsIndex : string;
  V2BuildpackDir : path;
  V3BuildpacksDir : path;
  OrderDir : path }.

(** The name of the fragment: [fmt.Sprintf("order%s.toml", s.DepsIndex)]. *)
Definition orderFile (s : t) : path :=
  OrderDir s ++ ["order" +:+ DepsIndex s +:+ ".toml"].

Definition SaveOrderTOML (s : t) : M path :=
  CopyFile (V2BuildpackDir s ++ ["order.toml"]) (orderFile s) ;;
  mret (orderFile s).

Definition RemoveV2DepsIndex (s : t) : M unit :=
  os_RemoveAll (V2DepsDir s ++ [DepsIndex s]).

(** [moveContent], a function of the package. *)
Definition moveContent (source destination : path) : M unit :=
  os_RemoveAll destination ;;
  os_Rename source destination.

End Supplier.

(** ** The finalizer *)

Record Finalizer := mkFinalizer {
  V2AppDir : path;
  V3AppDir : path;
  V2DepsDir : path;
  V2CacheDir : path;
  V3LayersDir : path;
  V3BuildpacksDir : path;
  DepsIndex : string;
  OrderDir : path;
  OrderMetadata : path;
  GroupMetadata : path;
  PlanMetadata : path;
  V3LifecycleDir : path;
  V3LauncherDir : path;
  ProfileDir : path;
  (** The [Detector] collaborator: what [RunLifecycleDetect] does to the
      disk and what it returns. *)
  Detector : node → result error unit * node }.

(** [f.Detector.RunLifecycleDetect()]. *)
Definition RunLifecycleDetect (f : Finalizer) : M unit :=
  log CallRunLifecycleDetect ;;
  external (Detector f).

Definition MergeOrderTOMLs (f : Finalizer) : M unit :=
  orders ← parseOrderTOMLs [] (OrderDir f);
  if decide (length orders = 0) then fail (ErrorString "no order.toml found")
  else encodeTOML (OrderMetadata f) (OrderTOML (combineOrders orders)).

(** [os.IsNotExist err] for the error of an attempted call ([nil] on success). *)
Definition notExist {A} (r : result error A) : bool :=
  match r with
  | Err e => IsNotExist e
  | Ok _ => false
  end.

Definition RunV3Detect (f : Finalizer) : M unit :=
  groupErr ← attempt (os_Stat (GroupMetadata f));
  planErr ← attempt (os_Stat (PlanMetadata f));
  if notExist groupErr || notExist planErr then RunLifecycleDetect f
  else mret ().

Definition MoveV2Layers (f : Finalizer) (src dst : path) : M unit :=
  log (CallMoveV2Layers src dst) ;;
  os_MkdirAll (removelast dst) ;;
  os_Rename src dst.

Definition WriteLayerMetadata (f : Finalizer) (p : path) : M unit :=
  log (CallWriteLayerMetadata p) ;;
  let contents := mkLayerMetadata true true false in
  encodeTOML (path_append p ".toml") (LayerTOML contents).

Definition ReadLayerMetadata (f : Finalizer) (p : path) : M LayerMetadata :=
  DecodeFile_LayerMetadata p.

Definition RenameEnvDir (f : Finalizer) (dst : path) : M unit :=
  log (CallRenameEnvDir dst) ;;
  err ← attempt (os_Rename (dst ++ ["env"]) (dst ++ ["env.build"]));
  match err with
  | Err e => if negb (IsNotExist e) then fail e else mret ()
  | Ok _ => mret ()
  end.

Definition UpdateGroupTOML (f : Finalizer) (buildpackID : string) : M unit :=
  log (CallUpdateGroupTOML buildpackID) ;;
  groupMetadata ← DecodeFile_group (GroupMetadata f);
  let groupMetadata' :=
    mkGroup ([mkBuildpack buildpackID "" ""] ++ Buildpacks groupMetadata) in
  encodeTOML (GroupMetadata f) (GroupTOML groupMetadata').

Definition AddFakeCNBBuildpack (f : Finalizer) (buildpackID : string) : M unit :=
  log (CallAddFakeCNBBuildpack buildpackID) ;;
  let buildpackPath := V3BuildpacksDir f ++ [buildpackID; "latest"] in
  os_MkdirAll buildpackPath ;;
  os_Create (buildpackPath ++ ["buildpack.toml"]) ;;
  cfStack ← os_Getenv_CF_STACK;
  encodeTOML (buildpackPath ++ ["buildpack.toml"])
    (FakeBuildpackTOML (mkBuildpack buildpackID buildpackID "latest")
       [mkStack ("org.cloudfoundry.stacks." +:+ cfStack)]) ;;
  os_MkdirAll (buildpackPath ++ ["bin"]) ;;
  ioutil_WriteFile (buildpackPath ++ ["bin"; "build"]) "#!/bin/bash".

(** The body of the loop of [IncludePreviousV2Buildpacks] at one index. *)
Definition includeV2Buildpack (f : Finalizer) (supplyDepsIndex : nat) : M unit :=
  let v2Layer := V2DepsDir f ++ [Itoa (Z.of_nat supplyDepsIndex)] in
  log (CallStat v2Layer) ;;
  st ← attempt (os_Stat v2Layer);
  if notExist st then mret ()
  else
    let buildpackID := "buildpack." +:+ Itoa (Z.of_nat supplyDepsIndex) in
    let v3Layer := V3LayersDir f ++ [buildpackID; "layer"] in
    MoveV2Layers f v2Layer v3Layer ;;
    WriteLayerMetadata f v3Layer ;;
    RenameEnvDir f v3Layer ;;
    UpdateGroupTOML f buildpackID ;;
    AddFakeCNBBuildpack f buildpackID.

(** [for supplyDepsIndex := start; supplyDepsIndex >= 0; supplyDepsIndex--],
    with [n] the number of indices from [start] down to zero. *)
Fixpoint includeLoop (f : Finalizer) (n : nat) : M unit :=
  match n with
  | 0 => mret ()
  | S supplyDepsIndex =>
      includeV2Buildpack f supplyDepsIndex ;;
      includeLoop f supplyDepsIndex
  end.

Definition IncludePreviousV2Buildpacks (f : Finalizer) : M unit :=
  myIDx ← lift (Atoi (DepsIndex f));
  os_RemoveAll (V2DepsDir f ++ [DepsIndex f]) ;;
  includeLoop f (Z.to_nat (wrap64 (myIDx - 1) + 1)).

Definition RestoreV3Cache (f : Finalizer) : M unit :=
  let cnbCache := V2CacheDir f ++ ["cnb"] in
  exists_ ← FileExists cnbCache;
  if (exists_ : bool) then MoveDirectory cnbCache (V3LayersDir f)
  else mret ().

Definition cacheLayer (f : Finalizer) (v3Path : path) (layersName layerName : string) : M unit :=
  let cacheDir := V2CacheDir f ++ ["cnb"; layersName; layerName] in
  os_MkdirAll cacheDir ;;
  CopyFile (path_append v3Path ".toml") (path_append cacheDir ".toml") ;;
  CopyDirectory (dir_of v3Path) cacheDir.

Definition moveV3Layer (f : Finalizer) (layersPath : path) : M unit :=
  let layersName := Base layersPath in
  tomls ← Glob (glob1 layersPath is_toml);
  forM_ tomls (λ tomlFile,
    decodedToml ← ReadLayerMetadata f tomlFile;
    if Cache decodedToml then
      let layerPath := trimTOML tomlFile in
      let layerName := Base layerPath in
      cacheLayer f layerPath layersName layerName
    else mret ()) ;;
  os_MkdirAll (V2DepsDir f ++ [layersName]) ;;
  CopyDirectory layersPath (V2DepsDir f ++ [layersName]).

Definition moveV3Config (f : Finalizer) : M unit :=
  os_Rename (V3LayersDir f ++ ["config"]) (V2DepsDir f ++ ["config"]) ;;
  os_MkdirAll (V2AppDir f ++ [".cloudfoundry"]) ;;
  CopyFile (V2DepsDir f ++ ["config"; "metadata.toml"])
           (V2AppDir f ++ [".cloudfoundry"; "metadata.toml"]).

Definition MoveV3Layers (f : Finalizer) : M unit :=
  bpLayers ← Glob (glob1 (V3LayersDir f) (λ _, true));
  forM_ bpLayers (λ bpLayerPath,
    let base := Base bpLayerPath in
    if decide (base = "config") then moveV3Config f
    else moveV3Layer f bpLayerPath).

(** ** The override engine *)

Definition v2ToV3Dep (entry : ManifestEntry) : V3Dependency :=
  let v3Stacks :=
    foldl (λ v3Stacks stack, v3Stacks ++ ["org.cloudfoundry.stacks." +:+ stack])
          [] (meCFStacks entry) in
  {| ID := depName (meDependency entry);
     Name := depName (meDependency entry);
     Sha256 := meSHA256 entry;
     Stacks := v3Stacks;
     URI := meURI entry;
     Version := depVersion (meDependency entry);
     Source := "";
     SourceSha256 := "" |}.

Definition sameDep (v3Dep overrideDep : V3Dependency) : Prop :=
  ID v3Dep = ID overrideDep ∧ Version v3Dep = Version overrideDep.

Global Instance sameDep_dec a b : Decision (sameDep a b).
Proof. unfold sameDep. apply _. Defined.

(** The inner loop over [*cnbDeps]: every record with the key of
    [overrideDep] is overwritten where it stands; the flag tells whether
    one was. *)
Fixpoint replaceDeps (overrideDep : V3Dependency) (cnbDeps : list V3Dependency)
    : list V3Dependency * bool :=
  match cnbDeps with
  | [] => ([], false)
  | v3Dep :: rest =>
      let '(rest', replaced) := replaceDeps overrideDep rest in
      if decide (sameDep v3Dep overrideDep) then (overrideDep :: rest', true)
      else (v3Dep :: rest', replaced)
  end.

(** One pass of the loop over [manifest.ManifestEntries]. *)
Definition upsertDep (cnbDeps : list V3Dependency) (dep : ManifestEntry) : list V3Dependency :=
  let overrideDep := v2ToV3Dep dep in
  let '(cnbDeps', replaced) := replaceDeps overrideDep cnbDeps in
  if negb replaced then cnbDeps' ++ [overrideDep] else cnbDeps'.

(** One pass of the loop over [manifest.DefaultVersions]. *)
Definition setDefaultVersion (dvs : option (gmap string tomlval)) (defaultVer : Dependency)
    : option (gmap string tomlval) :=
  let m := match dvs with None => ∅ | Some m => m end in
  Some (<[depName defaultVer := TString (depVersion defaultVer)]> m).

(** The body of the loop over the manifests of an override map. *)
Definition applyManifest (bpTOML : BuildpackTOML) (manifest : Manifest) : BuildpackTOML :=
  let md := Metadata bpTOML in
  let dvs := foldl setDefaultVersion (DefaultVersions md) (mDefaultVersions manifest) in
  let deps := foldl upsertDep (Dependencies md) (ManifestEntries manifest) in
  mkBuildpackTOML (Buildpack bpTOML)
    (mkBuildpackMetadata (IncludeFiles md) (PrePackage md) dvs deps)
    (BPStacks bpTOML).

(** Go leaves the order in which [range] visits a map unspecified. A
    [RangeOrder] is the order the runtime takes when the descriptor at the
    given path is processed: an enumeration of the entries of the map. *)
Definition RangeOrder := path → gmap string Manifest → list (string * Manifest).

Definition valid_order (ro : RangeOrder) : Prop :=
  ∀ p m, ro p m ≡ₚ map_to_list m.

Definition updateBuildpackTOML (ro : RangeOrder) (f : Finalizer) (bpTOMLPaths : list path)
    (overrideMap : gmap string Manifest) : M unit :=
  forM_ bpTOMLPaths (λ bpTOMLPath,
    contents ← ioutil_ReadFile bpTOMLPath;
    bpTOML ← Wrap (Unmarshal_BuildpackTOML bpTOMLPath contents)
                  "failed to unmarshal into bpTOML";
    let bpTOML' := foldl applyManifest bpTOML (map snd (ro bpTOMLPath overrideMap)) in
    encodeTOML bpTOMLPath (BuildpackTOMLFile bpTOML')).

(** [filepath.Glob (filepath.Join dir "*" name)]. *)
Definition glob_star_name (dir : path) (name : string) (root : node) : list path :=
  flat_map (λ d, glob1 d (λ n, bool_decide (n = name)) root) (glob1 dir (λ _, true) root).

(** [filepath.Glob (filepath.Join dir "*" "*" name)]. *)
Definition glob_star_star_name (dir : path) (name : string) (root : node) : list path :=
  flat_map (λ d, glob_star_name d name root) (glob1 dir (λ _, true) root).

Definition ApplyOverrideYMLs (ro : RangeOrder) (f : Finalizer) : M unit :=
  overrideYMLPaths ← Glob (glob_star_name (V2DepsDir f) "override.yml");
  bpTOMLs ← Glob (glob_star_star_name (V3BuildpacksDir f) "buildpack.toml");
  forM_ overrideYMLPaths (λ overrideYML,
    overrideManifest ← Wrap (YAML_Load overrideYML) "unable to unmarshal into overrideManifest";
    updateBuildpackTOML ro f bpTOMLs overrideManifest).

(** ** Vocabulary of the statements *)

(** Neither path lies below (or is) the other. *)
Definition apart (p q : path) : Prop :=
  ¬ p `prefix_of` q ∧ ¬ q `prefix_of` p.

Global Instance apart_dec p q : Decision (apart p q).
Proof. unfold apart. apply _. Defined.

(** [get] below an optional node. *)
Definition oget (p : path) (o : option node) : option node :=
  match o with Some n => get p n | None => None end.

(** The error of [MergeOrderTOMLs] for an order directory without fragments. *)
Definition ErrNoFragmentsFound : error := ErrorString "no order.toml found".

(** The order fragments that discovery finds on a disk, in discovery order. *)
Definition fragmentFiles (f : Finalizer) (d : node) : list path :=
  discover (OrderDir f) d.

(** The name of the fragment of the legacy buildpack with index [i]. *)
Definition orderName (i : nat) : string :=
  "order" +:+ Itoa (Z.of_nat i) +:+ ".toml".

(** [os.IsNotExist] of the error of [os.Stat p]. *)
Definition absent (p : path) (d : node) : bool :=
  match walk p d with
  | Err ENOENT => true
  | _ => false
  end.

(** The detector was invoked, once, between two worlds. *)
Definition detector_invoked (w w' : World) : Prop :=
  calls w' = calls w ++ [CallRunLifecycleDetect].

(** ** The end-to-end scenario of the specification (section 8)

    Two legacy buildpacks (indices 0 and 1) left output under their deps
    directories and one order fragment each; group and plan metadata of a
    prior attempt are on disk; the finalizer runs as buildpack 2. *)

Definition ref (id : string) : buildpack := mkBuildpack id "" "".

Definition exFinalizer : Finalizer := {|
  V2AppDir := ["tmp"; "app"];
  V3AppDir := ["home"; "vcap"; "app"];
  V2DepsDir := ["tmp"; "deps"];
  V2CacheDir := ["tmp"; "cache"];
  V3LayersDir := ["home"; "vcap"; "deps"];
  V3BuildpacksDir := ["home"; "vcap"; "cnbs"];
  DepsIndex := "2";
  OrderDir := ["home"; "vcap"; "order"];
  OrderMetadata := ["home"; "vcap"; "metadata"; "order.toml"];
  GroupMetadata := ["home"; "vcap"; "metadata"; "group.toml"];
  PlanMetadata := ["home"; "vcap"; "metadata"; "plan.toml"];
  V3LifecycleDir := ["tmp"; "lifecycle"];
  V3LauncherDir := ["tmp"; "deps"; "launcher"];
  ProfileDir := ["tmp"; "profile"];
  Detector := λ d, (Ok (), d) |}.

Definition exOrder0 : order := mkOrder [mkGroup [ref "lang-a"]].
Definition exOrder1 : order := mkOrder [mkGroup [ref "lang-b"]].

Definition exMetadata : entries :=
  [("group.toml", File (GroupTOML (mkGroup [ref "lang-b"])));
   ("plan.toml", File (Bytes ""))].

Definition exDisk : node :=
  Dir [("tmp", Dir [("deps", Dir [("0", Dir [("env", Dir [("PATH", File (Bytes "/bin"))]);
                                             ("bin", Dir [])]);
                                  ("1", Dir [("lib", File (Bytes "so"))]);
                                  ("2", Dir [])]);
                    ("cache", Dir [])]);
       ("home", Dir [("vcap", Dir [
          ("order", Dir [("order0.toml", File (OrderTOML exOrder0));
                         ("order1.toml", File (OrderTOML exOrder1))]);
          ("metadata", Dir exMetadata)])])].

Definition exWorld : World := mkWorld exDisk "cflinuxfs3" [].

(** The fragments of the legacy buildpacks 0, 2 and 10, stored by the order
    directory in another order than the buildpacks ran in. *)
Definition exOrder10 : order := mkOrder [mkGroup [ref "lang-k"]; mkGroup [ref "lang-a"]].

Definition exOrder2' : order := mkOrder [mkGroup [ref "lang-c"]].

Definition shuffledDisk : node :=
  Dir [("home", Dir [("vcap", Dir [
          ("order", Dir [("order10.toml", File (OrderTOML exOrder10));
                         ("order2.toml", File (OrderTOML exOrder2'));
                         ("order0.toml", File (OrderTOML exOrder0))]);
          ("metadata", Dir [])])])].

Definition shuffledWorld : World := mkWorld shuffledDisk "cflinuxfs3" [].

(** ** Vocabulary of the override engine *)

(** The record that the inner loop leaves where [v3Dep] stood. *)
Definition overwrite (overrideDep v3Dep : V3Dependency) : V3Dependency :=
  if decide (sameDep v3Dep overrideDep) then overrideDep else v3Dep.

(** No override file on the disk declares more than one manifest. *)
Definition single_manifest_overrides (d : node) : Prop :=
  ∀ p m, get p d = Some (File (OverrideYML m)) → size m ≤ 1.

(** Two enumerations of a map that a run may meet. *)
Definition forwards : RangeOrder := λ _ m, map_to_list m.
Definition backwards : RangeOrder := λ _ m, reverse (map_to_list m).

Definition exDescriptor : BuildpackTOML :=
  mkBuildpackTOML (TTable [("id", TString "lang-b")])
                  (mkBuildpackMetadata TNil TNil None [])
                  TNil.

Definition exPin (v : string) : Manifest :=
  mkManifest [mkDependency "ruby" v] [].

(** A disk with one buildpack descriptor and one override file. *)
Definition overrideDisk (overrides : gmap string Manifest) : node :=
  Dir [("tmp", Dir [("deps", Dir [("0", Dir [("override.yml", File (OverrideYML overrides))])])]);
       ("home", Dir [("vcap", Dir [("cnbs", Dir [("lang-b", Dir [("latest", Dir [
           ("buildpack.toml", File (BuildpackTOMLFile exDescriptor))])])])])])].

Definition twoManifests : gmap string Manifest :=
  {[ "a" := exPin "2.5"; "b" := exPin "2.6" ]}.

Definition oneManifest : gmap string Manifest :=
  {[ "a" := exPin "2.5" ]}.

(** A check of every file of a tree. *)
Fixpoint all_files (P : content → bool) (n : node) : bool :=
  match n with
  | File c => P c
  | Dir es =>
      (fix go (es : list (string * node)) : bool :=
         match es with
         | [] => true
         | (_, ch) :: es' => all_files P ch && go es'
         end) es
  end.

Definition single_manifest (c : content) : bool :=
  match c with
  | OverrideYML m => bool_decide (size m ≤ 1)
  | _ => true
  end.

Definition overrideWorld (overrides : gmap string Manifest) : World :=
  mkWorld (overrideDisk overrides) "cflinuxfs3" [].

(** The default-version pin of a module in the descriptor at a path. *)
Definition defaultVersionAt (p : path) (name : string) (d : node) : option tomlval :=
  match get p d with
  | Some (File (BuildpackTOMLFile b)) =>
      match DefaultVersions (Metadata b) with
      | Some m => m !! name
      | None => None
      end
  | _ => None
  end.

(** ** Vocabulary of the injector *)

(** The staging directories of a finalize invocation do not contain one
    another, and the group metadata file lies in none of them. *)
Definition staging_apart (f : Finalizer) : Prop :=
  apart (V2DepsDir f) (V3LayersDir f) ∧
  apart (V2DepsDir f) (V3BuildpacksDir f) ∧
  apart (V2DepsDir f) (GroupMetadata f) ∧
  apart (V3LayersDir f) (GroupMetadata f) ∧
  apart (V3BuildpacksDir f) (GroupMetadata f).

Global Instance staging_apart_dec f : Decision (staging_apart f).
Proof. unfold staging_apart. apply _. Defined.

(** The deps directory of the legacy buildpack with index [i]. *)
Definition v2Layer (f : Finalizer) (i : nat) : path :=
  V2DepsDir f ++ [Itoa (Z.of_nat i)].

(** The legacy buildpack with index [i] left output on the disk. *)
Definition hasOutput (f : Finalizer) (d : node) (i : nat) : bool :=
  bool_decide (is_Some (get (v2Layer f i) d)).

(** The identifier synthesized for the legacy buildpack with index [i]. *)
Definition legacyID (i : nat) : string := "buildpack." +:+ Itoa (Z.of_nat i).

(** The calls of the injection of the legacy buildpack with index [i]. *)
Definition injectionCalls (f : Finalizer) (i : nat) : list call :=
  let v3Layer := V3LayersDir f ++ [legacyID i; "layer"] in
  [CallMoveV2Layers (v2Layer f i) v3Layer;
   CallWriteLayerMetadata v3Layer;
   CallRenameEnvDir v3Layer;
   CallUpdateGroupTOML (legacyID i);
   CallAddFakeCNBBuildpack (legacyID i)].

(** The indices [n - 1], ..., [0]. *)
Definition descending (n : nat) : list nat := reverse (seq 0 n).

(** The calls of a run that visits the given indices, in this order, and
    injects those that [out] holds of: at each index the probe of its deps
    directory, then the injection steps or nothing. *)
Definition injectionLog (f : Finalizer) (out : nat → bool) (visited : list nat) : list call :=
  flat_map (λ i, CallStat (v2Layer f i) :: if out i then injectionCalls f i else [])
           visited.

(** The group file after the references [ids] were put in front. *)
Definition withRefs (ids : list string) (o : option node) : option node :=
  match ids, o with
  | [], _ => o
  | _, Some (File (GroupTOML g)) =>
      Some (File (GroupTOML (mkGroup (map ref ids ++ Buildpacks g))))
  | _, _ => None
  end.

(** The world after an operation that only rewrites the disk. *)
Definition same_session (w w' : World) : Prop :=
  CF_STACK w' = CF_STACK w ∧ calls w' = calls w.

(** The identifiers of the legacy buildpacks below index [n] with output
    on the disk [d], by ascending index. *)
Definition injectedIDs (f : Finalizer) (d : node) (n : nat) : list string :=
  map legacyID (filter (λ i, hasOutput f d i = true) (seq 0 n)).

(** ** Vocabulary of the layer migrator *)

(** No directory of the tree lists a name twice. *)
Fixpoint wfb (n : node) : bool :=
  match n with
  | File _ => true
  | Dir es =>
      bool_decide (NoDup (map fst es)) &&
      (fix all (es : list (string * node)) : bool :=
         match es with
         | [] => true
         | (_, ch) :: es' => wfb ch && all es'
         end) es
  end.

(** Every file of [small] is in [big] at the same place with the same
    contents, and every directory of [small] is a directory of [big]. *)
Definition contains (big small : node) : Prop :=
  ∀ p, match get p small with
       | Some (File c) => get p big = Some (File c)
       | Some (Dir _) => ∃ es, get p big = Some (Dir es)
       | None => True
       end.

(** The tree at [src] on the disk [d] was copied to [dst] on the disk [d']. *)
Definition copied (src : path) (d : node) (dst : path) (d' : node) : Prop :=
  ∃ s t, get src d = Some (Dir s) ∧ get dst d' = Some t ∧ contains t (Dir s).

(** The entries of a directory copied one after the other: the loop of
    [copyTree]. *)
Definition copyEntries : list (string * node) → entries → result errno entries :=
  fix go (es : list (string * node)) (ds : entries) : result errno entries :=
    match es with
    | [] => Ok ds
    | (c, ch) :: es' =>
        match copyTree ch (assoc c ds) with
        | Ok r => go es' (set_entry c r ds)
        | Err e => Err e
        end
    end.

(** The durable cache of the layers of the buildpack [bp]. *)
Definition cacheRoot (f : Finalizer) (bp : string) : path :=
  V2CacheDir f ++ ["cnb"; bp].

(** The sidecar of the layer [stem] under [layersPath] asks for caching. *)
Definition cachedStem (layersPath : path) (d : node) (stem : string) : Prop :=
  ∃ m, get (layersPath ++ [stem +:+ ".toml"]) d = Some (File (LayerTOML m)) ∧
       Cache m = true.

(** The body of the loop of [moveV3Layer] over the sidecars. *)
Definition cacheIfAsked (f : Finalizer) (layersName : string) (tomlFile : path) : M unit :=
  decodedToml ← ReadLayerMetadata f tomlFile;
  if Cache decodedToml then
    let layerPath := trimTOML tomlFile in
    let layerName := Base layerPath in
    cacheLayer f layerPath layersName layerName
  else mret ().

(** ** The cache-selectivity scenario of the specification (section 8)

    The build of the buildpack [lang-b] produced the layers [x] (to be
    cached), [y] (not to be cached) and [z] (no sidecar). *)

Definition exLayers : entries :=
  [("x", Dir [("bin", Dir [("tool", File (Bytes "elf"))])]);
   ("x.toml", File (LayerTOML (mkLayerMetadata false true true)));
   ("y", Dir [("lib", File (Bytes "so"))]);
   ("y.toml", File (LayerTOML (mkLayerMetadata true false false)));
   ("z", Dir [])].

Definition migrateDisk : node :=
  Dir [("tmp", Dir [("deps", Dir []); ("cache", Dir [])]);
       ("home", Dir [("vcap", Dir [("deps", Dir [("lang-b", Dir exLayers)])])])].

Definition migrateWorld : World := mkWorld migrateDisk "cflinuxfs3" [].

(** A disk with a durable cache left by an earlier build. *)
Definition cachedLayer : node := Dir [("bin", Dir [("tool", File (Bytes "elf"))])].

Definition restoreDisk : node :=
  Dir [("tmp", Dir [("cache", Dir [("cnb", Dir [("lang-b", Dir [
          ("x", cachedLayer);
          ("x.toml", File (LayerTOML (mkLayerMetadata false true true)))])])])]);
       ("home", Dir [("vcap", Dir [])])].

Definition restoreWorld : World := mkWorld restoreDisk "cflinuxfs3" [].

(** ** The launch profile ([WriteProfileLaunch]) *)

Definition V3Launcher : string := "launcher".
Definition V3LaunchScript : string := "0_shim.sh".

(** The double quote and the line feed of the script text. *)
Definition dquote : string := String "034"%char EmptyString.
Definition newline : string := String "010"%char EmptyString.

(** The text that [fmt.Sprintf] builds from the stack and the launcher. *)
Definition profileContents (cfStack launcher : string) : string :=
  "export CNB_STACK_ID=" +:+ dquote +:+ "org.cloudfoundry.stacks." +:+ cfStack
    +:+ dquote +:+ newline +:+
  "export CNB_LAYERS_DIR=" +:+ dquote +:+ "$DEPS_DIR" +:+ dquote +:+ newline +:+
  "export CNB_APP_DIR=" +:+ dquote +:+ "$HOME" +:+ dquote +:+ newline +:+
  "exec $HOME/.cloudfoundry/" +:+ launcher +:+ " " +:+ dquote +:+ "$2" +:+ dquote
    +:+ newline.

Definition WriteProfileLaunch (f : Finalizer) : M unit :=
  cfStack ← os_Getenv_CF_STACK;
  ioutil_WriteFile (ProfileDir f ++ [V3LaunchScript]) (profileContents cfStack V3Launcher).

(** ** The packager's manifest ([packager])

    The dependency list of a buildpack manifest, its ordering for
    [sort.Sort] and the queries on stacks. *)

Module Packager.

Record Dependency := mkDependency {
  URI : string;
  File : string;
  SHA256 : string;
  Name : string;
  Version : string;
  Stacks : list string;
  Modules : list string;
  Source : string;
  SourceSHA256 : string;
  CNB : bool }.

(** [type File struct { Name, Path string }]. *)
Record file := mkFile { fileName : string; filePath : string }.

Record Default := mkDefault { defaultName : string; defaultVersion : string }.

Record Manifest := mkManifest {
  Language : string;
  Stack : string;
  IncludeFiles : list string;
  PrePackage : string;
  Dependencies : list Dependency;
  Defaults : list Default }.

(** [d[i]] for an [int] index: [None] stands for the run-time panic of an
    index out of range. *)
Definition index (d : list Dependency) (i : Z) : option Dependency :=
  if decide (0 ≤ i)%Z then d !! Z.to_nat i else None.

Definition Len (d : list Dependency) : Z := Z.of_nat (length d).

(** [d[i], d[j] = d[j], d[i]] on the slice: both elements are read, then
    [d[i]] and [d[j]] are assigned, in this order. *)
Definition Swap (d : list Dependency) (i j : Z) : option (list Dependency) :=
  di ← index d i;
  dj ← index d j;
  Some (<[Z.to_nat j := di]> (<[Z.to_nat i := dj]> d)).

Section Less.
(** The versions of [Masterminds/semver]: [semver.NewVersion] (which fails
    on a text that is no semantic version) and [LessThan]. *)
Context {semver : Type}.
Context (NewVersion : string → option semver) (LessThan : semver → semver → bool).

Definition Less (d : list Dependency) (i j : Z) : option bool :=
  di ← index d i;
  dj ← index d j;
  Some (if String.ltb (Name di) (Name dj) then true
        else if decide (Name di = Name dj) then
          match NewVersion (Version di), NewVersion (Version dj) with
          | Some v1, Some v2 => LessThan v1 v2
          | _, _ => String.ltb (Version di) (Version dj)
          end
        else false).
End Less.

(** The inner loop of [hasStack]: [return true] at the first stack equal
    to [stack]. *)
Fixpoint listsStack (stack : string) (stacks : list string) : bool :=
  match stacks with
  | [] => false
  | s :: stacks' => if decide (s = stack) then true else listsStack stack stacks'
  end.

Fixpoint hasStack_from (dependencies : list Dependency) (stack : string) : bool :=
  match dependencies with
  | [] => false
  | e :: dependencies' =>
      if listsStack stack (Stacks e) then true else hasStack_from dependencies' stack
  end.

Definition hasStack (m : Manifest) (stack : string) : bool :=
  hasStack_from (Dependencies m) stack.

Definition versionsOfDependencyWithStack (m : Manifest) (depName stack : string)
    : list string :=
  foldl (λ versions e,
           if decide (Name e = depName) then
             foldl (λ versions s,
                      if decide (s = stack) then versions ++ [Version e] else versions)
                   versions (Stacks e)
           else versions)
        [] (Dependencies m).

Section UpdateDependencyMap.
(** A [map[interface{}]interface{}] with keys [K] and values [V]; [key]
    and [str] are the key and the value that a Go string is as an
    [interface{}]. [calcSha] is the checksum of the file at a path, a
    function of the package that reads the disk. *)
Context {K V : Type} `{Countable K}.
Context (key : string → K) (str : string → V).
Context (calcSha : string → result error string).

(** What an [interface{}] argument holds: something that is no such map,
    the nil map, or a map. *)
Inductive dynamic :=
| NotMap
| NilMap
| Map (m : gmap K V).

(** The map is a reference: the caller sees what was stored in it, also
    when an error is returned. The result is the returned error and the
    argument as the call left it; [None] stands for the run-time panic of an
    assignment to an entry of the nil map. *)
Definition UpdateDependencyMap (d : Dependency) (dependencyMap : dynamic) (file : file)
    : option (result error unit * dynamic) :=
  match dependencyMap with
  | NotMap =>
      Some (Err (ErrorString "Could not cast deps[idx] to map[interface{}]interface{}"),
            NotMap)
  | NilMap => None
  | Map dep =>
      let dep := <[key "file" := str (fileName file)]> dep in
      if CNB d then
        match calcSha (filePath file) with
        | Err err => Some (Err err, Map dep)
        | Ok sha => Some (Ok (), Map (<[key "sha256" := str sha]> dep))
        end
      else Some (Ok (), Map dep)
  end.
End UpdateDependencyMap.

End Packager.

(** ** The fake of [docker.Executable] ([cutlass/docker/fakes])

    Calls are serialized by the mutex of the fake; a call is one step on
    the fields of the fake. *)

Module Fakes.

Section Executable.
(** [docker.ExecuteOptions]. *)
Context {ExecuteOptions : Type}.

Record Returns := mkReturns {
  Stdout : string;
  Stderr : string;
  ReturnsErr : option error }.

(** The fake. [Stub] is given as the function that it computes. *)
Record Executable := mkExecutable {
  CallCount : Z;
  ReceivesOptions : ExecuteOptions;
  ReceivesArgs : list string;
  ExecuteReturns : Returns;
  Stub : option (ExecuteOptions → list string → Returns) }.

Definition Execute (f : Executable) (param1 : ExecuteOptions) (param2 : list string)
    : Returns * Executable :=
  let f := mkExecutable (wrap64 (CallCount f + 1)) param1 param2
                        (ExecuteReturns f) (Stub f) in
  match Stub f with
  | Some stub => (stub param1 param2, f)
  | None => (ExecuteReturns f, f)
  end.

(** The fake run on a sequence of calls: what each call returned, and the
    fake as the last one left it. *)
Fixpoint ExecuteAll (f : Executable) (params : list (ExecuteOptions * list string))
    : list Returns * Executable :=
  match params with
  | [] => ([], f)
  | (param1, param2) :: params' =>
      let '(r, f') := Execute f param1 param2 in
      let '(rs, f'') := ExecuteAll f' params' in
      (r :: rs, f'')
  end.
End Executable.

End Fakes.

(** ** Vocabulary of the further properties *)

(** What a run leaves alone: the environment, the call log and the paths
    that [keep] holds of. *)
Definition leaves (keep : path → Prop) (w w' : World) : Prop :=
  CF_STACK w' = CF_STACK w ∧ calls w' = calls w ∧
  ∀ q, keep q → get q (disk w') = get q (disk w).

(** A computation that, whatever it returns, leaves those alone. *)
Definition keeps {A} (keep : path → Prop) (m : M A) : Prop :=
  ∀ w r w', m w = (r, w') → leaves keep w w'.

(** The paths outside the places that the layer migrator works on: the
    configuration of the layers directory, the deps directory, the durable
    cache and the [.cloudfoundry] directory of the application. *)
Definition offMigration (f : Finalizer) (q : path) : Prop :=
  apart (V3LayersDir f ++ ["config"]) q ∧
  apart (V2DepsDir f) q ∧
  apart (V2CacheDir f ++ ["cnb"]) q ∧
  apart (V2AppDir f ++ [".cloudfoundry"]) q.

(** The paths that neither lead to nor are a buildpack descriptor
    [V3BuildpacksDir/*/*/buildpack.toml]. *)
Definition offDescriptors (f : Finalizer) (q : path) : Prop :=
  ∀ a b, ¬ q `prefix_of` V3BuildpacksDir f ++ [a; b; "buildpack.toml"].

(** The writer of [writeFile]. *)
Definition fileWriter (c : content) (o : option node) : result errno (option node) :=
  match o with
  | Some (Dir _) => Err EISDIR
  | _ => Ok (Some (File c))
  end.

(** The record that stands where [d] stood after the overrides [es] were
    applied one after the other. *)
Definition overwriteAll (es : list ManifestEntry) (d : V3Dependency) : V3Dependency :=
  foldl (λ d e, overwrite (v2ToV3Dep e) d) d es.

(** The default versions as a map, the missing table being the empty one. *)
Definition defaults (dvs : option (gmap string tomlval)) : gmap string tomlval :=
  default ∅ dvs.

(** A layers directory with the configuration that the lifecycle wrote. *)
Definition configDisk : node :=
  Dir [("tmp", Dir [("app", Dir []); ("deps", Dir []); ("cache", Dir [])]);
       ("home", Dir [("vcap", Dir [("deps", Dir [
          ("config", Dir [("metadata.toml", File (Bytes "processes"))])])])])].

Definition configWorld : World := mkWorld configDisk "cflinuxfs3" [].

(** A supply step of the buildpack with index 2, after the buildpacks with
    indices 0 and 1 have left their order fragments. *)
Definition exSupplier : Supplier.t := {|
  Supplier.V2AppDir := ["tmp"; "app"];
  Supplier.V3AppDir := ["home"; "vcap"; "app"];
  Supplier.V2DepsDir := ["tmp"; "deps"];
  Supplier.V2CacheDir := ["tmp"; "cache"];
  Supplier.DepsIndex := "2";
  Supplier.V2BuildpackDir := ["tmp"; "buildpacks"; "lang-c"];
  Supplier.V3BuildpacksDir := ["home"; "vcap"; "cnbs"];
  Supplier.OrderDir := ["home"; "vcap"; "order"] |}.

Definition exOrder2 : order := mkOrder [mkGroup [ref "lang-c"]].

Definition supplyDisk : node :=
  Dir [("tmp", Dir [("app", Dir [("main.go", File (Bytes "package main"))]);
                    ("buildpacks", Dir [("lang-c", Dir [
                        ("order.toml", File (OrderTOML exOrder2))])]);
                    ("deps", Dir [("0", Dir []); ("1", Dir []);
                                  ("2", Dir [("stale", File (Bytes ""))])])]);
       ("home", Dir [("vcap", Dir [
          ("app", Dir [("old", File (Bytes ""))]);
          ("order", Dir [("order0.toml", File (OrderTOML exOrder0));
                         ("order1.toml", File (OrderTOML exOrder1))])])])].

Definition supplyWorld : World := mkWorld supplyDisk "cflinuxfs3" [].

(** * Properties *)

(** ** The monad *)

Lemma bind_run {A B} (m : M A) (k : A → M B) w :
  (m ≫= k) w = match m w with
               | (Ok a, w1) => k a w1
               | (Err e, w1) => (Err e, w1)
               end.
Proof. reflexivity. Qed.

Lemma bind_Ok {A B} (m : M A) (k : A → M B) w b w' :
  (m ≫= k) w = (Ok b, w') → ∃ a w1, m w = (Ok a, w1) ∧ k a w1 = (Ok b, w').
Proof.
  rewrite bind_run. destruct (m w) as [[a|e] w1]; [eauto | discriminate].
Qed.

Lemma syscall_Ok f mk w w' :
  syscall f mk w = (Ok (), w') → ∃ d, f (disk w) = Ok d ∧ w' = set_disk w d.
Proof.
  unfold syscall. destruct (f (disk w)) as [d|e]; [| discriminate].
  intros [= <-]. eauto.
Qed.

Lemma log_run c w : log c w = (Ok (), mkWorld (disk w) (CF_STACK w) (calls w ++ [c])).
Proof. reflexivity. Qed.

(** ** Directory entries *)

Section EntryLemmas.
Context {A : Type}.
Implicit Types (es : list (string * A)) (c : string).

Lemma assoc_set_entry_eq c (n : A) es : assoc c (set_entry c n es) = Some n.
Proof.
  induction es as [|[c' n'] es IH]; simpl.
  - by rewrite decide_True.
  - destruct (decide (c' = c)) as [->|Hne]; simpl.
    + by rewrite decide_True.
    + by rewrite decide_False.
Qed.

Lemma assoc_set_entry_ne c c' (n : A) es :
  c ≠ c' → assoc c' (set_entry c n es) = assoc c' es.
Proof.
  intros Hne. induction es as [|[c0 n0] es IH]; simpl.
  - by rewrite decide_False.
  - destruct (decide (c0 = c)) as [->|Hne0]; simpl.
    + by rewrite !decide_False.
    + destruct (decide (c0 = c')); [done | apply IH].
Qed.

Lemma assoc_del_entry_eq c es : assoc c (del_entry c es) = None.
Proof.
  induction es as [|[c0 n0] es IH]; simpl; [done|].
  destruct (decide (c0 = c)); simpl; [done|]. by rewrite decide_False.
Qed.

Lemma assoc_del_entry_ne c c' es :
  c ≠ c' → assoc c' (del_entry c es) = assoc c' es.
Proof.
  intros Hne. induction es as [|[c0 n0] es IH]; simpl; [done|].
  destruct (decide (c0 = c)) as [->|Hne0]; simpl.
  - by rewrite decide_False.
  - destruct (decide (c0 = c')); [done | apply IH].
Qed.

Lemma assoc_put_entry_eq c (o : option A) es : assoc c (put_entry c o es) = o.
Proof.
  destruct o; simpl; [apply assoc_set_entry_eq | apply assoc_del_entry_eq].
Qed.

Lemma assoc_put_entry_ne c c' (o : option A) es :
  c ≠ c' → assoc c' (put_entry c o es) = assoc c' es.
Proof.
  destruct o; simpl; [apply assoc_set_entry_ne | apply assoc_del_entry_ne].
Qed.

Lemma set_entry_id c (n : A) es : assoc c es = Some n → set_entry c n es = es.
Proof.
  induction es as [|[c0 n0] es IH]; simpl; [done|].
  destruct (decide (c0 = c)) as [->|Hne]; [by intros [= ->] |].
  intros H. by rewrite IH.
Qed.

Lemma assoc_Some_elem c (n : A) es : assoc c es = Some n → (c, n) ∈ es.
Proof.
  induction es as [|[c0 n0] es IH]; simpl; [done|].
  destruct (decide (c0 = c)) as [->|Hne].
  - intros [= ->]. left.
  - intros H. right. by apply IH.
Qed.

Lemma assoc_None_names c es : assoc c es = None ↔ c ∉ map fst es.
Proof.
  induction es as [|[c0 n0] es IH]; simpl.
  - split; [intros _; apply not_elem_of_nil | done].
  - destruct (decide (c0 = c)) as [->|Hne].
    + split; [done | intros H; exfalso; apply H; left].
    + rewrite IH, not_elem_of_cons. split; [intros H; by split | by intros [_ H]].
Qed.

Lemma assoc_NoDup_elem c (n : A) es :
  NoDup (map fst es) → (c, n) ∈ es → assoc c es = Some n.
Proof.
  induction es as [|[c0 n0] es IH]; simpl.
  - intros _ H. by apply elem_of_nil in H.
  - intros Hnd H. apply NoDup_cons in Hnd as [Hnotin Hnd].
    apply elem_of_cons in H as [[= -> ->]|H].
    + by rewrite decide_True.
    + destruct (decide (c0 = c)) as [->|Hne]; [| by apply IH].
      exfalso. apply Hnotin. apply list_elem_of_fmap. by exists (c, n).
Qed.
End EntryLemmas.

(** ** Paths *)

Lemma apart_sym p q : apart p q → apart q p.
Proof. intros [H1 H2]. by split. Qed.

Lemma apart_app_l r s q : apart r q → apart (r ++ s) q.
Proof.
  intros [H1 H2]. split.
  - intros H. apply H1. by eapply prefix_app_l.
  - intros [k Hk]. destruct (prefix_weak_total q r (r ++ s)) as [H|H];
      [by exists k | by apply prefix_app_r | done | done].
Qed.

Lemma apart_app_r r s q : apart q r → apart q (r ++ s).
Proof. intros H. apply apart_sym, apart_app_l, apart_sym, H. Qed.

Lemma apart_cons c p q : apart (c :: p) (c :: q) → apart p q.
Proof.
  intros [H1 H2]. split; intros H.
  - apply H1. by apply (prefix_app [c]).
  - apply H2. by apply (prefix_app [c]).
Qed.

Lemma apart_snoc_ne r (a b : string) : a ≠ b → apart (r ++ [a]) (r ++ [b]).
Proof.
  intros Hne. split; intros H; apply prefix_app_inv in H;
    destruct H as [k Hk]; simpl in Hk; congruence.
Qed.

(** ** Reading the tree *)

Lemma oget_Some p n : oget p (Some n) = get p n.
Proof. reflexivity. Qed.

Lemma oget_nil o : oget [] o = o.
Proof. by destruct o. Qed.

Lemma get_cons_Dir c p es : get (c :: p) (Dir es) = oget p (assoc c es).
Proof. simpl. by destruct (assoc c es). Qed.

Lemma get_app p q n : get (p ++ q) n = oget q (get p n).
Proof.
  revert n. induction p as [|c p IH]; intros n; simpl; [done|].
  destruct n as [?|es]; [done|]. destruct (assoc c es); [apply IH | done].
Qed.

Lemma oget_app p q o : oget (p ++ q) o = oget q (oget p o).
Proof. destruct o; [apply get_app | done]. Qed.

Lemma oget_None p : oget p None = None.
Proof. reflexivity. Qed.

Lemma walk_Ok_get p n m : walk p n = Ok m ↔ get p n = Some m.
Proof.
  revert n. induction p as [|c p IH]; intros n; simpl.
  - split; intros; simplify_eq; done.
  - destruct n as [?|es]; [split; discriminate|].
    destruct (assoc c es); [apply IH | split; discriminate].
Qed.

Lemma walk_Err_get p n e : walk p n = Err e → get p n = None.
Proof.
  revert n. induction p as [|c p IH]; intros n; simpl; [discriminate|].
  destruct n as [?|es]; [done|]. destruct (assoc c es); [apply IH | done].
Qed.

Lemma get_None_walk p n : get p n = None → ∃ e, walk p n = Err e.
Proof.
  intros Hg. destruct (walk p n) as [m|e] eqn:Hw; [| eauto].
  apply walk_Ok_get in Hw. congruence.
Qed.

(** A missing component below a directory is reported as [ENOENT]. *)
Lemma walk_missing_child p c n es :
  get p n = Some (Dir es) → assoc c es = None → walk (p ++ [c]) n = Err ENOENT.
Proof.
  revert n. induction p as [|c0 p IH]; intros n; simpl.
  - intros [= ->] ->. done.
  - destruct n as [?|es0]; [done|]. destruct (assoc c0 es0); [apply IH | done].
Qed.

(** ** Rewriting the tree *)

Lemma upd_get f p o o' :
  upd f p o = Ok o' →
  ∃ r, f (oget p o) = Ok r ∧ ∀ s, oget (p ++ s) o' = oget s r.
Proof.
  revert o o'. induction p as [|c p IH]; intros o o'; simpl.
  - intros Hf. exists o'. rewrite oget_nil. done.
  - destruct o as [[?|es]|]; [discriminate| |discriminate].
    destruct (upd f p (assoc c es)) as [o1|] eqn:Hu; [|discriminate].
    intros [= <-]. apply IH in Hu as (r & Hr & Hs).
    exists r. split.
    + simpl. by destruct (assoc c es).
    + intros s. simpl. rewrite assoc_put_entry_eq.
      specialize (Hs s). by destruct o1.
Qed.

Lemma upd_get_apart f p o o' q :
  upd f p o = Ok o' → apart p q → oget q o' = oget q o.
Proof.
  revert o o' q. induction p as [|c p IH]; intros o o' q; simpl.
  - intros _ [H _]. exfalso. apply H, prefix_nil.
  - destruct o as [[?|es]|]; [discriminate| |discriminate].
    destruct (upd f p (assoc c es)) as [o1|] eqn:Hu; [|discriminate].
    intros [= <-] Hap. destruct q as [|c' q].
    { exfalso. apply Hap, prefix_nil. }
    simpl. destruct (decide (c = c')) as [<-|Hne].
    + rewrite assoc_put_entry_eq. apply apart_cons in Hap.
      specialize (IH _ _ _ Hu Hap).
      destruct o1, (assoc c es); simpl in *; done.
    + by rewrite assoc_put_entry_ne.
Qed.

Lemma upd_root_get f p root root' :
  upd_root f p root = Ok root' →
  ∃ r, f (get p root) = Ok r ∧ ∀ s, get (p ++ s) root' = oget s r.
Proof.
  unfold upd_root. destruct (upd f p (Some root)) as [[n|]|] eqn:Hu; try discriminate.
  intros [= <-]. apply upd_get in Hu as (r & Hr & Hs). eauto.
Qed.

Lemma upd_root_get_apart f p root root' q :
  upd_root f p root = Ok root' → apart p q → get q root' = get q root.
Proof.
  unfold upd_root. destruct (upd f p (Some root)) as [[n|]|] eqn:Hu; try discriminate.
  intros [= <-] Hap. by apply (upd_get_apart _ _ _ _ q) in Hu.
Qed.

(** What lies strictly below a path that held no directory is not there
    before, and is not there after a file was written at the path. *)
Lemma get_below_not_dir p s n :
  s ≠ [] → (∀ es, get p n ≠ Some (Dir es)) → get (p ++ s) n = None.
Proof.
  intros Hs Hnd. rewrite get_app. destruct (get p n) as [[c|es]|]; simpl.
  - by destruct s.
  - by destruct (Hnd es).
  - done.
Qed.

Lemma upd_ok f dir name o es r :
  oget dir o = Some (Dir es) → f (assoc name es) = Ok r →
  ∃ o', upd f (dir ++ [name]) o = Ok (Some o').
Proof.
  revert o. induction dir as [|c dir IH]; intros o; simpl.
  - rewrite oget_nil. intros -> Hf. simpl. rewrite Hf. eauto.
  - destruct o as [[?|es0]|]; simpl; [done| |done].
    intros Hg Hf. destruct (assoc c es0) as [n|] eqn:Ha; [|done].
    destruct (IH (Some n) Hg Hf) as [o' ->]. eauto.
Qed.

Lemma upd_root_ok f dir name root es r :
  get dir root = Some (Dir es) → f (assoc name es) = Ok r →
  ∃ root', upd_root f (dir ++ [name]) root = Ok root'.
Proof.
  intros Hg Hf. unfold upd_root.
  destruct (upd_ok f dir name (Some root) es r Hg Hf) as [o' ->]. eauto.
Qed.

Lemma get_child dir name root es :
  get dir root = Some (Dir es) → get (dir ++ [name]) root = assoc name es.
Proof. intros Hg. rewrite get_app, Hg. simpl. by destruct (assoc name es). Qed.

(** *** [writeFile] *)

Lemma writeFile_get p c d d' : writeFile p c d = Ok d' → get p d' = Some (File c).
Proof.
  intros H. apply upd_root_get in H as (r & Hr & Hs).
  specialize (Hs []). rewrite app_nil_r, oget_nil in Hs. rewrite Hs.
  destruct (get p d) as [[?|?]|]; by simplify_eq.
Qed.

Lemma writeFile_get_apart p c d d' q :
  writeFile p c d = Ok d' → apart p q → get q d' = get q d.
Proof. apply upd_root_get_apart. Qed.

Lemma writeFile_not_dir p c d d' es : writeFile p c d = Ok d' → get p d ≠ Some (Dir es).
Proof.
  intros H Hg. apply upd_root_get in H as (r & Hr & _). rewrite Hg in Hr. discriminate.
Qed.

Lemma writeFile_get_below p c d d' s :
  writeFile p c d = Ok d' → s ≠ [] → get (p ++ s) d' = get (p ++ s) d.
Proof.
  intros H Hs. pose proof (writeFile_get _ _ _ _ H) as Hp.
  rewrite !get_app, Hp. simpl. destruct s; [done|]. simpl.
  destruct (get p d) as [[?|es]|] eqn:Hg; simpl; try done.
  by destruct (writeFile_not_dir _ _ _ _ es H).
Qed.

(** Writing a file changes nothing but the file itself. *)
Lemma writeFile_get_other p c d d' q :
  writeFile p c d = Ok d' → ¬ q `prefix_of` p → get q d' = get q d.
Proof.
  intros H Hq. destruct (decide (p `prefix_of` q)) as [[s ->]|Hp].
  - apply (writeFile_get_below _ _ _ _ s H). intros ->.
    apply Hq. rewrite app_nil_r. done.
  - by apply (writeFile_get_apart _ _ _ _ q H).
Qed.

Lemma writeFile_ok dir name c root es :
  get dir root = Some (Dir es) →
  (∀ es', assoc name es ≠ Some (Dir es')) →
  ∃ root', writeFile (dir ++ [name]) c root = Ok root'.
Proof.
  intros Hg Hnd. unfold writeFile. eapply upd_root_ok; [done|].
  destruct (assoc name es) as [[?|es']|] eqn:Ha; [done| |done].
  by destruct (Hnd es').
Qed.

(** *** [put] and [del] *)

Lemma put_get p n d d' s : put p n d = Ok d' → get (p ++ s) d' = get s n.
Proof.
  intros H. apply upd_root_get in H as (r & [= <-] & Hs). apply Hs.
Qed.

Lemma put_get_apart p n d d' q : put p n d = Ok d' → apart p q → get q d' = get q d.
Proof. apply upd_root_get_apart. Qed.

Lemma del_get p d d' s : del p d = Ok d' → get (p ++ s) d' = None.
Proof.
  intros H. apply upd_root_get in H as (r & [= <-] & Hs). apply Hs.
Qed.

Lemma del_get_apart p d d' q : del p d = Ok d' → apart p q → get q d' = get q d.
Proof. apply upd_root_get_apart. Qed.

(** *** [removeAll] *)

Lemma removeAll_get_apart p d d' q :
  removeAll p d = Ok d' → apart p q → get q d' = get q d.
Proof.
  unfold removeAll. destruct (walk p d) as [n|[]] eqn:Hw; try discriminate.
  - by apply del_get_apart.
  - by intros [= ->].
Qed.

Lemma removeAll_get p d d' s : removeAll p d = Ok d' → get (p ++ s) d' = None.
Proof.
  unfold removeAll. destruct (walk p d) as [n|[]] eqn:Hw; try discriminate.
  - by apply del_get.
  - intros [= <-]. apply walk_Err_get in Hw. by rewrite get_app, Hw.
Qed.

(** *** [rename] *)

Lemma rename_Ok old new d d' :
  rename old new d = Ok d' →
  ∃ n, get old d = Some n ∧
       ((old = new ∧ d' = d) ∨
        (apart old new ∧ ∃ d1, del old d = Ok d1 ∧ put new n d1 = Ok d')).
Proof.
  unfold rename.
  destruct (walk old d) as [n|e] eqn:Ho.
  2:{ destruct (walk new d) as [[?|?]|]; discriminate. }
  apply walk_Ok_get in Ho. intros H. exists n. split; [done|].
  destruct (walk new d) as [[c|es]|e] eqn:Hn; [| discriminate |].
  - destruct (decide (old = new)) as [->|Hne]; [left; by simplify_eq|].
    destruct (decide (old `prefix_of` new)) as [|Hpre]; [discriminate|].
    right. split.
    + split; [done|]. intros [k Hk]. subst old.
      apply walk_Ok_get in Hn. rewrite get_app, Hn in Ho.
      destruct k; [by rewrite app_nil_r in Hne | discriminate].
    + destruct n; [| discriminate].
      destruct (del old d) as [d1|]; [eauto | discriminate].
  - destruct (decide (old = new)) as [->|Hne]; [left; by simplify_eq|].
    destruct (decide (old `prefix_of` new)) as [|Hpre]; [discriminate|].
    right. split.
    + split; [done|]. intros [k Hk]. subst old.
      apply walk_Err_get in Hn. rewrite get_app, Hn in Ho. discriminate.
    + destruct (del old d) as [d1|]; [| destruct n; discriminate].
      exists d1. split; [done|]. by destruct n.
Qed.

(** After a rename to another name the tree stands at the new name and
    nothing is left at the old one; paths apart from both are untouched. *)
Lemma rename_moves old new d d' :
  rename old new d = Ok d' → old ≠ new →
  apart old new ∧
  (∀ s, get (new ++ s) d' = get (old ++ s) d) ∧
  (∀ s, get (old ++ s) d' = None) ∧
  (∀ q, apart old q → apart new q → get q d' = get q d).
Proof.
  intros H Hne. apply rename_Ok in H as (n & Hn & [[-> _]|[Hap (d1 & Hdel & Hput)]]);
    [done|].
  split; [done|]. split; [|split].
  - intros s. rewrite (put_get _ _ _ _ s Hput), get_app, Hn. done.
  - intros s. rewrite (put_get_apart _ _ _ _ (old ++ s) Hput).
    + exact (del_get _ _ _ s Hdel).
    + apply apart_app_r, apart_sym, Hap.
  - intros q Ho Hq. rewrite (put_get_apart _ _ _ _ q Hput Hq).
    by apply (del_get_apart _ _ _ q Hdel).
Qed.

Lemma rename_get_apart old new d d' q :
  rename old new d = Ok d' → apart old q → apart new q → get q d' = get q d.
Proof.
  intros H Ho Hq. destruct (decide (old = new)) as [->|Hne].
  - apply rename_Ok in H as (n & _ & [[_ ->]|[[Hap _] _]]); [done|].
    by destruct Hap.
  - by apply (rename_moves _ _ _ _ H Hne).
Qed.

(** ** Decimal texts and suffixes *)

Lemma digits_acc d acc :
  digits (Zpos acc) (NilEmpty.string_of_uint d) = Some (Zpos (Pos.of_uint_acc d acc)).
Proof.
  revert acc. induction d; intros acc; simpl; [done|..];
    rewrite <- IHd; f_equal;
    match goal with |- context [Z.of_nat (nat_of_ascii ?a)] =>
      let t := eval vm_compute in (Z.of_nat (nat_of_ascii a)) in
      change (Z.of_nat (nat_of_ascii a)) with t
    end; lia.
Qed.

Lemma digits_0 d :
  digits 0 (NilEmpty.string_of_uint d) = Some (Z.of_N (Pos.of_uint d)).
Proof.
  induction d; simpl; [done | apply IHd | ..]; apply digits_acc.
Qed.

Lemma string_length_app a b :
  String.length (a +:+ b) = String.length a + String.length b.
Proof. induction a as [|x a IH]; simpl; [done | by rewrite IH]. Qed.

Lemma string_app_inj_r a b suf : a +:+ suf = b +:+ suf → a = b.
Proof.
  revert b. induction a as [|x a IH]; intros [|y b] H; simpl in *.
  - done.
  - apply (f_equal String.length) in H.
    rewrite !string_length_app in H. simpl in H. lia.
  - apply (f_equal String.length) in H.
    rewrite !string_length_app in H. simpl in H. lia.
  - injection H as -> H. f_equal. by apply IH.
Qed.

Lemma strip_suffix_app suf stem : strip_suffix suf (stem +:+ suf) = Some stem.
Proof.
  induction stem as [|x stem IH].
  - change ("" +:+ suf) with suf. destruct suf; cbn [strip_suffix]; by rewrite decide_True.
  - change (String x stem +:+ suf) with (String x (stem +:+ suf)).
    cbn [strip_suffix]. rewrite decide_False.
    + by rewrite IH.
    + intros H. apply (f_equal String.length) in H. simpl in H.
      rewrite !string_length_app in H. lia.
Qed.

(** ** Order merger *)

Lemma DecodeFile_order_run file w :
  DecodeFile_order file w =
    match get file (disk w) with
    | Some (File (OrderTOML o)) => (Ok o, w)
    | Some (File _) => (Err (DecodeError file), w)
    | Some (Dir _) => (Err (PathError "read" file EISDIR), w)
    | None => match walk file (disk w) with
              | Err e => (Err (PathError "open" file e), w)
              | Ok _ => (Err (DecodeError file), w)
              end
    end.
Proof.
  unfold DecodeFile_order, decode. rewrite bind_run. unfold ioutil_ReadFile.
  destruct (walk file (disk w)) as [n|e] eqn:Hw.
  - apply walk_Ok_get in Hw. rewrite Hw. by destruct n as [[]|].
  - apply walk_Err_get in Hw. by rewrite Hw.
Qed.

Lemma parseOrderTOMLs_from_result acc files w :
  match parseOrderTOMLs_from acc files w with
  | (Ok orders, w') => w' = w ∧ length orders = length acc + length files
  | (Err e, _) => e ≠ ErrNoFragmentsFound
  end.
Proof.
  revert acc. induction files as [|file files IH]; intros acc; simpl.
  - split; [done | lia].
  - rewrite bind_run, DecodeFile_order_run.
    destruct (get file (disk w)) as [[[]|]|]; try done.
    + specialize (IH (acc ++ [o])).
      destruct (parseOrderTOMLs_from (acc ++ [o]) files w) as [[orders|e] w']; [|done].
      destruct IH as [-> IH]. split; [done|]. rewrite length_app in IH. simpl in IH. lia.
    + by destruct (walk file (disk w)).
Qed.

Lemma parseOrderTOMLs_from_Ok acc files orders w :
  Forall2 (λ file o, get file (disk w) = Some (File (OrderTOML o))) files orders →
  parseOrderTOMLs_from acc files w = (Ok (acc ++ orders), w).
Proof.
  intros H. revert acc. induction H as [|file o files orders Hf _ IH]; intros acc; simpl.
  - by rewrite app_nil_r.
  - rewrite bind_run, DecodeFile_order_run, Hf. rewrite IH.
    by rewrite <- app_assoc.
Qed.

Lemma combineOrders_Groups orders :
  Groups (combineOrders orders) = concat (map Groups orders).
Proof.
  unfold combineOrders.
  enough (H : ∀ acc, Groups (foldl (λ combined o, mkOrder (Groups combined ++ Groups o))
                                acc orders) = Groups acc ++ concat (map Groups orders))
    by apply (H (mkOrder [])).
  induction orders as [|o orders IH]; intros acc; simpl.
  - by rewrite app_nil_r.
  - rewrite IH. simpl. by rewrite app_assoc.
Qed.

Lemma encodeTOML_Ok dest data w w' :
  encodeTOML dest data w = (Ok (), w') →
  ∃ d, writeFile dest data (disk w) = Ok d ∧ w' = set_disk w d.
Proof. apply syscall_Ok. Qed.

(** *** Discovery, lowest index first *)

Lemma digits_Itoa (i : nat) :
  ∃ a index, Itoa (Z.of_nat i) = String a index ∧
             digits 0 (String a index) = Some (Z.of_nat i).
Proof.
  unfold Itoa. destruct (Z.of_nat i) as [|p|p] eqn:Hz; [by exists "0"%char, ""| |lia].
  simpl. pose proof (DecimalPos.Unsigned.to_uint_nonnil p) as Hnn.
  pose proof (digits_0 (Pos.to_uint p)) as Hd.
  rewrite DecimalPos.Unsigned.of_to in Hd. simpl in Hd.
  unfold NilZero.string_of_uint.
  destruct (Pos.to_uint p) as [|d|d|d|d|d|d|d|d|d|d] eqn:Hu; [done|..];
    eexists _, _; (split; [reflexivity | exact Hd]).
Qed.

Lemma fragmentIndex_orderName (i : nat) : fragmentIndex (orderName i) = Some (Z.of_nat i).
Proof.
  unfold orderName.
  change (fragmentIndex ("order" +:+ Itoa (Z.of_nat i) +:+ ".toml"))
    with (match strip_suffix ".toml" (Itoa (Z.of_nat i) +:+ ".toml") with
          | Some (String a index) => digits 0 (String a index)
          | _ => None
          end).
  rewrite strip_suffix_app. by destruct (digits_Itoa i) as (a & index & -> & ->).
Qed.

Global Instance lowerIndex_trans : Transitive lowerIndex.
Proof.
  intros a b c. unfold lowerIndex.
  destruct (fragmentIndex a), (fragmentIndex b), (fragmentIndex c); try done. lia.
Qed.

Global Instance lowerIndex_total : Total lowerIndex.
Proof.
  intros a b. unfold lowerIndex.
  destruct (fragmentIndex a), (fragmentIndex b); try tauto. lia.
Qed.

Lemma lowerIndex_orderName i j : lowerIndex (orderName i) (orderName j) ↔ i ≤ j.
Proof. unfold lowerIndex. rewrite !fragmentIndex_orderName. lia. Qed.

(** A directory that holds one fragment for each of the indices, in
    whatever order, is discovered lowest index first. *)
Lemma merge_sort_orderName (names : list string) (indices : list nat) :
  StronglySorted lt indices →
  names ≡ₚ map orderName indices →
  merge_sort lowerIndex names = map orderName indices.
Proof.
  intros Hs Hp. apply (StronglySorted_unique_strong lowerIndex).
  - intros x1 x2 H1 H2 H12 H21.
    rewrite merge_sort_Permutation, Hp in H1.
    apply list_elem_of_fmap in H1 as (i & -> & _).
    apply list_elem_of_fmap in H2 as (j & -> & _).
    apply lowerIndex_orderName in H12, H21. f_equal. lia.
  - apply StronglySorted_merge_sort; apply _.
  - clear Hp. induction Hs as [|i indices _ IH Hi]; simpl; constructor; [done|].
    apply Forall_fmap. eapply Forall_impl; [done|]. simpl.
    intros j Hj. apply lowerIndex_orderName. lia.
  - by rewrite merge_sort_Permutation.
Qed.

(** C1. On every disk whose order directory holds one fragment for each
    of a non-empty set of legacy buildpack indices, stored in whatever
    order, each fragment decodable, and whose metadata directory exists,
    [MergeOrderTOMLs] succeeds: it discovers the fragments in the
    execution order of the legacy buildpacks, lowest index first, and
    leaves in the order metadata file one Order whose groups are the groups
    of all fragments: each fragment's groups in their own order, fragment
    after fragment by ascending index, none dropped. *)
Theorem MergeOrderTOMLs_complete (f : Finalizer) (w : World)
    (fragments : list (nat * order)) (stored : entries)
    (dir : path) (name : string) (es : entries) :
  fragments ≠ [] →
  StronglySorted lt (map fst fragments) →
  get (OrderDir f) (disk w) = Some (Dir stored) →
  map fst stored ≡ₚ map (λ fr, orderName fr.1) fragments →
  Forall (λ fr, get (OrderDir f ++ [orderName fr.1]) (disk w)
                  = Some (File (OrderTOML fr.2))) fragments →
  OrderMetadata f = dir ++ [name] →
  get dir (disk w) = Some (Dir es) →
  (∀ es', assoc name es ≠ Some (Dir es')) →
  ∃ w' merged,
    MergeOrderTOMLs f w = (Ok (), w') ∧
    fragmentFiles f (disk w) = map (λ fr, OrderDir f ++ [orderName fr.1]) fragments ∧
    get (OrderMetadata f) (disk w') = Some (File (OrderTOML merged)) ∧
    Groups merged = concat (map (λ fr, Groups fr.2) fragments) ∧
    ∀ k i o, fragments !! k = Some (i, o) →
      Groups merged = concat (map (λ fr, Groups fr.2) (take k fragments)) ++ Groups o
                      ++ concat (map (λ fr, Groups fr.2) (drop (S k) fragments)).
Proof.
  intros Hne Hsorted Hstored Hperm Hdec Hpath Hdir Hnd.
  set (orders := map snd fragments).
  assert (Hfiles : fragmentFiles f (disk w)
                   = map (λ fr, OrderDir f ++ [orderName fr.1]) fragments).
  { unfold fragmentFiles, discover. rewrite Hstored.
    rewrite (merge_sort_orderName _ (map fst fragments)).
    - by rewrite !map_map.
    - done.
    - by rewrite Hperm, map_map. }
  assert (Hall : Forall2 (λ file o, get file (disk w) = Some (File (OrderTOML o)))
                   (fragmentFiles f (disk w)) orders).
  { rewrite Hfiles. unfold orders. apply Forall2_fmap, Forall_Forall2_diag.
    eapply Forall_impl; [done|]. by intros [i o]. }
  assert (Hgroups : map Groups orders = map (λ fr, Groups fr.2) fragments)
    by (unfold orders; by rewrite map_map).
  destruct (writeFile_ok dir name (OrderTOML (combineOrders orders)) (disk w) es Hdir Hnd)
    as [d' Hw].
  exists (set_disk w d'), (combineOrders orders).
  split; [|split; [done|split; [|split]]].
  - unfold MergeOrderTOMLs, parseOrderTOMLs. rewrite !bind_run.
    fold (fragmentFiles f (disk w)).
    rewrite (parseOrderTOMLs_from_Ok [] _ orders w Hall). simpl.
    destruct (decide (length orders = 0)) as [Hlen|_].
    + apply length_zero_iff_nil in Hlen. unfold orders in Hlen.
      by apply fmap_nil_inv in Hlen.
    + unfold encodeTOML, syscall. rewrite Hpath, Hw. done.
  - simpl. rewrite Hpath. by apply writeFile_get in Hw.
  - by rewrite combineOrders_Groups, Hgroups.
  - intros k i o Hk. rewrite combineOrders_Groups, Hgroups.
    rewrite <- (take_drop_middle fragments k (i, o) Hk) at 1.
    rewrite map_app, concat_app. simpl. done.
Qed.

Lemma MergeOrderTOMLs_complete_witness :
  ∃ w' merged,
    MergeOrderTOMLs exFinalizer shuffledWorld = (Ok (), w') ∧
    fragmentFiles exFinalizer (disk shuffledWorld)
      = map (λ fr, OrderDir exFinalizer ++ [orderName fr.1])
            [(0, exOrder0); (2, exOrder2'); (10, exOrder10)] ∧
    get (OrderMetadata exFinalizer) (disk w') = Some (File (OrderTOML merged)) ∧
    Groups merged
      = concat (map (λ fr, Groups fr.2) [(0, exOrder0); (2, exOrder2'); (10, exOrder10)]) ∧
    ∀ k i o, [(0, exOrder0); (2, exOrder2'); (10, exOrder10)] !! k = Some (i, o) →
      Groups merged
        = concat (map (λ fr, Groups fr.2)
                      (take k [(0, exOrder0); (2, exOrder2'); (10, exOrder10)]))
          ++ Groups o
          ++ concat (map (λ fr, Groups fr.2)
                         (drop (S k) [(0, exOrder0); (2, exOrder2'); (10, exOrder10)])).
Proof.
  apply (MergeOrderTOMLs_complete exFinalizer shuffledWorld
           [(0, exOrder0); (2, exOrder2'); (10, exOrder10)]
           [("order10.toml", File (OrderTOML exOrder10));
            ("order2.toml", File (OrderTOML exOrder2'));
            ("order0.toml", File (OrderTOML exOrder0))]
           ["home"; "vcap"; "metadata"] "order.toml" []).
  - discriminate.
  - simpl. repeat (constructor; [|repeat constructor; lia]). constructor.
  - reflexivity.
  - vm_compute. apply (reverse_Permutation ["order0.toml"; "order2.toml"; "order10.toml"]).
  - repeat constructor.
  - reflexivity.
  - reflexivity.
  - intros es'. discriminate.
Defined.

(** C2. [MergeOrderTOMLs] returns the error for missing fragments exactly
    when discovery finds no fragment in the order directory. *)
Theorem MergeOrderTOMLs_NoFragmentsFound_iff (f : Finalizer) (w : World) :
  fst (MergeOrderTOMLs f w) = Err ErrNoFragmentsFound ↔ fragmentFiles f (disk w) = [].
Proof.
  unfold MergeOrderTOMLs, parseOrderTOMLs. rewrite !bind_run.
  fold (fragmentFiles f (disk w)).
  pose proof (parseOrderTOMLs_from_result [] (fragmentFiles f (disk w)) w) as H.
  destruct (parseOrderTOMLs_from [] (fragmentFiles f (disk w)) w)
    as [[orders|e] w1] eqn:Hp.
  - destruct H as [-> Hlen]. simpl in Hlen.
    destruct (decide (length orders = 0)) as [H0|H0]; simpl.
    + split; [intros _|done]. apply length_zero_iff_nil. lia.
    + split.
      * unfold encodeTOML, syscall.
        destruct (writeFile _ _ _); simpl; discriminate.
      * intros Hnil. rewrite Hnil in Hlen. simpl in Hlen. lia.
  - simpl. split; [intros [= ->]; done|].
    intros Hnil. rewrite Hnil in Hp. discriminate.
Qed.

(** ** Conditional detection *)

Lemma attempt_Stat_run p w :
  attempt (os_Stat p) w =
    (Ok (match walk p (disk w) with
         | Ok n => Ok n
         | Err e => Err (PathError "stat" p e)
         end), w).
Proof. unfold attempt, os_Stat. by destruct (walk p (disk w)). Qed.

Lemma notExist_Stat p d :
  notExist (match walk p d with
            | Ok n => Ok n
            | Err e => Err (PathError "stat" p e)
            end) = absent p d.
Proof. unfold absent. by destruct (walk p d) as [|[]]. Qed.

Lemma RunLifecycleDetect_run f w :
  RunLifecycleDetect f w =
    (fst (Detector f (disk w)),
     mkWorld (snd (Detector f (disk w))) (CF_STACK w) (calls w ++ [CallRunLifecycleDetect])).
Proof.
  unfold RunLifecycleDetect. rewrite bind_run, log_run. unfold external. simpl.
  by destruct (Detector f (disk w)).
Qed.

Lemma RunV3Detect_run f w :
  RunV3Detect f w =
    if absent (GroupMetadata f) (disk w) || absent (PlanMetadata f) (disk w)
    then RunLifecycleDetect f w else (Ok (), w).
Proof.
  unfold RunV3Detect. rewrite bind_run, attempt_Stat_run, bind_run, attempt_Stat_run.
  rewrite !notExist_Stat.
  by destruct (absent (GroupMetadata f) (disk w) || absent (PlanMetadata f) (disk w)).
Qed.

Lemma absent_get p d : absent p d = true → get p d = None.
Proof.
  unfold absent. destruct (walk p d) as [|e] eqn:Hw; [done|].
  intros _. by apply walk_Err_get in Hw.
Qed.

(** C8. [RunV3Detect] invokes the detector exactly when [os.Stat] reports
    the group metadata file or the plan metadata file as not existing, and
    then returns what the detector returns; otherwise, and in particular
    when both files exist, it returns success and leaves the world as it
    was, the detector not invoked. *)
Theorem RunV3Detect_conditional (f : Finalizer) (w : World) :
  let needed := absent (GroupMetadata f) (disk w) || absent (PlanMetadata f) (disk w) in
  let r := RunV3Detect f w in
  (detector_invoked w (snd r) ↔ needed = true) ∧
  (needed = true →
     fst r = fst (Detector f (disk w)) ∧ disk (snd r) = snd (Detector f (disk w))) ∧
  (needed = false → r = (Ok (), w)) ∧
  (is_Some (get (GroupMetadata f) (disk w)) →
   is_Some (get (PlanMetadata f) (disk w)) → r = (Ok (), w)).
Proof.
  intros needed r. subst r. rewrite RunV3Detect_run. fold needed.
  assert (Hno : ¬ detector_invoked w w).
  { unfold detector_invoked. intros H. apply (f_equal length) in H.
    rewrite length_app in H. simpl in H. lia. }
  split; [|split; [|split]].
  - destruct needed; simpl.
    + rewrite RunLifecycleDetect_run. split; [done|]. intros _. reflexivity.
    + split; [intros H; by destruct Hno | discriminate].
  - intros ->. rewrite RunLifecycleDetect_run. done.
  - by intros ->.
  - intros [ng Hg] [np Hp].
    assert (needed = false) as ->; [|done].
    subst needed. apply orb_false_intro.
    + destruct (absent (GroupMetadata f) (disk w)) eqn:Ha; [|done].
      apply absent_get in Ha. congruence.
    + destruct (absent (PlanMetadata f) (disk w)) eqn:Ha; [|done].
      apply absent_get in Ha. congruence.
Qed.

(** ** Renaming the environment directory *)

Lemma os_Rename_attempt_run old new w :
  attempt (os_Rename old new) w =
    match rename old new (disk w) with
    | Ok d => (Ok (Ok ()), set_disk w d)
    | Err e => (Ok (Err (LinkError "rename" old new e)), w)
    end.
Proof. unfold attempt, os_Rename, syscall. by destruct (rename old new (disk w)). Qed.

Lemma RenameEnvDir_run f dst w :
  let logged d := mkWorld d (CF_STACK w) (calls w ++ [CallRenameEnvDir dst]) in
  RenameEnvDir f dst w =
    match rename (dst ++ ["env"]) (dst ++ ["env.build"]) (disk w) with
    | Ok d => (Ok (), logged d)
    | Err ENOENT => (Ok (), logged (disk w))
    | Err e => (Err (LinkError "rename" (dst ++ ["env"]) (dst ++ ["env.build"]) e),
                logged (disk w))
    end.
Proof.
  unfold RenameEnvDir. rewrite bind_run, log_run, bind_run, os_Rename_attempt_run.
  simpl. by destruct (rename _ _ (disk w)) as [d|[]].
Qed.

Lemma rename_absent old new d : absent old d = true → rename old new d = Err ENOENT.
Proof.
  unfold absent, rename. destruct (walk old d) as [|[]]; try done.
  intros _. by destruct (walk new d) as [[]|].
Qed.

Lemma upd_parent f dir name o es r :
  oget dir o = Some (Dir es) → f (assoc name es) = Ok r →
  ∃ o', upd f (dir ++ [name]) o = Ok (Some o') ∧
        get dir o' = Some (Dir (put_entry name r es)).
Proof.
  revert o. induction dir as [|c dir IH]; intros o; simpl.
  - rewrite oget_nil. intros -> Hf. simpl. rewrite Hf. eauto.
  - destruct o as [[?|es0]|]; simpl; [done| |done].
    intros Hg Hf. destruct (assoc c es0) as [n|] eqn:Ha; [|done].
    destruct (IH (Some n) Hg Hf) as (o' & -> & Hg'). eexists. split; [done|].
    simpl. by rewrite assoc_set_entry_eq.
Qed.

Lemma upd_root_parent f dir name root es r :
  get dir root = Some (Dir es) → f (assoc name es) = Ok r →
  ∃ root', upd_root f (dir ++ [name]) root = Ok root' ∧
           get dir root' = Some (Dir (put_entry name r es)).
Proof.
  intros Hg Hf. unfold upd_root.
  destruct (upd_parent f dir name (Some root) es r Hg Hf) as (o' & -> & Hg'). eauto.
Qed.

Lemma rename_unfold old new d n :
  walk old d = Ok n → old ≠ new → ¬ old `prefix_of` new →
  rename old new d =
    match walk new d, n with
    | Ok (Dir _), _ => Err EEXIST
    | Ok (File _), Dir _ => Err ENOTDIR
    | _, _ => match del old d with
              | Ok root1 => put new n root1
              | Err e => Err e
              end
    end.
Proof.
  intros Ho Hne Hpre. unfold rename. rewrite Ho.
  destruct (walk new d) as [[?|?]|]; try done;
    destruct (decide (old = new)); try done;
    destruct (decide (old `prefix_of` new)); try done;
    by destruct n.
Qed.

(** A rename inside one directory, of a name that exists: it succeeds
    when the new name does not exist, and it never fails for
    non-existence. *)
Lemma rename_sibling dir a b root n :
  a ≠ b → get (dir ++ [a]) root = Some n →
  rename (dir ++ [a]) (dir ++ [b]) root ≠ Err ENOENT ∧
  (get (dir ++ [b]) root = None →
   ∃ root', rename (dir ++ [a]) (dir ++ [b]) root = Ok root').
Proof.
  intros Hab Ha.
  assert (∃ es, get dir root = Some (Dir es)) as [es Hdir].
  { rewrite get_app in Ha. destruct (get dir root) as [[?|es]|]; [done|eauto|done]. }
  destruct (upd_root_parent (λ _, Ok None) dir a root es None Hdir eq_refl)
    as (d1 & Hdel & Hdir1).
  destruct (upd_root_ok (λ _, Ok (Some n)) dir b d1 _ (Some n) Hdir1 eq_refl) as [d2 Hput].
  assert (Hmove : match del (dir ++ [a]) root with
                  | Ok root1 => put (dir ++ [b]) n root1
                  | Err e => Err e
                  end = Ok d2).
  { unfold del. rewrite Hdel. apply Hput. }
  rewrite (rename_unfold _ _ _ n).
  - rewrite Hmove. split.
    + destruct (walk (dir ++ [b]) root) as [[?|?]|]; destruct n; done.
    + intros Hb. rewrite (get_child _ _ _ _ Hdir) in Hb.
      rewrite (walk_missing_child dir b root es Hdir Hb). destruct n; eauto.
  - by apply walk_Ok_get.
  - intros H; apply app_inv_head in H; congruence.
  - intros H. apply prefix_app_inv in H. destruct H as [k Hk]. simpl in Hk. congruence.
Qed.

(** C10. [RenameEnvDir] on a layer without an [env] entry returns no error
    and leaves the disk as it was; an error it returns is the error of the
    rename and never one of non-existence; when [env] exists and the call
    succeeds, what stood at [env] stands at [env.build], [env] is gone and
    the paths apart from both are untouched; and the call does succeed
    when [env] exists and [env.build] does not. *)
Theorem RenameEnvDir_spec (f : Finalizer) (dst : path) (w : World) :
  let env := dst ++ ["env"] in
  let envb := dst ++ ["env.build"] in
  let logged d := mkWorld d (CF_STACK w) (calls w ++ [CallRenameEnvDir dst]) in
  (∀ es, get dst (disk w) = Some (Dir es) → assoc "env" es = None →
     RenameEnvDir f dst w = (Ok (), logged (disk w))) ∧
  (absent env (disk w) = true → RenameEnvDir f dst w = (Ok (), logged (disk w))) ∧
  (∀ e w', RenameEnvDir f dst w = (Err e, w') →
     IsNotExist e = false ∧ ∃ no, e = LinkError "rename" env envb no ∧ no ≠ ENOENT) ∧
  (∀ n w', get env (disk w) = Some n → RenameEnvDir f dst w = (Ok (), w') →
     get envb (disk w') = Some n ∧ get env (disk w') = None ∧
     ∀ q, apart env q → apart envb q → get q (disk w') = get q (disk w)) ∧
  (∀ n, get env (disk w) = Some n → get envb (disk w) = None →
     ∃ w', RenameEnvDir f dst w = (Ok (), w')).
Proof.
  intros env envb logged.
  pose proof (RenameEnvDir_run f dst w) as Hrun. cbv zeta in Hrun.
  fold env envb in Hrun. fold logged in Hrun.
  assert (Habs : absent env (disk w) = true → RenameEnvDir f dst w = (Ok (), logged (disk w))).
  { intros Ha. by rewrite Hrun, (rename_absent env envb _ Ha). }
  assert (Hne : "env" ≠ "env.build") by discriminate.
  assert (Hne' : env ≠ envb).
  { intros H. apply app_inv_head in H. discriminate. }
  split; [|split; [done|split; [|split]]].
  - intros es Hdst Henv. apply Habs. unfold absent, env.
    by rewrite (walk_missing_child dst "env" (disk w) es Hdst Henv).
  - intros e w'. rewrite Hrun.
    destruct (rename env envb (disk w)) as [d|[]]; intros [= <- <-]; simpl;
      (split; [done|]); eexists; (split; [done|]); done.
  - intros n w' Hn. rewrite Hrun.
    destruct (rename env envb (disk w)) as [d|no] eqn:Hr.
    + intros [= <-]. simpl.
      destruct (rename_moves _ _ _ _ Hr Hne') as (_ & Hnew & Hold & Hfr).
      specialize (Hnew []). specialize (Hold []). rewrite !app_nil_r in *.
      by rewrite Hnew, Hold.
    + destruct (rename_sibling dst "env" "env.build" (disk w) n Hne Hn) as [Hno _].
      fold env envb in Hno. rewrite Hr in Hno. by destruct no.
  - intros n Hn Hb.
    destruct (rename_sibling dst "env" "env.build" (disk w) n Hne Hn) as [_ Hok].
    destruct (Hok Hb) as [d Hd]. fold env envb in Hd.
    exists (logged d). by rewrite Hrun, Hd.
Qed.

(** ** Override engine: the upsert of one dependency *)

Lemma replaceDeps_spec overrideDep cnbDeps :
  replaceDeps overrideDep cnbDeps =
    (map (overwrite overrideDep) cnbDeps,
     bool_decide (Exists (λ d, sameDep d overrideDep) cnbDeps)).
Proof.
  induction cnbDeps as [|d rest IH]; simpl.
  - done.
  - rewrite IH.
    destruct (decide (sameDep d overrideDep)) as [Hs|Hs].
    + assert (overwrite overrideDep d = overrideDep) as ->
        by (unfold overwrite; by rewrite decide_True).
      rewrite (bool_decide_eq_true_2 (Exists _ (d :: rest))); [done | by left].
    + assert (overwrite overrideDep d = d) as ->
        by (unfold overwrite; by rewrite decide_False).
      rewrite (bool_decide_ext (Exists (λ d0, sameDep d0 overrideDep) (d :: rest))
                               (Exists (λ d0, sameDep d0 overrideDep) rest)); [done|].
      rewrite Exists_cons. split; [by intros [?|?] | by right].
Qed.

Lemma overwrite_no_match overrideDep cnbDeps :
  Forall (λ d, ¬ sameDep d overrideDep) cnbDeps →
  map (overwrite overrideDep) cnbDeps = cnbDeps.
Proof.
  induction 1 as [|d rest Hd _ IH]; simpl; [done|].
  rewrite IH. unfold overwrite. by rewrite decide_False.
Qed.

Lemma upsertDep_unfold cnbDeps dep :
  upsertDep cnbDeps dep =
    if decide (Exists (λ d, sameDep d (v2ToV3Dep dep)) cnbDeps)
    then map (overwrite (v2ToV3Dep dep)) cnbDeps
    else cnbDeps ++ [v2ToV3Dep dep].
Proof.
  unfold upsertDep. rewrite replaceDeps_spec.
  destruct (decide (Exists (λ d, sameDep d (v2ToV3Dep dep)) cnbDeps)) as [He|He].
  - by rewrite bool_decide_eq_true_2.
  - rewrite bool_decide_eq_false_2 by done. simpl.
    rewrite overwrite_no_match; [done|]. by apply not_Exists_Forall; [apply _|].
Qed.

Lemma sameDep_sym a b : sameDep a b → sameDep b a.
Proof. intros [H1 H2]. by split. Qed.

Lemma sameDep_trans a b c : sameDep a b → sameDep b c → sameDep a c.
Proof. intros [H1 H2] [H3 H4]. split; congruence. Qed.

Lemma filter_overwrite x key l :
  sameDep x key →
  filter (λ d, sameDep d key) (map (overwrite x) l) =
    map (λ _, x) (filter (λ d, sameDep d key) l).
Proof.
  intros Hx. induction l as [|d l IH]; simpl; [done|].
  destruct (decide (sameDep d x)) as [Hd|Hd].
  - assert (overwrite x d = x) as -> by (unfold overwrite; by rewrite decide_True).
    rewrite filter_cons_True by done.
    rewrite filter_cons_True by (by eapply sameDep_trans). simpl. by rewrite IH.
  - assert (overwrite x d = d) as -> by (unfold overwrite; by rewrite decide_False).
    assert (¬ sameDep d key).
    { intros H. apply Hd. eapply sameDep_trans; [done|]. by apply sameDep_sym. }
    by rewrite !filter_cons_False.
Qed.

Lemma filter_nil_Forall_not {A} (P : A → Prop) `{!∀ x, Decision (P x)} l :
  filter P l = [] → Forall (λ x, ¬ P x) l.
Proof.
  induction l as [|x l IH]; [constructor|].
  destruct (decide (P x)).
  - rewrite filter_cons_True by done. discriminate.
  - rewrite filter_cons_False by done. intros Hf. constructor; auto.
Qed.

Lemma filter_Forall_not_nil {A} (P : A → Prop) `{!∀ x, Decision (P x)} l :
  Forall (λ x, ¬ P x) l → filter P l = [].
Proof.
  induction 1 as [|x l Hx _ IH]; [done|]. by rewrite filter_cons_False.
Qed.

(** After one upsert of a key held by at most one record, exactly one
    record has the key: the override. *)
Lemma upsertDep_one cnbDeps dep :
  length (filter (λ d, sameDep d (v2ToV3Dep dep)) cnbDeps) ≤ 1 →
  filter (λ d, sameDep d (v2ToV3Dep dep)) (upsertDep cnbDeps dep) = [v2ToV3Dep dep].
Proof.
  intros Hlen. rewrite upsertDep_unfold.
  assert (Hself : sameDep (v2ToV3Dep dep) (v2ToV3Dep dep)) by done.
  destruct (decide (Exists (λ d, sameDep d (v2ToV3Dep dep)) cnbDeps)) as [He|He].
  - rewrite filter_overwrite by done.
    destruct (filter (λ d, sameDep d (v2ToV3Dep dep)) cnbDeps) as [|d [|d' l]] eqn:Hf.
    + apply filter_nil_Forall_not in Hf. apply Exists_exists in He as (d & Hd & Hs).
      rewrite Forall_forall in Hf. by destruct (Hf d Hd).
    + done.
    + simpl in Hlen. lia.
  - apply not_Exists_Forall in He; [|apply _].
    rewrite filter_app, filter_cons_True, filter_nil by done.
    by rewrite (filter_Forall_not_nil _ cnbDeps).
Qed.

Lemma foldl_snoc_map {A B} (g : A → B) (l : list A) (acc : list B) :
  foldl (λ acc x, acc ++ [g x]) acc l = acc ++ map g l.
Proof.
  revert acc. induction l as [|x l IH]; intros acc; simpl.
  - by rewrite app_nil_r.
  - by rewrite IH, <- app_assoc.
Qed.

(** The translation of an entry, field by field. *)
Lemma v2ToV3Dep_fields (name version uri file sha256 : string) (cf_stacks : list string) :
  v2ToV3Dep (mkManifestEntry (mkDependency name version) uri file sha256 cf_stacks)
  = {| ID := name; Name := name; Sha256 := sha256;
       Stacks := map (λ stack, "org.cloudfoundry.stacks." +:+ stack) cf_stacks;
       URI := uri; Version := version; Source := ""; SourceSha256 := "" |}.
Proof. unfold v2ToV3Dep. simpl. by rewrite foldl_snoc_map. Qed.

(** C5. The upsert of the override entry [{name, version, sha256, uri,
    cf_stacks}] into the dependency list of a descriptor. The record that
    it stores has the name of the entry as id and as name, its version, its
    sha256 and its URI, each stack namespaced, and no source. If a record of
    the list has the id [name] and the version [version], the list keeps
    its length and every position: each record with that (id, version) is
    overwritten by the stored record where it stands, every other record
    stays. If no record has that (id, version), the stored record is
    appended at the end. Hence a second override of the same (id, version)
    with another sha256, applied after the first to a list with at most one
    record of that key, leaves exactly one record of the key, and it holds
    the sha256 (and the other fields) of the second; and an override of
    another (id, version) applied to a one-record list appends a second
    record and leaves the first as it was. The loop of the manifest applies
    exactly this upsert to the descriptor. *)
Theorem upsert_law (cnbDeps : list V3Dependency)
    (name version uri file sha256 : string) (cf_stacks : list string) :
  let dep := mkManifestEntry (mkDependency name version) uri file sha256 cf_stacks in
  let stored sha256 uri cf_stacks :=
    {| ID := name; Name := name; Sha256 := sha256;
       Stacks := map (λ stack, "org.cloudfoundry.stacks." +:+ stack) cf_stacks;
       URI := uri; Version := version; Source := ""; SourceSha256 := "" |} in
  let hasKey (d : V3Dependency) := ID d = name ∧ Version d = version in
  (Exists hasKey cnbDeps →
     length (upsertDep cnbDeps dep) = length cnbDeps ∧
     ∀ i d, cnbDeps !! i = Some d →
       upsertDep cnbDeps dep !! i =
         Some (if decide (hasKey d) then stored sha256 uri cf_stacks else d)) ∧
  (Forall (λ d, ¬ hasKey d) cnbDeps →
     upsertDep cnbDeps dep = cnbDeps ++ [stored sha256 uri cf_stacks]) ∧
  (∀ uri' file' sha256' cf_stacks',
     length (filter hasKey cnbDeps) ≤ 1 →
     let twice := upsertDep (upsertDep cnbDeps dep)
                    (mkManifestEntry (mkDependency name version)
                                     uri' file' sha256' cf_stacks') in
     filter hasKey twice = [stored sha256' uri' cf_stacks'] ∧
     (∀ d, d ∈ twice → hasKey d → Sha256 d = sha256') ∧
     filter (λ d, ¬ hasKey d) twice = filter (λ d, ¬ hasKey d) cnbDeps) ∧
  (∀ d1, cnbDeps = [d1] → ¬ hasKey d1 →
     upsertDep cnbDeps dep = [d1; stored sha256 uri cf_stacks]) ∧
  (∀ b, Dependencies (Metadata (applyManifest b (mkManifest [] [dep])))
        = upsertDep (Dependencies (Metadata b)) dep).
Proof.
  intros dep stored hasKey.
  assert (Hdep : ∀ u fl sh cs,
            v2ToV3Dep (mkManifestEntry (mkDependency name version) u fl sh cs)
            = stored sh u cs) by (intros; apply v2ToV3Dep_fields).
  assert (Hkey : ∀ sh u cs d, sameDep d (stored sh u cs) ↔ hasKey d) by done.
  assert (Hfilter : ∀ sh u cs (l : list V3Dependency),
            filter (λ d, sameDep d (stored sh u cs)) l = filter hasKey l).
  { intros. apply list_filter_iff. intros d. apply Hkey. }
  assert (Hunfold : ∀ (l : list V3Dependency) u fl sh cs,
            upsertDep l (mkManifestEntry (mkDependency name version) u fl sh cs) =
              if decide (Exists hasKey l)
              then map (λ d, if decide (hasKey d) then stored sh u cs else d) l
              else l ++ [stored sh u cs]).
  { intros l u fl sh cs. rewrite upsertDep_unfold, Hdep.
    assert (Hex : Exists (λ d, sameDep d (stored sh u cs)) l ↔ Exists hasKey l).
    { split; intros He; (eapply Exists_impl; [exact He|]); intros d; apply Hkey. }
    destruct (decide (Exists (λ d, sameDep d (stored sh u cs)) l)) as [He|He];
      destruct (decide (Exists hasKey l)) as [He'|He'].
    - apply map_ext. intros d. unfold overwrite.
      destruct (decide (sameDep d (stored sh u cs))) as [Hs|Hs];
        destruct (decide (hasKey d)) as [Hk|Hk]; [done| | |done].
      + destruct Hk. by apply Hkey in Hs.
      + destruct Hs. by apply Hkey.
    - destruct He'. by apply Hex.
    - destruct He. by apply Hex.
    - done. }
  assert (Hother : ∀ (l : list V3Dependency) u fl sh cs,
            filter (λ d, ¬ hasKey d)
                   (upsertDep l (mkManifestEntry (mkDependency name version) u fl sh cs))
            = filter (λ d, ¬ hasKey d) l).
  { intros l u fl sh cs. rewrite Hunfold. destruct (decide (Exists hasKey l)) as [_|_].
    - induction l as [|d l IH]; [done|]. simpl.
      destruct (decide (hasKey d)) as [Hk|Hk].
      + rewrite !filter_cons_False; [done| |]; intros Hn; apply Hn; [done|]. by split.
      + by rewrite !filter_cons_True, IH.
    - rewrite filter_app, filter_cons_False, filter_nil, app_nil_r; [done|].
      intros Hn. apply Hn. by split. }
  split; [|split; [|split; [|split]]].
  - intros He. unfold dep. rewrite Hunfold, decide_True by done.
    split; [by rewrite length_map|].
    intros i d Hi. by rewrite list_lookup_fmap, Hi.
  - intros Hf. unfold dep. rewrite Hunfold, decide_False; [done|]. intros He.
    apply Exists_exists in He as (d & Hd & Hs). rewrite Forall_forall in Hf.
    by destruct (Hf d Hd).
  - intros uri' file' sha256' cf_stacks' Hlen twice.
    assert (H1 : filter hasKey (upsertDep cnbDeps dep) = [stored sha256 uri cf_stacks]).
    { rewrite <- (Hfilter sha256 uri cf_stacks), <- (Hdep uri file).
      apply upsertDep_one. by rewrite Hdep, Hfilter. }
    assert (H2 : filter hasKey twice = [stored sha256' uri' cf_stacks']).
    { unfold twice. rewrite <- (Hfilter sha256' uri' cf_stacks'), <- (Hdep uri' file').
      apply upsertDep_one. rewrite Hdep, Hfilter, H1. simpl. lia. }
    split; [done|]. split.
    + intros d Hd Hk.
      assert (Hin : d ∈ filter hasKey twice) by by apply list_elem_of_filter.
      rewrite H2 in Hin. by apply list_elem_of_singleton in Hin as ->.
    + unfold twice, dep. by rewrite (Hother _ uri' file'), (Hother _ uri file).
  - intros d1 -> Hd. unfold dep. rewrite Hunfold, decide_False; [done|]. intros He.
    apply Exists_cons in He as [He|He]; [done | by apply Exists_nil in He].
  - intros b. reflexivity.
Qed.

(** The scenario of the specification (section 8): two overrides of
    [(A, 1)] with different checksums leave one record, with the checksum
    of the second; an override of [(A, 2)] is appended behind the record of
    [(A, 1)], which stays as it was. *)
Lemma upsert_law_witness :
  let record version sha256 :=
    {| ID := "A"; Name := "A"; Sha256 := sha256;
       Stacks := ["org.cloudfoundry.stacks.cflinuxfs3"];
       URI := "https://example.com/A"; Version := version;
       Source := ""; SourceSha256 := "" |} in
  let override version sha256 :=
    mkManifestEntry (mkDependency "A" version) "https://example.com/A" "A.tgz" sha256
                    ["cflinuxfs3"] in
  upsertDep (upsertDep [] (override "1" "aaa")) (override "1" "bbb") = [record "1" "bbb"] ∧
  upsertDep [record "1" "aaa"] (override "2" "ccc") = [record "1" "aaa"; record "2" "ccc"].
Proof.
  intros record override. split.
  - destruct (upsert_law [] "A" "1" "https://example.com/A" "A.tgz" "aaa" ["cflinuxfs3"])
      as (_ & _ & Htwice & _ & _).
    destruct (Htwice "https://example.com/A" "A.tgz" "bbb" ["cflinuxfs3"]) as (H & _ & _);
      [simpl; lia|].
    vm_compute in H |- *. exact H.
  - destruct (upsert_law [record "1" "aaa"] "A" "2" "https://example.com/A" "A.tgz" "ccc"
                ["cflinuxfs3"]) as (_ & _ & _ & Hsecond & _).
    apply (Hsecond (record "1" "aaa")); [reflexivity|].
    intros [_ Hv]. discriminate.
Defined.

(** ** Override engine: dependence on the order of [range] *)

Lemma forM__ext_inv {A} (I : World → Prop) (l : list A) (b1 b2 : A → M unit) :
  (∀ x w, I w → b1 x w = b2 x w) →
  (∀ x w r w', I w → b1 x w = (r, w') → I w') →
  ∀ w, I w → forM_ l b1 w = forM_ l b2 w.
Proof.
  intros Hext Hinv. induction l as [|x l IH]; intros w HI; simpl; [done|].
  rewrite !bind_run, <- (Hext x w HI).
  destruct (b1 x w) as [[[]|e] w1] eqn:Hb; [|done].
  apply IH. by eapply Hinv.
Qed.

Lemma forM__inv {A} (I : World → Prop) (l : list A) (b : A → M unit) :
  (∀ x w r w', I w → b x w = (r, w') → I w') →
  ∀ w r w', I w → forM_ l b w = (r, w') → I w'.
Proof.
  intros Hinv. induction l as [|x l IH]; intros w r w' HI; simpl.
  - by intros [= _ <-].
  - rewrite bind_run. destruct (b x w) as [[[]|e] w1] eqn:Hb.
    + apply IH. by eapply Hinv.
    + intros [= _ <-]. by eapply Hinv.
Qed.

Lemma get_prefix_Dir p s n m :
  get (p ++ s) n = Some m → s ≠ [] → ∃ es, get p n = Some (Dir es).
Proof.
  rewrite get_app. destruct (get p n) as [[c|es]|]; simpl; [|eauto|done].
  by destruct s.
Qed.

(** Writing a descriptor neither creates nor changes an override file. *)
Lemma writeFile_single_manifest p c d d' :
  (∀ m, c ≠ OverrideYML m) →
  writeFile p c d = Ok d' →
  single_manifest_overrides d → single_manifest_overrides d'.
Proof.
  intros Hc Hw HI q m Hq.
  destruct (decide (q `prefix_of` p)) as [[s ->]|Hpre].
  - destruct s as [|x s].
    + rewrite app_nil_r in Hw. rewrite (writeFile_get _ _ _ _ Hw) in Hq.
      simplify_eq. by destruct (Hc m).
    + pose proof (writeFile_get _ _ _ _ Hw) as Hp.
      apply get_prefix_Dir in Hp as [es Hes]; [|done]. congruence.
  - rewrite (writeFile_get_other _ _ _ _ q Hw Hpre) in Hq. by eapply HI.
Qed.

Lemma valid_order_single ro p (m : gmap string Manifest) :
  valid_order ro → size m ≤ 1 → ro p m = map_to_list m.
Proof.
  intros Hv Hsz. specialize (Hv p m).
  pose proof (length_map_to_list m) as Hlen.
  destruct (map_to_list m) as [|x [|y l]]; simpl in Hlen.
  - by apply Permutation_nil_r in Hv.
  - by apply Permutation_singleton_r in Hv.
  - lia.
Qed.

Lemma ioutil_ReadFile_world p w r w' : ioutil_ReadFile p w = (r, w') → w' = w.
Proof.
  unfold ioutil_ReadFile. destruct (walk p (disk w)) as [[]|]; by intros [= _ <-].
Qed.

Lemma updateBuildpackTOML_inv ro f paths m w r w' :
  single_manifest_overrides (disk w) →
  updateBuildpackTOML ro f paths m w = (r, w') →
  single_manifest_overrides (disk w').
Proof.
  unfold updateBuildpackTOML.
  apply (forM__inv (λ w, single_manifest_overrides (disk w))).
  clear. intros p w r w' HI. rewrite bind_run.
  destruct (ioutil_ReadFile p w) as [[c|e] w1] eqn:Hr;
    apply ioutil_ReadFile_world in Hr as ->; [|by intros [= _ <-]].
  rewrite bind_run. unfold Wrap, Unmarshal_BuildpackTOML, unmarshal.
  match goal with |- context [match ?sel with Some _ => _ | None => _ end] =>
    destruct sel as [b|] end; simpl; [|by intros [= _ <-]].
  unfold encodeTOML, syscall.
  destruct (writeFile p _ (disk w)) as [d|e] eqn:Hw; intros [= _ <-]; [|done].
  simpl. eapply writeFile_single_manifest; [|done|done]. done.
Qed.

Lemma updateBuildpackTOML_ext ro1 ro2 f paths m w :
  valid_order ro1 → valid_order ro2 → size m ≤ 1 →
  updateBuildpackTOML ro1 f paths m w = updateBuildpackTOML ro2 f paths m w.
Proof.
  intros H1 H2 Hsz. unfold updateBuildpackTOML.
  apply (forM__ext_inv (λ _, True)); [|done|done].
  intros p w0 _. by rewrite !(valid_order_single _ p m) by done.
Qed.

Lemma YAML_Load_cases p w :
  (∃ m, get p (disk w) = Some (File (OverrideYML m)) ∧
        Wrap (YAML_Load p) "unable to unmarshal into overrideManifest" w = (Ok m, w)) ∨
  (∃ e, Wrap (YAML_Load p) "unable to unmarshal into overrideManifest" w = (Err e, w)).
Proof.
  unfold Wrap, YAML_Load, decode. rewrite bind_run. unfold ioutil_ReadFile.
  destruct (walk p (disk w)) as [n|e] eqn:Hw.
  - apply walk_Ok_get in Hw. destruct n as [[]|]; simpl; eauto.
  - eauto.
Qed.

(** C9, as amended. When no override file on the disk declares more than
    one manifest, the outcome of [ApplyOverrideYMLs] (the error or success
    and the world it leaves, every descriptor included) is the same for
    every order in which the runtime may enumerate the override maps: the
    migration is then a function of the files and of their discovery
    order. *)
Theorem ApplyOverrideYMLs_deterministic (ro1 ro2 : RangeOrder) (f : Finalizer) (w : World) :
  valid_order ro1 → valid_order ro2 →
  single_manifest_overrides (disk w) →
  ApplyOverrideYMLs ro1 f w = ApplyOverrideYMLs ro2 f w.
Proof.
  intros H1 H2 HI. unfold ApplyOverrideYMLs.
  rewrite !bind_run. unfold Glob at 1 3. rewrite !bind_run. unfold Glob at 1 2.
  apply (forM__ext_inv (λ w, single_manifest_overrides (disk w))); [| |done].
  - intros p w0 HI0. rewrite !bind_run.
    destruct (YAML_Load_cases p w0) as [(m & Hg & ->)|[e ->]]; [|done].
    apply updateBuildpackTOML_ext; [done|done|]. by eapply HI0.
  - intros p w0 r w' HI0. rewrite bind_run.
    destruct (YAML_Load_cases p w0) as [(m & Hg & ->)|[e ->]]; [|by intros [= _ <-]].
    by apply updateBuildpackTOML_inv.
Qed.

Lemma all_files_get P n p c :
  all_files P n = true → get p n = Some (File c) → P c = true.
Proof.
  revert n. induction p as [|x p IH]; intros n; simpl.
  - intros H [= ->]. done.
  - destruct n as [?|es]; [done|]. simpl.
    induction es as [|[x' ch] es IHes]; simpl; [done|].
    intros [Hch Hes]%andb_prop.
    destruct (decide (x' = x)); [by apply IH | by apply IHes].
Qed.

Lemma single_manifest_overrides_check d :
  all_files single_manifest d = true → single_manifest_overrides d.
Proof.
  intros H p m Hg. apply (all_files_get _ _ _ _ H) in Hg.
  by apply bool_decide_eq_true in Hg.
Qed.

Lemma valid_order_forwards : valid_order forwards.
Proof. intros p m. done. Qed.

Lemma valid_order_backwards : valid_order backwards.
Proof. intros p m. apply reverse_Permutation. Qed.

Lemma ApplyOverrideYMLs_deterministic_witness :
  ApplyOverrideYMLs forwards exFinalizer (overrideWorld oneManifest)
  = ApplyOverrideYMLs backwards exFinalizer (overrideWorld oneManifest).
Proof.
  apply (ApplyOverrideYMLs_deterministic forwards backwards exFinalizer
           (overrideWorld oneManifest)).
  - apply valid_order_forwards.
  - apply valid_order_backwards.
  - apply single_manifest_overrides_check. vm_compute. reflexivity.
Defined.

(** C9, as stated, fails: one override file with two manifests that pin
    the same module, one descriptor, and two enumerations of the same
    override map give two different descriptors. *)
Lemma ApplyOverrideYMLs_range_order_matters :
  ¬ (∀ (ro1 ro2 : RangeOrder) (f : Finalizer) (w : World),
       valid_order ro1 → valid_order ro2 →
       ApplyOverrideYMLs ro1 f w = ApplyOverrideYMLs ro2 f w).
Proof.
  intros H.
  specialize (H forwards backwards exFinalizer (overrideWorld twoManifests)
                valid_order_forwards valid_order_backwards).
  apply (f_equal (λ r : result error unit * World,
           defaultVersionAt ["home"; "vcap"; "cnbs"; "lang-b"; "latest"; "buildpack.toml"]
                            "ruby" (disk (snd r)))) in H.
  vm_compute in H. discriminate.
Qed.

(** ** [mkdirAll] and sorting *)

Lemma mkdirAll_get_other p o n' q :
  mkdirAll p o = Ok n' → ¬ q `prefix_of` p → get q n' = oget q o.
Proof.
  revert o n' q. induction p as [|c p IH]; intros o n' q Hm Hq.
  - destruct q as [|c' q]; [by destruct Hq|].
    destruct o as [[?|es]|]; simpl in Hm; simplify_eq; done.
  - destruct q as [|c' q]; [destruct Hq; apply prefix_nil|].
    destruct o as [[?|es]|]; simpl in Hm; [done| |].
    + destruct (mkdirAll p (assoc c es)) as [ch|] eqn:Hch; [|done].
      simplify_eq. simpl. destruct (decide (c = c')) as [<-|Hne].
      * rewrite assoc_set_entry_eq.
        rewrite (IH _ _ q Hch); [by destruct (assoc c es)|].
        intros H. apply Hq. by apply prefix_cons.
      * by rewrite assoc_set_entry_ne.
    + destruct (mkdirAll p None) as [ch|] eqn:Hch; [|done].
      simplify_eq. simpl. destruct (decide (c = c')) as [<-|Hne]; [|done].
      rewrite (IH _ _ q Hch); [done|].
      intros H. apply Hq. by apply prefix_cons.
Qed.

Lemma mkdirAll_get_prefix p o n' q :
  mkdirAll p o = Ok n' → q `prefix_of` p → ∃ es, get q n' = Some (Dir es).
Proof.
  revert o n' q. induction p as [|c p IH]; intros o n' q Hm Hq.
  - apply prefix_nil_inv in Hq as ->.
    destruct o as [[?|es]|]; simpl in Hm; simplify_eq; simpl; eauto.
  - destruct q as [|c' q].
    { destruct o as [[?|es]|]; simpl in Hm; [done| |].
      - destruct (mkdirAll p (assoc c es)); simplify_eq; simpl; eauto.
      - destruct (mkdirAll p None); simplify_eq; simpl; eauto. }
    pose proof (prefix_cons_inv_1 _ _ _ _ Hq) as ->.
    apply prefix_cons_inv_2 in Hq.
    destruct o as [[?|es]|]; simpl in Hm; [done| |].
    + destruct (mkdirAll p (assoc c es)) as [ch|] eqn:Hch; [|done].
      simplify_eq. simpl. rewrite assoc_set_entry_eq. by eapply IH.
    + destruct (mkdirAll p None) as [ch|] eqn:Hch; [|done].
      simplify_eq. simpl. rewrite decide_True by done. by eapply IH.
Qed.

(** Creating directories that exist changes nothing. *)
Lemma mkdirAll_existing p n es :
  get p n = Some (Dir es) → mkdirAll p (Some n) = Ok n.
Proof.
  revert n. induction p as [|c p IH]; intros n; simpl.
  - by intros [= ->].
  - destruct n as [?|es0]; [done|].
    destruct (assoc c es0) as [ch|] eqn:Ha; [|done].
    intros Hg. rewrite (IH _ Hg). by rewrite set_entry_id.
Qed.

Lemma insert_sorted_elem x s l : x ∈ insert_sorted s l ↔ x = s ∨ x ∈ l.
Proof.
  induction l as [|t l IH]; simpl.
  - rewrite list_elem_of_singleton, elem_of_nil. tauto.
  - destruct (String.leb s t).
    + by rewrite elem_of_cons.
    + rewrite !elem_of_cons, IH. tauto.
Qed.

Lemma sort_strings_elem x l : x ∈ sort_strings l ↔ x ∈ l.
Proof.
  unfold sort_strings. induction l as [|t l IH]; simpl; [done|].
  rewrite insert_sorted_elem, elem_of_cons, IH. done.
Qed.

Lemma insert_sorted_Permutation s l : insert_sorted s l ≡ₚ s :: l.
Proof.
  induction l as [|t l IH]; simpl; [done|].
  destruct (String.leb s t); [done|]. rewrite IH. apply Permutation_swap.
Qed.

Lemma sort_strings_Permutation l : sort_strings l ≡ₚ l.
Proof.
  unfold sort_strings. induction l as [|t l IH]; simpl; [done|].
  by rewrite insert_sorted_Permutation, IH.
Qed.

(** ** Cache restore *)

Lemma del_entry_names {A} x c (es : list (string * A)) :
  x ∈ map fst (del_entry c es) → x ≠ c ∧ x ∈ map fst es.
Proof.
  induction es as [|[c0 n0] es IH]; simpl; [by intros ?%elem_of_nil|].
  destruct (decide (c0 = c)) as [->|Hne]; simpl.
  - intros [? ?]%IH. split; [done | by right].
  - intros [->|H]%elem_of_cons; [split; [done | left] |].
    apply IH in H as [? ?]. split; [done | by right].
Qed.

Lemma del_entries_all {A} names (es : list (string * A)) :
  (∀ x, x ∈ map fst es → x ∈ names) →
  foldl (λ es c, del_entry c es) es names = [].
Proof.
  revert es. induction names as [|c ns IH]; intros es Hall; simpl.
  - destruct es as [|[c0 n0] es]; [done|].
    specialize (Hall c0). simpl in Hall. exfalso.
    eapply not_elem_of_nil, Hall. left.
  - apply IH. intros x Hx. apply del_entry_names in Hx as [Hne Hx].
    apply Hall in Hx. apply elem_of_cons in Hx as [->|Hx]; done.
Qed.

Lemma os_Rename_Ok old new w w' :
  os_Rename old new w = (Ok (), w') →
  ∃ d, rename old new (disk w) = Ok d ∧ w' = set_disk w d.
Proof. apply syscall_Ok. Qed.

Lemma del_child_parent dir a root root1 es :
  get dir root = Some (Dir es) → del (dir ++ [a]) root = Ok root1 →
  get dir root1 = Some (Dir (del_entry a es)).
Proof.
  intros Hdir Hdel.
  destruct (upd_root_parent (λ _, Ok None) dir a root es None Hdir eq_refl)
    as (d1 & Hdel' & Hdir1).
  unfold del in Hdel. rewrite Hdel' in Hdel. by simplify_eq.
Qed.

(** One step of the move: the entry leaves the source directory and
    stands in the destination. *)
Lemma rename_into src dst a d d' es :
  apart src dst → get src d = Some (Dir es) →
  rename (src ++ [a]) (dst ++ [a]) d = Ok d' →
  get src d' = Some (Dir (del_entry a es)) ∧
  get (dst ++ [a]) d' = assoc a es ∧
  is_Some (assoc a es) ∧
  ∀ q, apart (src ++ [a]) q → apart (dst ++ [a]) q → get q d' = get q d.
Proof.
  intros Hap Hsrc Hr.
  assert (Hne : src ++ [a] ≠ dst ++ [a]).
  { intros H. apply app_inj_tail in H as [-> _]. destruct Hap as [H _]. by apply H. }
  pose proof (rename_moves _ _ _ _ Hr Hne) as (_ & Hnew & _ & Hfr).
  apply rename_Ok in Hr as (n & Hn & [[? _]|[_ (d1 & Hdel & Hput)]]); [done|].
  rewrite (get_child _ _ _ _ Hsrc) in Hn.
  split; [|split; [|split]].
  - rewrite (put_get_apart _ _ _ _ src Hput).
    + by eapply del_child_parent.
    + apply apart_sym, apart_app_r, Hap.
  - specialize (Hnew []). rewrite !app_nil_r in Hnew.
    by rewrite Hnew, (get_child _ _ _ _ Hsrc).
  - by rewrite Hn.
  - done.
Qed.

Lemma moveLoop_spec src dst names w w' es :
  apart src dst →
  get src (disk w) = Some (Dir es) →
  forM_ names (λ name, os_Rename (src ++ [name]) (dst ++ [name])) w = (Ok (), w') →
  get src (disk w') = Some (Dir (foldl (λ es c, del_entry c es) es names)) ∧
  NoDup names ∧
  (∀ name, name ∈ names → is_Some (assoc name es) ∧
                           get (dst ++ [name]) (disk w') = assoc name es) ∧
  (∀ q, apart src q → apart dst q → get q (disk w') = get q (disk w)) ∧
  (∀ name, name ∉ names →
     get (dst ++ [name]) (disk w') = get (dst ++ [name]) (disk w)) ∧
  calls w' = calls w.
Proof.
  intros Hap. revert w es. induction names as [|c ns IH]; intros w es Hsrc; simpl.
  - intros [= <-]. split; [done|]. split; [constructor|]. split; [|done].
    intros name H. by apply elem_of_nil in H.
  - rewrite bind_run. destruct (os_Rename _ _ w) as [[[]|e] w1] eqn:Hr; [|done].
    apply os_Rename_Ok in Hr as (d1 & Hr & ->). intros Hloop.
    destruct (rename_into _ _ _ _ _ _ Hap Hsrc Hr) as (Hsrc1 & Hdst1 & Hsome & Hfr1).
    destruct (IH (set_disk w d1) _ Hsrc1 Hloop)
      as (Hsrc' & Hnd & Hmoved & Hfr & Hkeep & Hcalls).
    assert (Hc : c ∉ ns).
    { intros Hin. destruct (Hmoved c Hin) as [[n Hn] _].
      by rewrite assoc_del_entry_eq in Hn. }
    split; [done|]. split; [by constructor|]. split; [|split; [|split]].
    + intros name [->|Hin]%elem_of_cons.
      * split; [done|]. rewrite (Hkeep c Hc). done.
      * destruct (Hmoved name Hin) as [Hs Hg].
        assert (c ≠ name) by (intros ->; done).
        rewrite assoc_del_entry_ne in Hs, Hg by done. done.
    + intros q Hq1 Hq2. rewrite (Hfr q Hq1 Hq2). simpl.
      apply Hfr1; by apply apart_app_l.
    + intros name [Hne Hnin]%not_elem_of_cons. rewrite (Hkeep name Hnin). simpl.
      apply Hfr1.
      * apply apart_app_l, apart_app_r, Hap.
      * by apply apart_snoc_ne.
    + by rewrite Hcalls.
Qed.

Lemma FileExists_run file w :
  FileExists file w =
    match walk file (disk w) with
    | Ok _ => (Ok true, w)
    | Err ENOENT => (Ok false, w)
    | Err e => (Err (PathError "stat" file e), w)
    end.
Proof.
  unfold FileExists. rewrite bind_run, attempt_Stat_run.
  by destruct (walk file (disk w)) as [|[]].
Qed.

Lemma os_MkdirAll_Ok p w w' :
  os_MkdirAll p w = (Ok (), w') →
  ∃ d, mkdirAll p (Some (disk w)) = Ok d ∧ w' = set_disk w d.
Proof. apply syscall_Ok. Qed.

(** C7. [RestoreV3Cache] with no durable cache root returns no error and
    leaves the world as it was. With a cache root, disjoint from the
    layers directory, a restore that succeeds has moved every entry of the
    root, as it was, into the layers directory, and the root is left
    empty. *)
Theorem RestoreV3Cache_spec (f : Finalizer) (w : World) :
  let cnbCache := V2CacheDir f ++ ["cnb"] in
  (absent cnbCache (disk w) = true → RestoreV3Cache f w = (Ok (), w)) ∧
  (∀ n w', get cnbCache (disk w) = Some n →
     apart cnbCache (V3LayersDir f) →
     RestoreV3Cache f w = (Ok (), w') →
     ∃ es, n = Dir es ∧
       get cnbCache (disk w') = Some (Dir []) ∧
       readdirnames cnbCache (disk w') = [] ∧
       ∀ name ch, assoc name es = Some ch →
         get (V3LayersDir f ++ [name]) (disk w') = Some ch).
Proof.
  intros cnbCache. split.
  - intros Ha. unfold RestoreV3Cache. fold cnbCache.
    rewrite bind_run, FileExists_run. unfold absent in Ha.
    by destruct (walk cnbCache (disk w)) as [|[]].
  - intros n w' Hn Hap. unfold RestoreV3Cache. fold cnbCache.
    rewrite bind_run, FileExists_run.
    assert (Hw : walk cnbCache (disk w) = Ok n) by by apply walk_Ok_get.
    rewrite Hw. unfold MoveDirectory. rewrite bind_run. unfold os_Stat. rewrite Hw.
    destruct n as [c|es]; [done|]. rewrite bind_run.
    destruct (os_MkdirAll (V3LayersDir f) w) as [[[]|e] w1] eqn:Hmk; [|done].
    apply os_MkdirAll_Ok in Hmk as (d1 & Hmk & ->). intros Hloop.
    assert (Hsrc1 : get cnbCache (disk (set_disk w d1)) = Some (Dir es)).
    { simpl. rewrite (mkdirAll_get_other _ _ _ cnbCache Hmk); [done|]. apply Hap. }
    destruct (moveLoop_spec _ _ _ _ _ _ Hap Hsrc1 Hloop)
      as (Hsrc' & _ & Hmoved & _ & _ & _).
    rewrite del_entries_all in Hsrc'.
    2:{ intros x Hx. by apply sort_strings_elem. }
    exists es. split; [done|]. split; [done|]. split.
    + unfold readdirnames. by rewrite Hsrc'.
    + intros name ch Ha. destruct (Hmoved name) as [_ Hg].
      * apply sort_strings_elem, list_elem_of_fmap. exists (name, ch).
        split; [done|]. by apply assoc_Some_elem.
      * by rewrite Hg.
Qed.

(** ** [strconv]: printing and parsing agree *)

Lemma Atoi_unsigned (a : ascii) (s : string) (v : Z) :
  a ≠ "+"%char → a ≠ "-"%char →
  digits 0 (String a s) = Some v → (v < 2 ^ 63)%Z → (0 ≤ v)%Z →
  Atoi (String a s) = Ok v.
Proof.
  intros Hp Hm Hd Hlt Hge. unfold Atoi.
  destruct a as [[] [] [] [] [] [] [] []]; try congruence;
    cbv beta iota zeta; rewrite Hd; rewrite decide_True by lia; reflexivity.
Qed.

Lemma Atoi_Itoa (n : nat) :
  (Z.of_nat n < 2 ^ 63)%Z → Atoi (Itoa (Z.of_nat n)) = Ok (Z.of_nat n).
Proof.
  intros Hlt. unfold Itoa. destruct (Z.of_nat n) as [|p|p] eqn:Hz; [reflexivity| |lia].
  simpl. pose proof (DecimalPos.Unsigned.to_uint_nonnil p) as Hnn.
  pose proof (digits_0 (Pos.to_uint p)) as Hd.
  rewrite DecimalPos.Unsigned.of_to in Hd. simpl in Hd.
  unfold NilZero.string_of_uint.
  destruct (Pos.to_uint p) as [|d|d|d|d|d|d|d|d|d|d] eqn:Hu; [done|..];
    apply Atoi_unsigned; try done; try lia.
Qed.

Lemma Itoa_inj x y : Itoa x = Itoa y → x = y.
Proof.
  unfold Itoa. intros H.
  assert (Hnn : ∀ z, Z.to_int z ≠ Pos Nil ∧ Z.to_int z ≠ Neg Nil).
  { intros [|p|p]; simpl; split; try discriminate;
      intros [= Hp]; by apply DecimalPos.Unsigned.to_uint_nonnil in Hp. }
  apply DecimalZ.to_int_inj.
  destruct (Hnn x) as [Hx1 Hx2], (Hnn y) as [Hy1 Hy2].
  pose proof (NilZero.isi _ Hx1 Hx2) as Hx. pose proof (NilZero.isi _ Hy1 Hy2) as Hy.
  rewrite H in Hx. congruence.
Qed.

Lemma legacyID_inj i j : legacyID i = legacyID j → i = j.
Proof.
  unfold legacyID. intros H. simpl in H. simplify_eq.
  apply Itoa_inj in H. lia.
Qed.

Lemma v2Layer_apart f i j : i ≠ j → apart (v2Layer f i) (v2Layer f j).
Proof.
  intros Hne. apply apart_snoc_ne. intros H. apply Itoa_inj in H. lia.
Qed.

(** ** The steps of the injector *)

Lemma apart_not_prefix_app src root s : apart src root → ¬ src `prefix_of` root ++ s.
Proof.
  intros [H1 H2] H.
  destruct (prefix_weak_total src root (root ++ s)) as [?|?];
    [done | by apply prefix_app_r | done | done].
Qed.

Lemma removelast_snoc2 {A} (l : list A) a b : removelast (l ++ [a; b]) = l ++ [a].
Proof.
  change (l ++ [a; b]) with (l ++ [a] ++ [b]). rewrite app_assoc.
  apply removelast_last.
Qed.

Lemma path_append_snoc p c ext : path_append (p ++ [c]) ext = p ++ [c +:+ ext].
Proof.
  induction p as [|x p IH]; simpl; [done|].
  rewrite IH. by destruct p.
Qed.

Lemma syscall_session f mk w w' : syscall f mk w = (Ok (), w') → same_session w w'.
Proof. intros (d & _ & ->)%syscall_Ok. done. Qed.

Lemma os_MkdirAll_frame p w w' q :
  os_MkdirAll p w = (Ok (), w') → ¬ q `prefix_of` p →
  get q (disk w') = get q (disk w).
Proof.
  intros (d & Hm & ->)%os_MkdirAll_Ok Hq. simpl.
  by rewrite (mkdirAll_get_other _ _ _ q Hm).
Qed.

Lemma write_frame p c mk w w' q :
  syscall (writeFile p c) mk w = (Ok (), w') → ¬ q `prefix_of` p →
  get q (disk w') = get q (disk w).
Proof.
  intros (d & Hm & ->)%syscall_Ok Hq. simpl.
  by apply (writeFile_get_other _ _ _ _ q Hm).
Qed.

Lemma apart_not_prefix r s q : apart r q → ¬ q `prefix_of` r ++ s.
Proof. intros H. by apply apart_not_prefix_app, apart_sym. Qed.

Lemma MoveV2Layers_Ok f src root bp w w' :
  apart src root →
  MoveV2Layers f src (root ++ [bp; "layer"]) w = (Ok (), w') →
  calls w' = calls w ++ [CallMoveV2Layers src (root ++ [bp; "layer"])] ∧
  CF_STACK w' = CF_STACK w ∧
  is_Some (get src (disk w)) ∧
  (∀ s, get (root ++ [bp; "layer"] ++ s) (disk w') = get (src ++ s) (disk w)) ∧
  (∀ q, apart root q → apart src q → get q (disk w') = get q (disk w)).
Proof.
  intros Hap. unfold MoveV2Layers. rewrite bind_run, log_run, bind_run.
  rewrite removelast_snoc2.
  destruct (os_MkdirAll _ _) as [[[]|e] w1] eqn:Hmk; [|done].
  pose proof (os_MkdirAll_frame _ _ _ src Hmk (apart_not_prefix_app _ _ _ Hap)) as Hsrc.
  assert (Hfr1 : ∀ q, apart root q → get q (disk w1) = get q (disk w)).
  { intros q Hq. rewrite (os_MkdirAll_frame _ _ _ q Hmk); [done|].
    by apply apart_not_prefix. }
  apply os_MkdirAll_Ok in Hmk as (d1 & _ & ->). simpl in *.
  intros (d2 & Hr & ->)%os_Rename_Ok. simpl in *.
  split; [done|]. split; [done|].
  assert (Hne : src ≠ root ++ [bp; "layer"]).
  { intros ->. destruct Hap as [_ H]. apply H. by apply prefix_app_r. }
  destruct (rename_moves _ _ _ _ Hr Hne) as (_ & Hnew & _ & Hfr).
  apply rename_Ok in Hr as (n & Hn & _). rewrite Hsrc in Hn.
  split; [by rewrite Hn|]. split.
  - intros s. specialize (Hnew s). rewrite <- app_assoc in Hnew. simpl in Hnew.
    rewrite Hnew, !get_app, Hsrc. done.
  - intros q Hq1 Hq2. rewrite Hfr; [by apply Hfr1 | done | by apply apart_app_l].
Qed.

Lemma WriteLayerMetadata_Ok f root bp w w' :
  WriteLayerMetadata f (root ++ [bp; "layer"]) w = (Ok (), w') →
  calls w' = calls w ++ [CallWriteLayerMetadata (root ++ [bp; "layer"])] ∧
  CF_STACK w' = CF_STACK w ∧
  get (root ++ [bp; "layer.toml"]) (disk w')
    = Some (File (LayerTOML (mkLayerMetadata true true false))) ∧
  (∀ q, ¬ q `prefix_of` root ++ [bp; "layer.toml"] → get q (disk w') = get q (disk w)).
Proof.
  unfold WriteLayerMetadata. rewrite bind_run, log_run.
  change (root ++ [bp; "layer"]) with (root ++ [bp] ++ ["layer"]).
  rewrite app_assoc, path_append_snoc, <- app_assoc. simpl.
  intros H. split; [|split; [|split]].
  - apply syscall_session in H as [_ ->]. done.
  - apply syscall_session in H as [-> _]. done.
  - apply syscall_Ok in H as (d & Hw & ->). simpl. by apply writeFile_get in Hw.
  - intros q Hq. by rewrite (write_frame _ _ _ _ _ q H).
Qed.

Lemma RenameEnvDir_Ok f dst w w' :
  RenameEnvDir f dst w = (Ok (), w') →
  calls w' = calls w ++ [CallRenameEnvDir dst] ∧
  CF_STACK w' = CF_STACK w ∧
  (∀ q, apart (dst ++ ["env"]) q → apart (dst ++ ["env.build"]) q →
        get q (disk w') = get q (disk w)).
Proof.
  pose proof (RenameEnvDir_run f dst w) as Hrun. cbv zeta in Hrun. rewrite Hrun.
  destruct (rename _ _ (disk w)) as [d|[]] eqn:Hr; intros [= <-]; simpl;
    (split; [done|]); (split; [done|]); [|done].
  intros q Hq1 Hq2. by apply (rename_get_apart _ _ _ _ q Hr).
Qed.

Lemma DecodeFile_group_Ok p w g w' :
  DecodeFile_group p w = (Ok g, w') →
  w' = w ∧ get p (disk w) = Some (File (GroupTOML g)).
Proof.
  unfold DecodeFile_group, decode. rewrite bind_run. unfold ioutil_ReadFile.
  destruct (walk p (disk w)) as [[c|]|] eqn:Hw; [|done|done].
  apply walk_Ok_get in Hw. unfold unmarshal. destruct c; try done.
  by intros [= -> <-].
Qed.

Lemma UpdateGroupTOML_Ok f buildpackID w w' :
  UpdateGroupTOML f buildpackID w = (Ok (), w') →
  calls w' = calls w ++ [CallUpdateGroupTOML buildpackID] ∧
  CF_STACK w' = CF_STACK w ∧
  (∃ g, get (GroupMetadata f) (disk w) = Some (File (GroupTOML g)) ∧
        get (GroupMetadata f) (disk w')
          = Some (File (GroupTOML (mkGroup (ref buildpackID :: Buildpacks g))))) ∧
  (∀ q, ¬ q `prefix_of` GroupMetadata f → get q (disk w') = get q (disk w)).
Proof.
  unfold UpdateGroupTOML. rewrite bind_run, log_run, bind_run.
  destruct (DecodeFile_group _ _) as [[g|e] w1] eqn:Hd; [|done].
  apply DecodeFile_group_Ok in Hd as [-> Hg]. simpl in Hg.
  intros H. split; [|split; [|split]].
  - apply syscall_session in H as [_ ->]. done.
  - apply syscall_session in H as [-> _]. done.
  - exists g. split; [done|].
    apply syscall_Ok in H as (d & Hw & ->). simpl. by apply writeFile_get in Hw.
  - intros q Hq. by rewrite (write_frame _ _ _ _ _ q H).
Qed.

Lemma AddFakeCNBBuildpack_Ok f buildpackID w w' :
  AddFakeCNBBuildpack f buildpackID w = (Ok (), w') →
  calls w' = calls w ++ [CallAddFakeCNBBuildpack buildpackID] ∧
  CF_STACK w' = CF_STACK w ∧
  (∀ q, apart (V3BuildpacksDir f) q → get q (disk w') = get q (disk w)).
Proof.
  unfold AddFakeCNBBuildpack. rewrite bind_run, log_run.
  set (w0 := mkWorld (disk w) (CF_STACK w) (calls w ++ [_])).
  intros H.
  apply bind_Ok in H as ([] & w1 & H1 & H).
  apply bind_Ok in H as ([] & w2 & H2 & H).
  apply bind_Ok in H as (cf & w3 & H3 & H). injection H3 as <- <-.
  apply bind_Ok in H as ([] & w4 & H4 & H).
  apply bind_Ok in H as ([] & w5 & H5 & H6).
  pose proof (syscall_session _ _ _ _ H1) as [? ?].
  pose proof (syscall_session _ _ _ _ H2) as [? ?].
  pose proof (syscall_session _ _ _ _ H4) as [? ?].
  pose proof (syscall_session _ _ _ _ H5) as [? ?].
  pose proof (syscall_session _ _ _ _ H6) as [? ?].
  split; [subst w0; simpl in *; congruence|].
  split; [subst w0; simpl in *; congruence|].
  intros q Hq.
  rewrite (write_frame _ _ _ _ _ q H6) by (rewrite <- app_assoc; by apply apart_not_prefix).
  rewrite (os_MkdirAll_frame _ _ _ q H5) by (rewrite <- app_assoc; by apply apart_not_prefix).
  rewrite (write_frame _ _ _ _ _ q H4) by (rewrite <- app_assoc; by apply apart_not_prefix).
  rewrite (write_frame _ _ _ _ _ q H2) by (rewrite <- app_assoc; by apply apart_not_prefix).
  rewrite (os_MkdirAll_frame _ _ _ q H1) by (by apply apart_not_prefix).
  done.
Qed.

(** ** The loop of the injector *)

Lemma hasOutput_true f d i : hasOutput f d i = true ↔ is_Some (get (v2Layer f i) d).
Proof. unfold hasOutput. apply bool_decide_eq_true. Qed.

Lemma hasOutput_frame f d d' i :
  get (v2Layer f i) d' = get (v2Layer f i) d → hasOutput f d' i = hasOutput f d i.
Proof. unfold hasOutput. by intros ->. Qed.

Lemma includeV2Buildpack_Ok f i w w' :
  staging_apart f →
  includeV2Buildpack f i w = (Ok (), w') →
  CF_STACK w' = CF_STACK w ∧
  calls w' = calls w ++ CallStat (v2Layer f i)
                         :: (if hasOutput f (disk w) i then injectionCalls f i else []) ∧
  get (GroupMetadata f) (disk w')
    = withRefs (if hasOutput f (disk w) i then [legacyID i] else [])
               (get (GroupMetadata f) (disk w)) ∧
  (hasOutput f (disk w) i = true →
     ∃ g, get (GroupMetadata f) (disk w) = Some (File (GroupTOML g))) ∧
  (∀ q, apart (v2Layer f i) q → apart (V3LayersDir f) q →
        apart (V3BuildpacksDir f) q → apart (GroupMetadata f) q →
        get q (disk w') = get q (disk w)).
Proof.
  intros (Hdl & Hdb & Hdg & Hlg & Hbg).
  unfold includeV2Buildpack. fold (v2Layer f i). fold (legacyID i).
  rewrite bind_run, log_run, bind_run, attempt_Stat_run, notExist_Stat.
  set (w0 := mkWorld (disk w) (CF_STACK w) (calls w ++ [CallStat (v2Layer f i)])).
  change (disk w0) with (disk w).
  destruct (absent (v2Layer f i) (disk w)) eqn:Habs.
  - intros [= <-]. apply absent_get in Habs.
    assert (hasOutput f (disk w) i = false) as ->.
    { unfold hasOutput. rewrite Habs. apply bool_decide_eq_false. by intros [? ?]. }
    simpl. split; [done|]. split; [done|]. split; [done|].
    split; [done|]. done.
  - intros H.
    apply bind_Ok in H as ([] & w1 & H1 & H).
    apply bind_Ok in H as ([] & w2 & H2 & H).
    apply bind_Ok in H as ([] & w3 & H3 & H).
    apply bind_Ok in H as ([] & w4 & H4 & H5).
    apply MoveV2Layers_Ok in H1 as (Hc1 & Hs1 & Hout & _ & Hf1);
      [|by apply apart_app_l].
    apply WriteLayerMetadata_Ok in H2 as (Hc2 & Hs2 & _ & Hf2).
    apply RenameEnvDir_Ok in H3 as (Hc3 & Hs3 & Hf3).
    apply UpdateGroupTOML_Ok in H4 as (Hc4 & Hs4 & (g & Hg3 & Hg4) & Hf4).
    apply AddFakeCNBBuildpack_Ok in H5 as (Hc5 & Hs5 & Hf5).
    assert (Hframe : ∀ q, apart (v2Layer f i) q → apart (V3LayersDir f) q →
                          get q (disk w3) = get q (disk w)).
    { intros q Hq1 Hq2.
      rewrite Hf3 by (rewrite <- app_assoc; by apply apart_app_l).
      rewrite Hf2 by (by apply apart_not_prefix).
      by apply Hf1. }
    assert (hasOutput f (disk w) i = true) as -> by by apply hasOutput_true.
    split; [by rewrite Hs5, Hs4, Hs3, Hs2, Hs1|]. split.
    { rewrite Hc5, Hc4, Hc3, Hc2, Hc1. simpl. rewrite <- !app_assoc. done. }
    assert (HG : get (GroupMetadata f) (disk w3) = get (GroupMetadata f) (disk w)).
    { apply Hframe; [by apply apart_app_l | done]. }
    split; [|split].
    + rewrite Hf5 by done. rewrite Hg4. rewrite <- HG, Hg3. done.
    + intros _. exists g. by rewrite <- HG.
    + intros q Hq1 Hq2 Hq3 Hq4.
      rewrite Hf5 by done. rewrite Hf4 by apply Hq4. by apply Hframe.
Qed.

Lemma descending_S n : descending (S n) = n :: descending n.
Proof. unfold descending. by rewrite seq_S, reverse_app. Qed.

Lemma elem_of_descending i n : i ∈ descending n ↔ i < n.
Proof.
  unfold descending. rewrite elem_of_reverse, list_elem_of_In, in_seq. lia.
Qed.

Lemma injectionLog_ext f (out out' : nat → bool) l :
  (∀ i, i ∈ l → out' i = out i) →
  injectionLog f out' l = injectionLog f out l.
Proof.
  unfold injectionLog. induction l as [|i l IH]; intros H; simpl; [done|].
  rewrite H by left. rewrite IH; [done|]. intros j Hj. apply H. by right.
Qed.

Lemma filter_ext_elem {A} (P Q : A → Prop) `{!∀ x, Decision (P x)}
    `{!∀ x, Decision (Q x)} (l : list A) :
  (∀ x, x ∈ l → P x ↔ Q x) → filter P l = filter Q l.
Proof.
  induction l as [|x l IH]; intros Hext; [done|].
  assert (HPQ : P x ↔ Q x) by (apply Hext; left).
  assert (Hl : filter P l = filter Q l) by (apply IH; intros y Hy; apply Hext; by right).
  destruct (decide (P x)) as [Hp|Hp].
  - rewrite !filter_cons_True by tauto. by rewrite Hl.
  - rewrite !filter_cons_False by tauto. done.
Qed.

Lemma filter_all {A} (P : A → Prop) `{!∀ x, Decision (P x)} (l : list A) :
  (∀ x, x ∈ l → P x) → filter P l = l.
Proof.
  induction l as [|x l IH]; intros Hall; [done|].
  rewrite filter_cons_True by (apply Hall; left).
  rewrite IH; [done|]. intros y Hy. apply Hall. by right.
Qed.

Lemma filter_hasOutput_ext f d d' n :
  (∀ i, i < n → hasOutput f d' i = hasOutput f d i) →
  filter (λ i, hasOutput f d' i = true) (seq 0 n)
  = filter (λ i, hasOutput f d i = true) (seq 0 n).
Proof.
  intros H. apply filter_ext_elem. intros i Hi.
  apply list_elem_of_In, in_seq in Hi. rewrite H by lia. done.
Qed.

Lemma withRefs_app ids1 ids2 o :
  (ids2 ≠ [] → ∃ g, o = Some (File (GroupTOML g))) →
  withRefs ids1 (withRefs ids2 o) = withRefs (ids1 ++ ids2) o.
Proof.
  intros H. destruct ids2 as [|b ids2].
  - by rewrite app_nil_r.
  - destruct H as [g ->]; [done|]. destruct ids1 as [|a ids1]; [done|].
    simpl. by rewrite !map_app, <- !app_assoc.
Qed.

Lemma includeLoop_Ok f n w w' :
  staging_apart f →
  includeLoop f n w = (Ok (), w') →
  CF_STACK w' = CF_STACK w ∧
  calls w' = calls w ++ injectionLog f (hasOutput f (disk w)) (descending n) ∧
  get (GroupMetadata f) (disk w')
    = withRefs (injectedIDs f (disk w) n) (get (GroupMetadata f) (disk w)) ∧
  (injectedIDs f (disk w) n ≠ [] →
     ∃ g, get (GroupMetadata f) (disk w) = Some (File (GroupTOML g))) ∧
  (∀ q, (∀ i, i < n → apart (v2Layer f i) q) → apart (V3LayersDir f) q →
        apart (V3BuildpacksDir f) q → apart (GroupMetadata f) q →
        get q (disk w') = get q (disk w)).
Proof.
  intros Hst. revert w. unfold injectedIDs.
  induction n as [|n IH]; intros w.
  - simpl. intros [= <-]. unfold injectionLog, descending. simpl. rewrite app_nil_r.
    repeat split; done.
  - cbn [includeLoop]. rewrite bind_run.
    destruct (includeV2Buildpack f n w) as [[[]|e] w1] eqn:Hb; [|done].
    intros Hloop.
    apply includeV2Buildpack_Ok in Hb as (Hs1 & Hc1 & Hg1 & Hex1 & Hf1); [|done].
    apply IH in Hloop as (Hs2 & Hc2 & Hg2 & Hex2 & Hf2).
    pose proof Hst as (Hdl & Hdb & Hdg & Hlg & Hbg).
    assert (Hout : ∀ i, i < n → hasOutput f (disk w1) i = hasOutput f (disk w) i).
    { intros i Hi. apply hasOutput_frame, Hf1.
      - apply v2Layer_apart. lia.
      - apply apart_sym, apart_app_l, Hdl.
      - apply apart_sym, apart_app_l, Hdb.
      - apply apart_sym, apart_app_l, Hdg. }
    rewrite (filter_hasOutput_ext f (disk w) (disk w1) n Hout) in Hg2, Hex2.
    rewrite (injectionLog_ext f (hasOutput f (disk w)) (hasOutput f (disk w1))
               (descending n)) in Hc2.
    2:{ intros i Hi. apply Hout. by apply elem_of_descending. }
    rewrite seq_S, filter_app, map_app. simpl.
    set (ids := map legacyID (filter (λ i, hasOutput f (disk w) i = true) (seq 0 n))) in *.
    assert (Hlast : map legacyID (filter (λ i, hasOutput f (disk w) i = true) [n])
                    = if hasOutput f (disk w) n then [legacyID n] else []).
    { destruct (hasOutput f (disk w) n) eqn:Hn.
      - by rewrite filter_cons_True.
      - rewrite filter_cons_False; [done|]. by rewrite Hn. }
    rewrite Hlast.
    split; [congruence|]. split; [|split; [|split]].
    + rewrite Hc2, Hc1, descending_S, <- app_assoc. done.
    + rewrite Hg2, Hg1. apply withRefs_app.
      destruct (hasOutput f (disk w) n); [intros _; by apply Hex1 | done].
    + intros Hne. destruct (hasOutput f (disk w) n) eqn:Hn; [by apply Hex1|].
      rewrite app_nil_r in Hne. destruct (Hex2 Hne) as [g Hg].
      rewrite Hg1 in Hg. simpl in Hg. eauto.
    + intros q Hq1 Hq2 Hq3 Hq4. rewrite Hf2; [|intros i Hi; apply Hq1; lia|done..].
      apply Hf1; [apply Hq1; lia | done..].
Qed.

Lemma Atoi_range s k : Atoi s = Ok k → (- 2 ^ 63 ≤ k < 2 ^ 63)%Z.
Proof.
  unfold Atoi.
  destruct (match s with
            | String "+" s' => (false, s')
            | String "-" s' => (true, s')
            | _ => (false, s)
            end) as [neg body].
  destruct body; [done|]. destruct (digits 0 _) as [n|]; [|done].
  destruct (decide _); [|done]. by intros [= <-].
Qed.

Lemma loop_count k :
  (0 ≤ k < 2 ^ 63)%Z → Z.to_nat (wrap64 (k - 1) + 1) = Z.to_nat k.
Proof.
  intros Hk. unfold wrap64. rewrite Z.mod_small by lia. f_equal. lia.
Qed.

Lemma DepsIndex_not_legacy f k i :
  Atoi (DepsIndex f) = Ok k → i < Z.to_nat k → DepsIndex f ≠ Itoa (Z.of_nat i).
Proof.
  intros Hk Hi Heq. pose proof (Atoi_range _ _ Hk) as Hr.
  rewrite Heq, Atoi_Itoa in Hk by lia. simplify_eq. lia.
Qed.

Lemma IncludePreviousV2Buildpacks_Ok f w w' k :
  staging_apart f →
  Atoi (DepsIndex f) = Ok k →
  (0 ≤ k)%Z →
  IncludePreviousV2Buildpacks f w = (Ok (), w') →
  calls w' = calls w ++ injectionLog f (hasOutput f (disk w)) (descending (Z.to_nat k)) ∧
  get (GroupMetadata f) (disk w')
    = withRefs (injectedIDs f (disk w) (Z.to_nat k)) (get (GroupMetadata f) (disk w)) ∧
  (injectedIDs f (disk w) (Z.to_nat k) ≠ [] →
     ∃ g, get (GroupMetadata f) (disk w) = Some (File (GroupTOML g))) ∧
  get (V2DepsDir f ++ [DepsIndex f]) (disk w') = None.
Proof.
  intros Hst Hk Hk0. pose proof Hst as (Hdl & Hdb & Hdg & Hlg & Hbg).
  unfold IncludePreviousV2Buildpacks. rewrite bind_run. unfold lift. rewrite Hk.
  rewrite loop_count by (pose proof (Atoi_range _ _ Hk); lia).
  rewrite bind_run.
  destruct (os_RemoveAll _ w) as [[[]|e] w0] eqn:Hrm; [|done].
  apply syscall_Ok in Hrm as (d0 & Hrm & ->). intros Hloop.
  apply includeLoop_Ok in Hloop as (_ & Hc & Hg & Hex & Hf); [|done].
  simpl in Hc, Hg, Hex, Hf.
  assert (Hown : ∀ i, i < Z.to_nat k → apart (V2DepsDir f ++ [DepsIndex f]) (v2Layer f i)).
  { intros i Hi. apply apart_snoc_ne. by eapply DepsIndex_not_legacy. }
  assert (Hout : ∀ i, i < Z.to_nat k → hasOutput f d0 i = hasOutput f (disk w) i).
  { intros i Hi. apply hasOutput_frame.
    by apply (removeAll_get_apart _ _ _ _ Hrm), Hown. }
  assert (HG : get (GroupMetadata f) d0 = get (GroupMetadata f) (disk w)).
  { apply (removeAll_get_apart _ _ _ _ Hrm). by apply apart_app_l. }
  unfold injectedIDs in *.
  rewrite (filter_hasOutput_ext f (disk w) d0 _ Hout) in Hg, Hex.
  rewrite (injectionLog_ext f (hasOutput f (disk w)) (hasOutput f d0)) in Hc.
  2:{ intros i Hi. apply Hout. by apply elem_of_descending. }
  rewrite HG in Hg, Hex. split; [done|]. split; [done|]. split; [done|].
  rewrite Hf.
  - pose proof (removeAll_get _ _ _ [] Hrm) as H0. by rewrite app_nil_r in H0.
  - intros i Hi. by apply apart_sym, Hown.
  - apply apart_sym, apart_app_l, Hdl.
  - apply apart_sym, apart_app_l, Hdb.
  - apply apart_sym, apart_app_l, Hdg.
Qed.

(** C3. With the staging directories apart, the deps index the text of
    [N], every legacy index below [N] with output on the disk and the
    detected group [g] in the group metadata file, a run of
    [IncludePreviousV2Buildpacks] that completes leaves in the group
    metadata file the references [buildpack.0], ..., [buildpack.(N-1)], in
    this order, followed by the references of [g]. *)
Theorem IncludePreviousV2Buildpacks_group_order
    (f : Finalizer) (w w' : World) (N : nat) (g : group) :
  staging_apart f →
  Atoi (DepsIndex f) = Ok (Z.of_nat N) →
  (∀ i, i < N → is_Some (get (v2Layer f i) (disk w))) →
  get (GroupMetadata f) (disk w) = Some (File (GroupTOML g)) →
  IncludePreviousV2Buildpacks f w = (Ok (), w') →
  get (GroupMetadata f) (disk w')
    = Some (File (GroupTOML
        (mkGroup (map (λ i, ref (legacyID i)) (seq 0 N) ++ Buildpacks g)))).
Proof.
  intros Hst Hk Hall Hg Hrun.
  destruct (IncludePreviousV2Buildpacks_Ok f w w' _ Hst Hk (Zle_0_nat N) Hrun)
    as (_ & HG & _ & _).
  rewrite Nat2Z.id in HG. rewrite HG, Hg. unfold injectedIDs.
  assert (filter (λ i, hasOutput f (disk w) i = true) (seq 0 N) = seq 0 N) as ->.
  { apply filter_all. intros i Hi. apply list_elem_of_In, in_seq in Hi.
    apply hasOutput_true, Hall. lia. }
  destruct (seq 0 N) as [|i l] eqn:Hseq.
  - simpl. by destruct g.
  - simpl. by rewrite map_map.
Qed.

Lemma IncludePreviousV2Buildpacks_group_order_witness :
  ∃ w', IncludePreviousV2Buildpacks exFinalizer exWorld = (Ok (), w') ∧
    get (GroupMetadata exFinalizer) (disk w')
      = Some (File (GroupTOML
          (mkGroup [ref "buildpack.0"; ref "buildpack.1"; ref "lang-b"]))).
Proof.
  exists (snd (IncludePreviousV2Buildpacks exFinalizer exWorld)). split.
  - vm_compute. reflexivity.
  - apply (IncludePreviousV2Buildpacks_group_order exFinalizer exWorld _ 2
             (mkGroup [ref "lang-b"])).
    + vm_compute. repeat split; intros [k Hk]; discriminate.
    + vm_compute. reflexivity.
    + intros i Hi. destruct i as [|[|i]]; [vm_compute; eauto..|lia].
    + reflexivity.
    + vm_compute. reflexivity.
Defined.

(** C4, as amended. With the staging directories apart and the deps index
    parsed as [k], not negative, a run of [IncludePreviousV2Buildpacks]
    that completes has visited the indices [k - 1], ..., [0], in this
    order: its calls are, index by index in this order, the probe of the
    deps directory of the index, followed by the five injection steps for
    an index with output on the disk and by nothing for an index without.
    The current index [k] itself is not visited: its directory is removed
    before the visit starts. *)
Theorem IncludePreviousV2Buildpacks_iteration
    (f : Finalizer) (w w' : World) (k : Z) :
  staging_apart f →
  Atoi (DepsIndex f) = Ok k →
  (0 ≤ k)%Z →
  IncludePreviousV2Buildpacks f w = (Ok (), w') →
  calls w' = calls w ++ injectionLog f (hasOutput f (disk w)) (descending (Z.to_nat k)) ∧
  get (V2DepsDir f ++ [DepsIndex f]) (disk w') = None.
Proof.
  intros Hst Hk Hk0 Hrun.
  destruct (IncludePreviousV2Buildpacks_Ok f w w' _ Hst Hk Hk0 Hrun)
    as (Hc & _ & _ & Hown).
  done.
Qed.

Lemma IncludePreviousV2Buildpacks_iteration_witness :
  ∃ w', IncludePreviousV2Buildpacks exFinalizer exWorld = (Ok (), w') ∧
    calls w' = CallStat ["tmp"; "deps"; "1"] :: injectionCalls exFinalizer 1
               ++ CallStat ["tmp"; "deps"; "0"] :: injectionCalls exFinalizer 0 ∧
    get ["tmp"; "deps"; "2"] (disk w') = None.
Proof.
  exists (snd (IncludePreviousV2Buildpacks exFinalizer exWorld)). split.
  - vm_compute. reflexivity.
  - apply (IncludePreviousV2Buildpacks_iteration exFinalizer exWorld _ 2).
    + vm_compute. repeat split; intros [k Hk]; discriminate.
    + vm_compute. reflexivity.
    + lia.
    + vm_compute. reflexivity.
Defined.

(** C4, as stated, fails: in the scenario the finalizer runs as buildpack 2
    and the run is not a visit of the indices 2, 1, 0, whichever of them
    are taken to have output: the first index probed is 1, and although the
    directory of index 2 exists when the run starts, no injection step is
    performed for it. *)
Lemma IncludePreviousV2Buildpacks_starts_below_current :
  ¬ (∀ (f : Finalizer) (w w' : World) (k : Z),
       staging_apart f →
       Atoi (DepsIndex f) = Ok k →
       (0 ≤ k)%Z →
       IncludePreviousV2Buildpacks f w = (Ok (), w') →
       ∃ out : nat → bool,
         calls w' = calls w ++ injectionLog f out (descending (S (Z.to_nat k)))).
Proof.
  intros H.
  specialize (H exFinalizer exWorld
                (snd (IncludePreviousV2Buildpacks exFinalizer exWorld)) 2%Z).
  assert (Hst : staging_apart exFinalizer).
  { vm_compute. repeat split; intros [k Hk]; discriminate. }
  specialize (H Hst eq_refl ltac:(lia)).
  destruct H as [out H]; [vm_compute; reflexivity|].
  vm_compute in H. discriminate.
Qed.

(** ** Copying trees *)

Lemma node_ind' (P : node → Prop) :
  (∀ c, P (File c)) →
  (∀ es, Forall (λ e, P e.2) es → P (Dir es)) →
  ∀ n, P n.
Proof.
  intros HF HD. fix IH 1. intros [c|es]; [apply HF|].
  apply HD. induction es as [|[c ch] es IHes]; constructor; [apply IH | apply IHes].
Qed.

Lemma copyTree_Dir es d :
  copyTree (Dir es) d =
    match d with
    | Some (File _) => Err ENOTDIR
    | _ => match copyEntries es (match d with Some (Dir ds) => ds | _ => [] end) with
           | Ok ds' => Ok (Dir ds')
           | Err e => Err e
           end
    end.
Proof. by destruct d as [[]|]. Qed.

Lemma copyEntries_cons c ch es ds :
  copyEntries ((c, ch) :: es) ds =
    match copyTree ch (assoc c ds) with
    | Ok r => copyEntries es (set_entry c r ds)
    | Err e => Err e
    end.
Proof. reflexivity. Qed.

Lemma wfb_Dir es :
  wfb (Dir es) = true ↔ NoDup (map fst es) ∧ Forall (λ e, wfb e.2 = true) es.
Proof.
  simpl. rewrite andb_true_iff, bool_decide_eq_true.
  apply and_iff_compat_l.
  induction es as [|[c ch] es IH]; simpl.
  - split; [constructor | done].
  - rewrite andb_true_iff, IH, Forall_cons. done.
Qed.

Lemma wfb_get p n m : wfb n = true → get p n = Some m → wfb m = true.
Proof.
  revert n. induction p as [|c p IH]; intros n Hwf; simpl.
  - by intros [= <-].
  - destruct n as [?|es]; [done|].
    destruct (assoc c es) as [ch|] eqn:Ha; [|done].
    apply IH. apply wfb_Dir in Hwf as [_ Hall].
    rewrite Forall_forall in Hall. by apply (Hall (c, ch)), assoc_Some_elem.
Qed.

Lemma copyEntries_spec es ds ds' :
  NoDup (map fst es) →
  Forall (λ e, ∀ d r, copyTree e.2 d = Ok r → contains r e.2) es →
  copyEntries es ds = Ok ds' →
  (∀ c ch, (c, ch) ∈ es → ∃ r, assoc c ds' = Some r ∧ contains r ch) ∧
  (∀ c, c ∉ map fst es → assoc c ds' = assoc c ds).
Proof.
  revert ds. induction es as [|[c ch] es IH]; intros ds Hnd Hall.
  - intros [= <-]. split; [|done]. intros c ch H. by apply elem_of_nil in H.
  - rewrite copyEntries_cons.
    destruct (copyTree ch (assoc c ds)) as [r|] eqn:Hch; [|done].
    intros Hgo. simpl in Hnd. apply NoDup_cons in Hnd as [Hc Hnd].
    apply Forall_cons in Hall as [Hchild Hall].
    destruct (IH _ Hnd Hall Hgo) as [Hin Hout]. split.
    + intros c' ch' [[= -> ->]|H]%elem_of_cons; [|by apply Hin].
      exists r. split; [|by eapply Hchild].
      rewrite (Hout c Hc). apply assoc_set_entry_eq.
    + intros c' [Hne Hnin]%not_elem_of_cons. rewrite (Hout c' Hnin).
      by apply assoc_set_entry_ne.
Qed.

(** What [copyTree] returns holds the whole source tree. *)
Lemma copyTree_contains s :
  wfb s = true → ∀ d r, copyTree s d = Ok r → contains r s.
Proof.
  induction s as [c|es IH] using node_ind'; intros Hwf d r.
  - simpl. intros Hr. assert (r = File c) as -> by (by destruct d as [[]|]; simplify_eq).
    intros [|x p]; simpl; done.
  - rewrite copyTree_Dir. apply wfb_Dir in Hwf as [Hnd Hwf].
    intros Hr.
    assert (∃ ds ds', copyEntries es ds = Ok ds' ∧ r = Dir ds') as (ds & ds' & Hgo & ->).
    { destruct d as [[?|ds]|]; [done| |].
      - destruct (copyEntries es ds) as [ds'|] eqn:Hgo; [|done]. simplify_eq. eauto.
      - destruct (copyEntries es []) as [ds'|] eqn:Hgo; [|done]. simplify_eq. eauto. }
    apply copyEntries_spec in Hgo as [Hin _]; [|done|].
    2:{ rewrite Forall_forall in IH, Hwf. apply Forall_forall.
        intros e He. apply IH; [done | by apply Hwf]. }
    intros [|c p]; [simpl; eauto|].
    rewrite get_cons_Dir. destruct (assoc c es) as [ch|] eqn:Ha; [|done].
    destruct (Hin c ch (assoc_Some_elem _ _ _ Ha)) as (r & Hr' & Hcont).
    rewrite get_cons_Dir, Hr'. simpl. apply (Hcont p).
Qed.

Lemma contains_refl n : contains n n.
Proof. intros p. destruct (get p n) as [[]|]; eauto. Qed.

Lemma copyDirectory_spec src dst d d' :
  (∀ n, get src d = Some n → wfb n = true) → apart src dst →
  copyDirectory src dst d = Ok d' →
  copied src d dst d' ∧
  (∀ q, apart dst q → get q d' = get q d).
Proof.
  intros Hwf Hap. unfold copyDirectory.
  destruct (walk src d) as [[?|es]|] eqn:Hsrc; [done| |done].
  apply walk_Ok_get in Hsrc. intros Hu. split.
  - apply upd_root_get in Hu as (r & Hr & Hs). exists es.
    destruct (get dst d) as [[?|ds]|]; [done| |done].
    destruct (copyTree (Dir es) (Some (Dir ds))) as [t|] eqn:Hc; [|done].
    simplify_eq. exists t. split; [done|]. split.
    + specialize (Hs []). by rewrite app_nil_r in Hs.
    + eapply copyTree_contains; [|done]. by apply Hwf.
  - intros q Hq. by apply (upd_root_get_apart _ _ _ _ q Hu).
Qed.

(** ** Names of layers and of their sidecars *)

Lemma string_app_ne l suf : suf ≠ "" → l ≠ l +:+ suf.
Proof.
  intros Hs H. apply (f_equal String.length) in H.
  rewrite !string_length_app in H. destruct suf; [done | simpl in H; lia].
Qed.

Lemma strip_suffix_Some suf s stem : strip_suffix suf s = Some stem → s = stem +:+ suf.
Proof.
  revert stem. induction s as [|x s IH]; intros stem; simpl.
  - destruct (decide ("" = suf)) as [<-|]; [by intros [= <-] | done].
  - destruct (decide (String x s = suf)) as [<-|]; [by intros [= <-]|].
    destruct (strip_suffix suf s) as [t|]; [|done].
    simpl. intros [= <-].
    change (String x t +:+ suf) with (String x (t +:+ suf)). f_equal. by apply IH.
Qed.

Lemma is_toml_stem name : is_toml name = true ↔ ∃ stem, name = stem +:+ ".toml".
Proof.
  unfold is_toml. rewrite bool_decide_eq_true. split.
  - intros [stem H]. exists stem. by apply strip_suffix_Some.
  - intros [stem ->]. rewrite strip_suffix_app. eauto.
Qed.

Lemma trimTOML_snoc p stem : trimTOML (p ++ [stem +:+ ".toml"]) = p ++ [stem].
Proof.
  unfold trimTOML. rewrite last_snoc, removelast_last, strip_suffix_app. done.
Qed.

Lemma dir_of_snoc p c : c ≠ "" → dir_of (p ++ [c]) = p ++ [c].
Proof. intros Hc. unfold dir_of. rewrite last_snoc. by destruct c. Qed.

Lemma Base_snoc p c : c ≠ "" → Base (p ++ [c]) = c.
Proof. intros Hc. unfold Base. rewrite dir_of_snoc by done. by rewrite last_snoc. Qed.

Lemma prefix_snoc_inv' (q r : path) x :
  q `prefix_of` r ++ [x] → q `prefix_of` r ∨ q = r ++ [x].
Proof.
  intros [k Hk]. destruct k as [|y k _] using rev_ind.
  - right. by rewrite app_nil_r in Hk.
  - left. rewrite app_assoc in Hk. apply app_inj_tail in Hk as [-> _].
    by apply prefix_app_r.
Qed.

(** ** Persisting one layer *)

Lemma CopyFile_Ok src dst w w' :
  CopyFile src dst w = (Ok (), w') →
  ∃ c d, get src (disk w) = Some (File c) ∧ writeFile dst c (disk w) = Ok d ∧
         w' = set_disk w d.
Proof.
  unfold CopyFile. rewrite bind_run. unfold ioutil_ReadFile.
  destruct (walk src (disk w)) as [[c|]|] eqn:Hw; [|done|done].
  apply walk_Ok_get in Hw. intros (d & Hd & ->)%syscall_Ok. eauto.
Qed.

Lemma CopyDirectory_Ok src dst w w' :
  CopyDirectory src dst w = (Ok (), w') →
  ∃ d, copyDirectory src dst (disk w) = Ok d ∧ w' = set_disk w d.
Proof. apply syscall_Ok. Qed.

Lemma not_prefix_snoc (r : path) x : ¬ r ++ [x] `prefix_of` r.
Proof.
  intros [k Hk]. apply (f_equal length) in Hk.
  rewrite !length_app in Hk. simpl in Hk. lia.
Qed.

(** Paths under the layers directory are out of the way of the cache. *)
Lemma layers_off_cache layersPath root s x :
  apart layersPath root →
  ¬ layersPath ++ s `prefix_of` root ∧
  layersPath ++ s ≠ root ++ x ∧
  apart (root ++ x) (layersPath ++ s).
Proof.
  intros Hap. split; [|split].
  - intros H. destruct Hap as [Ha _]. apply Ha. by eapply prefix_app_l.
  - intros H. apply (apart_not_prefix_app _ _ x Hap).
    rewrite <- H. by apply prefix_app_r.
  - by apply apart_app_l, apart_app_r, apart_sym.
Qed.

Lemma cacheLayer_Ok f layersPath bp l w w' :
  l ≠ "" →
  apart layersPath (cacheRoot f bp) →
  (∀ n, get (layersPath ++ [l]) (disk w) = Some n → wfb n = true) →
  cacheLayer f (layersPath ++ [l]) bp l w = (Ok (), w') →
  same_session w w' ∧
  (∃ c, get (layersPath ++ [l +:+ ".toml"]) (disk w) = Some (File c) ∧
        get (cacheRoot f bp ++ [l +:+ ".toml"]) (disk w') = Some (File c)) ∧
  copied (layersPath ++ [l]) (disk w) (cacheRoot f bp ++ [l]) (disk w') ∧
  (∀ q, ¬ q `prefix_of` cacheRoot f bp →
        q ≠ cacheRoot f bp ++ [l +:+ ".toml"] →
        apart (cacheRoot f bp ++ [l]) q →
        get q (disk w') = get q (disk w)).
Proof.
  intros Hl Hap Hwf. unfold cacheLayer.
  replace (V2CacheDir f ++ ["cnb"; bp; l]) with (cacheRoot f bp ++ [l])
    by (unfold cacheRoot; by rewrite <- app_assoc).
  rewrite !path_append_snoc, dir_of_snoc by done.
  set (root := cacheRoot f bp) in *.
  intros H.
  apply bind_Ok in H as ([] & w1 & H1 & H).
  apply bind_Ok in H as ([] & w2 & H2 & H3).
  pose proof (syscall_session _ _ _ _ H1) as [Hs1 Hc1].
  assert (F1 : ∀ q, ¬ q `prefix_of` root ++ [l] → get q (disk w1) = get q (disk w))
    by (intros q Hq; by apply (os_MkdirAll_frame _ _ _ q H1)).
  apply CopyFile_Ok in H2 as (c & d2 & Hside & Hwr & ->).
  apply CopyDirectory_Ok in H3 as (d3 & Hcp & ->). simpl in *.
  assert (F2 : ∀ q, ¬ q `prefix_of` root ++ [l +:+ ".toml"] → get q d2 = get q (disk w1))
    by (intros q Hq; by apply (writeFile_get_other _ _ _ _ q Hwr)).
  assert (Hoff : ∀ s x, ¬ layersPath ++ s `prefix_of` root ++ x).
  { intros s x H. destruct (layers_off_cache layersPath root s x Hap) as (_ & _ & [_ Hn]).
    by apply Hn. }
  assert (Hsrc : get (layersPath ++ [l]) d2 = get (layersPath ++ [l]) (disk w)).
  { rewrite F2, F1 by apply Hoff. done. }
  apply copyDirectory_spec in Hcp as [Hcopied F3].
  2:{ intros n. rewrite Hsrc. apply Hwf. }
  2:{ apply apart_sym. by apply (layers_off_cache layersPath root [l] [l]). }
  split; [by split|]. split; [|split].
  - exists c. split.
    + by rewrite <- (F1 _ (Hoff _ _)).
    + rewrite F3 by (apply apart_snoc_ne; by apply string_app_ne).
      by apply writeFile_get in Hwr.
  - destruct Hcopied as (s & t & Hs & Ht & Hcont). exists s, t.
    by rewrite <- Hsrc.
  - intros q Hq1 Hq2 Hq3. rewrite F3 by done.
    rewrite F2, F1; [done|apply Hq3|].
    intros [?|?]%prefix_snoc_inv'; done.
Qed.

Lemma ReadLayerMetadata_Ok f p w m w' :
  ReadLayerMetadata f p w = (Ok m, w') →
  w' = w ∧ get p (disk w) = Some (File (LayerTOML m)).
Proof.
  unfold ReadLayerMetadata, DecodeFile_LayerMetadata, decode.
  rewrite bind_run. unfold ioutil_ReadFile.
  destruct (walk p (disk w)) as [[c|]|] eqn:Hw; [|done|done].
  apply walk_Ok_get in Hw. unfold unmarshal. destruct c; try done.
  by intros [= -> <-].
Qed.

(** ** The loop over the sidecars *)

Lemma wfb_below p d s n :
  (∀ n, get p d = Some n → wfb n = true) → get (p ++ s) d = Some n → wfb n = true.
Proof.
  intros Hwf. rewrite get_app. destruct (get p d) as [m|] eqn:Hm; [|done].
  simpl. apply wfb_get. by apply Hwf.
Qed.

Lemma same_session_trans w1 w2 w3 :
  same_session w1 w2 → same_session w2 w3 → same_session w1 w3.
Proof. intros [? ?] [? ?]. split; congruence. Qed.

Lemma cacheIfAsked_Ok f layersPath bp stem w w' :
  stem ≠ "" →
  apart layersPath (cacheRoot f bp) →
  (∀ n, get layersPath (disk w) = Some n → wfb n = true) →
  cacheIfAsked f bp (layersPath ++ [stem +:+ ".toml"]) w = (Ok (), w') →
  same_session w w' ∧
  ∃ m, get (layersPath ++ [stem +:+ ".toml"]) (disk w) = Some (File (LayerTOML m)) ∧
    (Cache m = true →
       get (cacheRoot f bp ++ [stem +:+ ".toml"]) (disk w') = Some (File (LayerTOML m)) ∧
       copied (layersPath ++ [stem]) (disk w) (cacheRoot f bp ++ [stem]) (disk w')) ∧
    (∀ q, ¬ q `prefix_of` cacheRoot f bp →
          (Cache m = true →
             q ≠ cacheRoot f bp ++ [stem +:+ ".toml"] ∧ apart (cacheRoot f bp ++ [stem]) q) →
          get q (disk w') = get q (disk w)).
Proof.
  intros Hstem Hap Hwf Hb. unfold cacheIfAsked in Hb.
  apply bind_Ok in Hb as (m & w0 & Hrd & Hb).
  apply ReadLayerMetadata_Ok in Hrd as [-> Hm].
  rewrite trimTOML_snoc, Base_snoc in Hb by done.
  destruct (Cache m) eqn:Hc.
  - apply cacheLayer_Ok in Hb as (Hs & (c & Hc1 & Hc2) & Hcp & Hfr);
      [|done|done|intros n; by apply wfb_below].
    split; [done|]. exists m. split; [done|]. split.
    + intros _. rewrite Hm in Hc1. by simplify_eq.
    + intros q Hq1 Hq2. destruct (Hq2 Hc). by apply Hfr.
  - injection Hb as <-. split; [by split|]. exists m. split; [done|].
    split; [intros; congruence | done].
Qed.

Lemma cacheLoop_Ok f layersPath bp names w w' :
  apart layersPath (cacheRoot f bp) →
  NoDup names →
  (∀ n, n ∈ names → ∃ stem, n = stem +:+ ".toml" ∧ stem ≠ "") →
  (∀ n, get layersPath (disk w) = Some n → wfb n = true) →
  forM_ (map (λ n, layersPath ++ [n]) names) (cacheIfAsked f bp) w = (Ok (), w') →
  same_session w w' ∧
  (∀ stem, stem +:+ ".toml" ∈ names →
     ∃ m, get (layersPath ++ [stem +:+ ".toml"]) (disk w) = Some (File (LayerTOML m)) ∧
       (Cache m = true →
          get (cacheRoot f bp ++ [stem +:+ ".toml"]) (disk w')
            = Some (File (LayerTOML m)) ∧
          copied (layersPath ++ [stem]) (disk w) (cacheRoot f bp ++ [stem]) (disk w'))) ∧
  (∀ q, ¬ q `prefix_of` cacheRoot f bp →
        (∀ stem, stem +:+ ".toml" ∈ names → cachedStem layersPath (disk w) stem →
           q ≠ cacheRoot f bp ++ [stem +:+ ".toml"] ∧ apart (cacheRoot f bp ++ [stem]) q) →
        get q (disk w') = get q (disk w)).
Proof.
  intros Hap. set (root := cacheRoot f bp) in *. revert w.
  induction names as [|n ns IH]; intros w Hnd Hstems Hwf.
  - simpl. intros [= <-]. split; [done|]. split; [|done].
    intros stem H. by apply elem_of_nil in H.
  - apply NoDup_cons in Hnd as [Hn Hnd].
    destruct (Hstems n) as (stem & -> & Hstem); [left|].
    cbn [map forM_]. rewrite bind_run.
    destruct (cacheIfAsked f bp _ w) as [[[]|e] w1] eqn:Hb; [|done].
    intros Hloop.
    apply cacheIfAsked_Ok in Hb as (Hs1 & m & Hm & Hcached1 & Hfr1); [|done..].
    fold root in Hcached1, Hfr1.
    assert (Hlayers : ∀ s, get (layersPath ++ s) (disk w1) = get (layersPath ++ s) (disk w)).
    { intros s. apply Hfr1.
      - by apply (layers_off_cache layersPath root s []).
      - intros _. split.
        + by apply (layers_off_cache layersPath root s [stem +:+ ".toml"]).
        + by apply (layers_off_cache layersPath root s [stem]). }
    apply IH in Hloop as (Hs2 & HB2 & HC2); [|done| |].
    2:{ intros n0 Hn0. apply Hstems. by right. }
    2:{ intros n0. specialize (Hlayers []). rewrite !app_nil_r in Hlayers.
        rewrite Hlayers. apply Hwf. }
    assert (Hcs : ∀ stem', cachedStem layersPath (disk w1) stem' →
                           cachedStem layersPath (disk w) stem').
    { unfold cachedStem. intros stem' (m' & H1 & H2). rewrite Hlayers in H1. eauto. }
    split; [by eapply same_session_trans|]. split.
    + intros stem' [Heq|Hin]%elem_of_cons.
      * apply string_app_inj_r in Heq as ->. exists m. split; [done|]. intros Hc.
        destruct (Hcached1 Hc) as [Hside Hcp].
        assert (Hkeep : ∀ x, x = stem +:+ ".toml" ∨ x = stem →
                  get (root ++ [x]) (disk w') = get (root ++ [x]) (disk w1)).
        { intros x Hx. apply HC2; [apply not_prefix_snoc|].
          intros stem'' Hin'' Hcs''.
          assert (stem'' ≠ stem) by (intros ->; done).
          destruct (HB2 stem'' Hin'') as (m'' & Hm'' & Hc'').
          destruct Hcs'' as (m2 & Hm2 & Hcm2). rewrite Hm'' in Hm2. simplify_eq.
          destruct (Hc'' Hcm2) as [_ (s'' & t'' & Hdir'' & _)].
          destruct Hcp as (s0 & t0 & Hdir0 & _ & _).
          destruct Hx as [-> | ->].
          - split.
            + intros H'%app_inv_head. injection H' as H'%string_app_inj_r. done.
            + apply apart_snoc_ne. intros ->.
              rewrite Hlayers, Hm in Hdir''. discriminate.
          - split.
            + intros H'%app_inv_head. injection H' as ->.
              rewrite Hlayers in Hm''. congruence.
            + by apply apart_snoc_ne. }
        split.
        -- rewrite Hkeep by auto. done.
        -- destruct Hcp as (s0 & t0 & H1 & H2 & H3). exists s0, t0.
           split; [done|]. split; [|done]. rewrite Hkeep by auto. done.
      * destruct (HB2 stem' Hin) as (m' & Hm' & Hc'). exists m'.
        rewrite Hlayers in Hm'. split; [done|]. intros Hc.
        destruct (Hc' Hc) as [H1 (s & t & H2 & H3 & H4)]. split; [done|].
        exists s, t. rewrite Hlayers in H2. done.
    + intros q Hq1 Hq2. rewrite HC2; [apply Hfr1; [done|] | done | ].
      * intros Hc. apply Hq2; [left | by exists m].
      * intros stem'' Hin'' Hcs''. apply Hq2; [by right | by apply Hcs].
Qed.

(** ** The migration of one buildpack's layers *)

Lemma readdirnames_elem p d n : n ∈ readdirnames p d ↔ is_Some (get (p ++ [n]) d).
Proof.
  unfold readdirnames. rewrite get_app.
  destruct (get p d) as [[c|es]|]; simpl.
  - split; [by intros ?%elem_of_nil | by intros [? ?]].
  - rewrite sort_strings_elem. destruct (assoc n es) as [ch|] eqn:Ha.
    + split; [eauto|]. intros _. apply list_elem_of_fmap. exists (n, ch).
      split; [done | by apply assoc_Some_elem].
    + apply assoc_None_names in Ha. split; [done | by intros [? ?]].
  - split; [by intros ?%elem_of_nil | by intros [? ?]].
Qed.

Lemma readdirnames_NoDup p d : wfb d = true → NoDup (readdirnames p d).
Proof.
  intros Hwf. unfold readdirnames.
  destruct (get p d) as [[c|es]|] eqn:Hg; try constructor.
  apply (wfb_get _ _ _ Hwf) in Hg. apply wfb_Dir in Hg as [Hnd _].
  by rewrite sort_strings_Permutation.
Qed.

Lemma contains_sub t s p s' :
  contains t s → get p s = Some (Dir s') →
  ∃ t', get p t = Some t' ∧ contains t' (Dir s').
Proof.
  intros Hc Hp. pose proof (Hc p) as H. rewrite Hp in H. destruct H as [es' Ht].
  exists (Dir es'). split; [done|]. intros q. specialize (Hc (p ++ q)).
  rewrite !get_app, Hp, Ht in Hc. done.
Qed.

Lemma not_prefix_longer (r : path) x s : ¬ r ++ x :: s `prefix_of` r.
Proof.
  intros [k Hk]. apply (f_equal length) in Hk.
  rewrite !length_app in Hk. simpl in Hk. lia.
Qed.

(** C6. One buildpack's layers directory migrated by [moveV3Layer], with
    the layers directory, the buildpack's durable cache and its place in
    the legacy deps layout apart from one another, no directory listing a
    name twice and no sidecar with an empty layer name. After a run that
    succeeds: a layer whose sidecar has [cache = true] has its sidecar and
    its whole directory tree in the durable cache under (buildpack name,
    layer name), whatever was there before under the same names
    overwritten; for a layer directory whose sidecar has [cache = false] or
    that has no sidecar, the cache holds under that key exactly what it
    held before; and in both cases the whole layers directory, every layer
    directory in it, is in the legacy deps layout under the buildpack's
    name. *)
Theorem moveV3Layer_cache_selectivity
    (f : Finalizer) (layersDir : path) (bp : string) (w w' : World) :
  bp ≠ "" →
  apart (layersDir ++ [bp]) (cacheRoot f bp) →
  apart (layersDir ++ [bp]) (V2DepsDir f ++ [bp]) →
  apart (cacheRoot f bp) (V2DepsDir f ++ [bp]) →
  wfb (disk w) = true →
  get ((layersDir ++ [bp]) ++ [".toml"]) (disk w) = None →
  moveV3Layer f (layersDir ++ [bp]) w = (Ok (), w') →
  (∀ l m,
     get ((layersDir ++ [bp]) ++ [l +:+ ".toml"]) (disk w) = Some (File (LayerTOML m)) →
     Cache m = true →
     get (cacheRoot f bp ++ [l +:+ ".toml"]) (disk w') = Some (File (LayerTOML m)) ∧
     copied ((layersDir ++ [bp]) ++ [l]) (disk w) (cacheRoot f bp ++ [l]) (disk w')) ∧
  (∀ l es,
     get ((layersDir ++ [bp]) ++ [l]) (disk w) = Some (Dir es) →
     (get ((layersDir ++ [bp]) ++ [l +:+ ".toml"]) (disk w) = None ∨
      ∃ m, get ((layersDir ++ [bp]) ++ [l +:+ ".toml"]) (disk w)
             = Some (File (LayerTOML m)) ∧ Cache m = false) →
     (∀ s, get ((cacheRoot f bp ++ [l]) ++ s) (disk w')
           = get ((cacheRoot f bp ++ [l]) ++ s) (disk w)) ∧
     get (cacheRoot f bp ++ [l +:+ ".toml"]) (disk w')
       = get (cacheRoot f bp ++ [l +:+ ".toml"]) (disk w)) ∧
  copied (layersDir ++ [bp]) (disk w) (V2DepsDir f ++ [bp]) (disk w') ∧
  (∀ l es,
     get ((layersDir ++ [bp]) ++ [l]) (disk w) = Some (Dir es) →
     copied ((layersDir ++ [bp]) ++ [l]) (disk w) ((V2DepsDir f ++ [bp]) ++ [l]) (disk w')).
Proof.
  intros Hbp Hlc Hld Hcd Hwf Hnotoml.
  set (lp := layersDir ++ [bp]) in *. set (root := cacheRoot f bp) in *.
  set (deps := V2DepsDir f ++ [bp]) in *.
  unfold moveV3Layer. subst lp. rewrite Base_snoc by done.
  set (lp := layersDir ++ [bp]) in *.
  rewrite bind_run. unfold Glob at 1. intros H.
  apply bind_Ok in H as ([] & wL & HL & H).
  apply bind_Ok in H as ([] & wM & HM & HC).
  change (forM_ (glob1 lp is_toml (disk w)) (cacheIfAsked f bp) w = (Ok (), wL)) in HL.
  unfold glob1 in HL.
  set (names := filter (λ n, is_toml n = true) (readdirnames lp (disk w))) in *.
  assert (Hwflp : ∀ n, get lp (disk w) = Some n → wfb n = true)
    by (intros n; by apply wfb_get).
  apply cacheLoop_Ok in HL as (_ & HB & HCfr); [|done| | |done].
  2:{ apply NoDup_filter. by apply readdirnames_NoDup. }
  2:{ intros n [Htoml Hin]%list_elem_of_filter. apply is_toml_stem in Htoml as [stem ->].
      exists stem. split; [done|]. intros ->.
      apply readdirnames_elem in Hin as [? Hin].
      change ("" +:+ ".toml") with ".toml" in Hin. congruence. }
  fold root in HB, HCfr.
  assert (Hnames : ∀ l, is_Some (get (lp ++ [l +:+ ".toml"]) (disk w)) →
                        l +:+ ".toml" ∈ names).
  { intros l Hl. apply list_elem_of_filter. split.
    - apply is_toml_stem. eauto.
    - by apply readdirnames_elem. }
  assert (HlayersL : ∀ s, get (lp ++ s) (disk wL) = get (lp ++ s) (disk w)).
  { intros s. apply HCfr.
    - by apply (layers_off_cache lp root s []).
    - intros stem _ _. split.
      + by apply (layers_off_cache lp root s [stem +:+ ".toml"]).
      + by apply (layers_off_cache lp root s [stem]). }
  assert (FM : ∀ q, ¬ q `prefix_of` deps → get q (disk wM) = get q (disk wL))
    by (intros q Hq; by apply (os_MkdirAll_frame _ _ _ q HM)).
  apply CopyDirectory_Ok in HC as (d' & HC & ->). simpl.
  assert (HlpM : get lp (disk wM) = get lp (disk w)).
  { rewrite FM by apply Hld. specialize (HlayersL []). by rewrite !app_nil_r in HlayersL. }
  apply copyDirectory_spec in HC as [Hcopied FC]; [| |done].
  2:{ intros n. rewrite HlpM. apply Hwflp. }
  assert (Hcache : ∀ x, get (root ++ x) d' = get (root ++ x) (disk wL)).
  { intros x. rewrite FC by (by apply apart_sym, apart_app_l).
    apply FM. intros Hp. destruct Hcd as [Hcd _]. apply Hcd. by eapply prefix_app_l. }
  assert (Hdeps : copied lp (disk w) deps d').
  { destruct Hcopied as (s & t & H1 & H2 & H3). exists s, t. by rewrite <- HlpM. }
  assert (Hfacts : ∀ stem, stem +:+ ".toml" ∈ names → cachedStem lp (disk w) stem →
            (∃ c, get (lp ++ [stem +:+ ".toml"]) (disk w) = Some (File c)) ∧
            (∃ es, get (lp ++ [stem]) (disk w) = Some (Dir es)) ∧
            ∃ m, get (lp ++ [stem +:+ ".toml"]) (disk w) = Some (File (LayerTOML m)) ∧
                 Cache m = true).
  { intros stem Hin (m & Hm & Hc). split; [eauto|]. split; [|eauto].
    destruct (HB stem Hin) as (m' & Hm' & Hc'). rewrite Hm in Hm'. simplify_eq.
    destruct (Hc' Hc) as [_ (s & t & Hs & _)]. eauto. }
  split; [|split; [|split]].
  - intros l m Hm Hc.
    destruct (HB l) as (m' & Hm' & Hc'); [by apply Hnames|].
    rewrite Hm in Hm'. simplify_eq. destruct (Hc' Hc) as [Hside (s & t & H1 & H2 & H3)].
    split.
    + by rewrite Hcache.
    + exists s, t. split; [done|]. split; [|done]. by rewrite Hcache.
  - intros l es Hdir Hside.
    assert (Hnotcached : ¬ cachedStem lp (disk w) l).
    { intros (m & Hm & Hc). destruct Hside as [Hn|(m' & Hm' & Hc')]; congruence. }
    split.
    + intros s. rewrite <- app_assoc, Hcache. apply HCfr; [apply not_prefix_longer|].
      intros stem Hin Hcs. destruct (Hfacts stem Hin Hcs) as ((c & Hc) & _ & _).
      split.
      * intros Heq%app_inv_head. injection Heq as -> ->. congruence.
      * rewrite app_assoc. apply apart_app_r, apart_snoc_ne. by intros ->.
    + rewrite Hcache. apply HCfr; [apply not_prefix_snoc|].
      intros stem Hin Hcs. destruct (Hfacts stem Hin Hcs) as (_ & (es' & Hes') & _).
      split.
      * intros Heq%app_inv_head. injection Heq as Heq%string_app_inj_r.
        by subst.
      * apply apart_snoc_ne. intros ->.
        destruct Hside as [Hn|(m' & Hm' & _)]; congruence.
  - done.
  - intros l es Hdir. destruct Hdeps as (s & t & H1 & H2 & H3).
    rewrite get_app, H1 in Hdir. simpl in Hdir.
    destruct (contains_sub t (Dir s) [l] es H3 Hdir) as (t' & Ht' & Hc').
    exists es, t'. split; [by rewrite get_app, H1|]. split; [|done].
    by rewrite get_app, H2.
Qed.

Lemma moveV3Layer_cache_selectivity_witness :
  ∃ w', moveV3Layer exFinalizer ["home"; "vcap"; "deps"; "lang-b"] migrateWorld = (Ok (), w') ∧
    (get ["tmp"; "cache"; "cnb"; "lang-b"; "x.toml"] (disk w')
       = Some (File (LayerTOML (mkLayerMetadata false true true))) ∧
     copied ["home"; "vcap"; "deps"; "lang-b"; "x"] migrateDisk
            ["tmp"; "cache"; "cnb"; "lang-b"; "x"] (disk w')) ∧
    (get ["tmp"; "cache"; "cnb"; "lang-b"; "y"] (disk w') = None ∧
     get ["tmp"; "cache"; "cnb"; "lang-b"; "y.toml"] (disk w') = None) ∧
    (get ["tmp"; "cache"; "cnb"; "lang-b"; "z"] (disk w') = None ∧
     get ["tmp"; "cache"; "cnb"; "lang-b"; "z.toml"] (disk w') = None) ∧
    copied ["home"; "vcap"; "deps"; "lang-b"; "y"] migrateDisk
           ["tmp"; "deps"; "lang-b"; "y"] (disk w').
Proof.
  exists (snd (moveV3Layer exFinalizer ["home"; "vcap"; "deps"; "lang-b"] migrateWorld)).
  split; [vm_compute; reflexivity|].
  destruct (moveV3Layer_cache_selectivity exFinalizer ["home"; "vcap"; "deps"] "lang-b"
              migrateWorld
              (snd (moveV3Layer exFinalizer ["home"; "vcap"; "deps"; "lang-b"] migrateWorld)))
    as (Hcached & Hnot & _ & Hdeps).
  - discriminate.
  - apply (bool_decide_unpack _). vm_compute. exact I.
  - apply (bool_decide_unpack _). vm_compute. exact I.
  - apply (bool_decide_unpack _). vm_compute. exact I.
  - vm_compute. reflexivity.
  - vm_compute. reflexivity.
  - vm_compute. reflexivity.
  - split; [|split; [|split]].
    + apply (Hcached "x" (mkLayerMetadata false true true)); reflexivity.
    + destruct (Hnot "y" [("lib", File (Bytes "so"))]) as [Hy1 Hy2];
        [reflexivity | right; by eexists |].
      split; [apply (Hy1 []) | apply Hy2].
    + destruct (Hnot "z" []) as [Hz1 Hz2]; [reflexivity | by left |].
      split; [apply (Hz1 []) | apply Hz2].
    + apply (Hdeps "y" [("lib", File (Bytes "so"))]). reflexivity.
Defined.

Lemma RestoreV3Cache_spec_witness :
  ∃ w', RestoreV3Cache exFinalizer restoreWorld = (Ok (), w') ∧
    readdirnames ["tmp"; "cache"; "cnb"] (disk w') = [] ∧
    get ["home"; "vcap"; "deps"; "lang-b"; "x"] (disk w') = Some cachedLayer.
Proof.
  exists (snd (RestoreV3Cache exFinalizer restoreWorld)).
  split; [vm_compute; reflexivity|].
  destruct (RestoreV3Cache_spec exFinalizer restoreWorld) as [_ H].
  destruct (H (Dir [("lang-b", Dir [
                 ("x", cachedLayer);
                 ("x.toml", File (LayerTOML (mkLayerMetadata false true true)))])])
              (snd (RestoreV3Cache exFinalizer restoreWorld)))
    as (es & Hes & _ & Hempty & Hmoved).
  - reflexivity.
  - apply (bool_decide_unpack _). vm_compute. exact I.
  - vm_compute. reflexivity.
  - split; [done|]. injection Hes as <-.
    rewrite (get_app ["home"; "vcap"; "deps"; "lang-b"] ["x"]).
    change ["home"; "vcap"; "deps"; "lang-b"] with (V3LayersDir exFinalizer ++ ["lang-b"]).
    rewrite (Hmoved "lang-b" _ eq_refl). reflexivity.
Defined.

(** * Further properties of the code *)

(** ** The injector without predecessors *)

Lemma bind_unit_ret (m : M unit) w : (m ≫= λ _ : unit, mret ()) w = m w.
Proof. rewrite bind_run. by destruct (m w) as [[[]|e] w1]. Qed.

(** X1. When the deps index is not the text of an integer,
    [IncludePreviousV2Buildpacks] returns the error of [strconv.Atoi] and
    leaves the world as it was: its own deps directory is not removed. When
    the index is zero or negative (above the least [int]), the run is the
    removal of its own deps directory and nothing else: no index is probed
    and nothing is injected. *)
Theorem IncludePreviousV2Buildpacks_without_predecessors (f : Finalizer) (w : World) :
  (∀ e, Atoi (DepsIndex f) = Err e → IncludePreviousV2Buildpacks f w = (Err e, w)) ∧
  (∀ k, Atoi (DepsIndex f) = Ok k → (- 2 ^ 63 < k ≤ 0)%Z →
     IncludePreviousV2Buildpacks f w = os_RemoveAll (V2DepsDir f ++ [DepsIndex f]) w).
Proof.
  split.
  - intros e He. unfold IncludePreviousV2Buildpacks. rewrite bind_run. unfold lift.
    by rewrite He.
  - intros k Hk Hr. unfold IncludePreviousV2Buildpacks. rewrite bind_run. unfold lift.
    rewrite Hk.
    assert (Z.to_nat (wrap64 (k - 1) + 1) = 0) as ->.
    { unfold wrap64. rewrite Z.mod_small by lia. lia. }
    apply bind_unit_ret.
Qed.

Lemma get_removelast_Dir (p : path) d es :
  get p d = Some (Dir es) → ∃ es', get (removelast p) d = Some (Dir es').
Proof.
  destruct (decide (p = [])) as [->|Hne]; [simpl; eauto|].
  destruct (exists_last Hne) as (l & x & ->). rewrite removelast_last.
  intros Hg. by apply (get_prefix_Dir l [x] d (Dir es)).
Qed.

(** X2. [MoveV2Layers] onto a destination that is a directory already
    fails with [EEXIST] and leaves the disk as it was: the layer of a
    legacy buildpack is never merged into, nor put in place of, a layer
    directory that exists. *)
Theorem MoveV2Layers_existing_destination (f : Finalizer) (src dst : path) (w : World)
    (n : node) (es : entries) :
  get src (disk w) = Some n →
  get dst (disk w) = Some (Dir es) →
  MoveV2Layers f src dst w =
    (Err (LinkError "rename" src dst EEXIST),
     mkWorld (disk w) (CF_STACK w) (calls w ++ [CallMoveV2Layers src dst])).
Proof.
  intros Hs Hd. unfold MoveV2Layers. rewrite bind_run, log_run, bind_run.
  destruct (get_removelast_Dir _ _ _ Hd) as [es' Hp].
  unfold os_MkdirAll, syscall at 1. simpl.
  rewrite (mkdirAll_existing _ _ _ Hp). unfold set_disk. simpl.
  unfold os_Rename, syscall, rename. simpl.
  apply walk_Ok_get in Hs, Hd. by rewrite Hs, Hd.
Qed.

Lemma MoveV2Layers_existing_destination_witness :
  MoveV2Layers exFinalizer ["tmp"; "deps"; "0"] ["tmp"; "deps"; "1"] exWorld =
    (Err (LinkError "rename" ["tmp"; "deps"; "0"] ["tmp"; "deps"; "1"] EEXIST),
     mkWorld exDisk "cflinuxfs3"
       [CallMoveV2Layers ["tmp"; "deps"; "0"] ["tmp"; "deps"; "1"]]).
Proof.
  apply (MoveV2Layers_existing_destination exFinalizer _ _ exWorld
           (Dir [("env", Dir [("PATH", File (Bytes "/bin"))]); ("bin", Dir [])])
           [("lib", File (Bytes "so"))]); reflexivity.
Defined.

Lemma ReadLayerMetadata_run f p w m :
  get p (disk w) = Some (File (LayerTOML m)) → ReadLayerMetadata f p w = (Ok m, w).
Proof.
  intros Hg. unfold ReadLayerMetadata, DecodeFile_LayerMetadata, decode.
  rewrite bind_run. unfold ioutil_ReadFile. apply walk_Ok_get in Hg. by rewrite Hg.
Qed.

(** X3. The sidecar that [WriteLayerMetadata] writes reads back, through
    [ReadLayerMetadata], as build and launch but not cache; the pass of
    [moveV3Layer] over this sidecar therefore caches nothing and leaves the
    world as it was. *)
Theorem WriteLayerMetadata_never_cached (f : Finalizer) (p : path) (layersName : string)
    (w w' : World) :
  WriteLayerMetadata f p w = (Ok (), w') →
  ReadLayerMetadata f (path_append p ".toml") w'
    = (Ok (mkLayerMetadata true true false), w') ∧
  cacheIfAsked f layersName (path_append p ".toml") w' = (Ok (), w').
Proof.
  unfold WriteLayerMetadata. rewrite bind_run, log_run.
  intros (d & Hw & ->)%encodeTOML_Ok. simpl in Hw.
  apply writeFile_get in Hw.
  assert (Hr : ReadLayerMetadata f (path_append p ".toml")
                 (set_disk (mkWorld (disk w) (CF_STACK w)
                              (calls w ++ [CallWriteLayerMetadata p])) d)
               = (Ok (mkLayerMetadata true true false),
                  set_disk (mkWorld (disk w) (CF_STACK w)
                              (calls w ++ [CallWriteLayerMetadata p])) d))
    by by apply ReadLayerMetadata_run.
  split; [done|]. unfold cacheIfAsked. by rewrite bind_run, Hr.
Qed.

Lemma WriteLayerMetadata_never_cached_witness :
  ∃ w', WriteLayerMetadata exFinalizer ["tmp"; "deps"; "0"] exWorld = (Ok (), w') ∧
    ReadLayerMetadata exFinalizer ["tmp"; "deps"; "0.toml"] w'
      = (Ok (mkLayerMetadata true true false), w') ∧
    cacheIfAsked exFinalizer "buildpack.0" ["tmp"; "deps"; "0.toml"] w' = (Ok (), w').
Proof.
  exists (snd (WriteLayerMetadata exFinalizer ["tmp"; "deps"; "0"] exWorld)). split.
  - vm_compute. reflexivity.
  - apply (WriteLayerMetadata_never_cached exFinalizer ["tmp"; "deps"; "0"]
             "buildpack.0" exWorld).
    vm_compute. reflexivity.
Defined.

(** Writing over a file always succeeds. *)
Lemma upd_over_file (c : content) p o c0 :
  oget p o = Some (File c0) →
  ∃ o', upd (λ o, match o with
                  | Some (Dir _) => Err EISDIR
                  | _ => Ok (Some (File c))
                  end) p o = Ok (Some o').
Proof.
  revert o. induction p as [|x p IH]; intros o; simpl.
  - rewrite oget_nil. intros ->. eauto.
  - destruct o as [[?|es]|]; simpl; [done| |done].
    intros Hg. destruct (assoc x es) as [n|] eqn:Ha; [|done].
    destruct (IH (Some n) Hg) as [o' ->]. eauto.
Qed.

Lemma writeFile_over_file p c c0 d :
  get p d = Some (File c0) → ∃ d', writeFile p c d = Ok d'.
Proof.
  intros Hg. unfold writeFile, upd_root.
  destruct (upd_over_file c p (Some d) c0 Hg) as [o' ->]. eauto.
Qed.

Lemma DecodeFile_group_run p w :
  DecodeFile_group p w =
    match get p (disk w) with
    | Some (File (GroupTOML g)) => (Ok g, w)
    | _ => (Err (match walk p (disk w) with
                 | Ok (File _) => DecodeError p
                 | Ok (Dir _) => PathError "read" p EISDIR
                 | Err e => PathError "open" p e
                 end), w)
    end.
Proof.
  unfold DecodeFile_group, decode. rewrite bind_run. unfold ioutil_ReadFile.
  destruct (walk p (disk w)) as [n|e] eqn:Hw.
  - apply walk_Ok_get in Hw. rewrite Hw. by destruct n as [[]|].
  - apply walk_Err_get in Hw. by rewrite Hw.
Qed.

(** X4. [UpdateGroupTOML] succeeds exactly when the group metadata file
    exists and decodes as a group. It then puts a reference with the
    identifier alone (no name, no version) in front of the buildpacks of
    the group, dropping and reordering none, and changes nothing but that
    file. Otherwise it returns an error and leaves the disk as it was. *)
Theorem UpdateGroupTOML_spec (f : Finalizer) (buildpackID : string) (w : World) :
  let logged d := mkWorld d (CF_STACK w) (calls w ++ [CallUpdateGroupTOML buildpackID]) in
  (∀ g, get (GroupMetadata f) (disk w) = Some (File (GroupTOML g)) →
     ∃ d, UpdateGroupTOML f buildpackID w = (Ok (), logged d) ∧
          get (GroupMetadata f) d
            = Some (File (GroupTOML
                (mkGroup (mkBuildpack buildpackID "" "" :: Buildpacks g)))) ∧
          ∀ q, ¬ q `prefix_of` GroupMetadata f → get q d = get q (disk w)) ∧
  ((∀ g, get (GroupMetadata f) (disk w) ≠ Some (File (GroupTOML g))) →
     ∃ e, UpdateGroupTOML f buildpackID w = (Err e, logged (disk w))).
Proof.
  intros logged. split.
  - intros g Hg.
    destruct (writeFile_over_file (GroupMetadata f)
                (GroupTOML (mkGroup (mkBuildpack buildpackID "" "" :: Buildpacks g)))
                _ _ Hg) as [d Hw].
    exists d. split; [|split].
    + unfold UpdateGroupTOML. rewrite bind_run, log_run, bind_run, DecodeFile_group_run.
      simpl. rewrite Hg. unfold encodeTOML, syscall. simpl. by rewrite Hw.
    + by apply writeFile_get in Hw.
    + intros q Hq. by apply (writeFile_get_other _ _ _ _ q Hw).
  - intros Hno. unfold UpdateGroupTOML.
    rewrite bind_run, log_run, bind_run, DecodeFile_group_run. simpl.
    destruct (get (GroupMetadata f) (disk w)) as [[[]|]|] eqn:Hg; eauto.
    by destruct (Hno g).
Qed.

(** ** Writing a file twice *)


Lemma set_entry_twice {A} c (n1 n2 : A) es :
  set_entry c n2 (set_entry c n1 es) = set_entry c n2 es.
Proof.
  induction es as [|[c0 n0] es IH]; simpl.
  - by rewrite decide_True.
  - destruct (decide (c0 = c)) as [->|Hne]; simpl.
    + by rewrite decide_True.
    + by rewrite decide_False, IH.
Qed.

Lemma upd_file_Some c p o o' : upd (fileWriter c) p o = Ok o' → is_Some o'.
Proof.
  unfold fileWriter. destruct p as [|x p]; simpl.
  - destruct o as [[]|]; intros [= <-]; eauto.
  - destruct o as [[?|es]|]; [done| |done].
    destruct (upd _ p (assoc x es)); intros [= <-]; eauto.
Qed.

Lemma upd_file_twice c1 c2 p o o1 :
  upd (fileWriter c1) p o = Ok o1 →
  upd (fileWriter c2) p o1 = upd (fileWriter c2) p o.
Proof.
  revert o o1. induction p as [|x p IH]; intros o o1; simpl.
  - unfold fileWriter. destruct o as [[]|]; intros [= <-]; done.
  - destruct o as [[?|es]|]; [done| |done].
    destruct (upd (fileWriter c1) p (assoc x es)) as [o1'|] eqn:Hu; [|done].
    intros [= <-]. rewrite assoc_put_entry_eq, (IH _ _ Hu).
    destruct (upd_file_Some _ _ _ _ Hu) as [n1 ->].
    destruct (upd (fileWriter c2) p (assoc x es)) as [o2|] eqn:Hu2; [|done].
    destruct (upd_file_Some _ _ _ _ Hu2) as [n2 ->]. simpl.
    by rewrite set_entry_twice.
Qed.

Lemma writeFile_fileWriter p c d : writeFile p c d = upd_root (fileWriter c) p d.
Proof. reflexivity. Qed.

Lemma writeFile_twice p c1 c2 d d1 :
  writeFile p c1 d = Ok d1 → writeFile p c2 d1 = writeFile p c2 d.
Proof.
  rewrite !writeFile_fileWriter. unfold upd_root.
  destruct (upd (fileWriter c1) p (Some d)) as [[n|]|] eqn:Hu; try done.
  intros [= <-]. by rewrite (upd_file_twice _ c2 _ _ _ Hu).
Qed.

Lemma upd_file_same c p o :
  oget p o = Some (File c) → upd (fileWriter c) p o = Ok o.
Proof.
  revert o. induction p as [|x p IH]; intros o; simpl.
  - rewrite oget_nil. by intros ->.
  - destruct o as [[?|es]|]; simpl; [done| |done].
    destruct (assoc x es) as [n|] eqn:Ha; [|done]. simpl.
    intros Hg. rewrite (IH (Some n) Hg). simpl. by rewrite set_entry_id.
Qed.

Lemma writeFile_same p c d : get p d = Some (File c) → writeFile p c d = Ok d.
Proof.
  intros Hg. rewrite writeFile_fileWriter. unfold upd_root.
  by rewrite (upd_file_same c p (Some d) Hg).
Qed.

(** ** The synthesized buildpack *)

Lemma prefix_snoc_ne (r : path) (a b : string) s : a ≠ b → ¬ r ++ [a] `prefix_of` r ++ b :: s.
Proof.
  intros Hab [k Hk]. rewrite <- app_assoc in Hk. apply app_inv_head in Hk.
  simpl in Hk. congruence.
Qed.

Lemma AddFakeCNBBuildpack_post f buildpackID w w' :
  AddFakeCNBBuildpack f buildpackID w = (Ok (), w') →
  calls w' = calls w ++ [CallAddFakeCNBBuildpack buildpackID] ∧
  CF_STACK w' = CF_STACK w ∧
  get ((V3BuildpacksDir f ++ [buildpackID; "latest"]) ++ ["buildpack.toml"]) (disk w')
    = Some (File (FakeBuildpackTOML
                    (mkBuildpack buildpackID buildpackID "latest")
                    [mkStack ("org.cloudfoundry.stacks." +:+ CF_STACK w)])) ∧
  get ((V3BuildpacksDir f ++ [buildpackID; "latest"]) ++ ["bin"; "build"]) (disk w')
    = Some (File (Bytes "#!/bin/bash")) ∧
  (∀ q, ¬ q `prefix_of` (V3BuildpacksDir f ++ [buildpackID; "latest"]) ++ ["buildpack.toml"] →
        ¬ q `prefix_of` (V3BuildpacksDir f ++ [buildpackID; "latest"]) ++ ["bin"; "build"] →
        get q (disk w') = get q (disk w)).
Proof.
  unfold AddFakeCNBBuildpack. rewrite bind_run, log_run.
  set (bp := V3BuildpacksDir f ++ [buildpackID; "latest"]).
  set (w0 := mkWorld (disk w) (CF_STACK w) (calls w ++ [_])).
  intros H.
  apply bind_Ok in H as ([] & w1 & H1 & H).
  apply bind_Ok in H as ([] & w2 & H2 & H).
  apply bind_Ok in H as (cf & w3 & H3 & H). injection H3 as <- <-.
  apply bind_Ok in H as ([] & w4 & H4 & H).
  apply bind_Ok in H as ([] & w5 & H5 & H6).
  pose proof (syscall_session _ _ _ _ H1) as [Hs1 Hc1].
  pose proof (syscall_session _ _ _ _ H2) as [Hs2 Hc2].
  pose proof (syscall_session _ _ _ _ H4) as [Hs4 Hc4].
  pose proof (syscall_session _ _ _ _ H5) as [Hs5 Hc5].
  pose proof (syscall_session _ _ _ _ H6) as [Hs6 Hc6].
  assert (Hbin : bp ++ ["bin"; "build"] = (bp ++ ["bin"]) ++ ["build"])
    by by rewrite <- app_assoc.
  split; [subst w0; simpl in *; congruence|].
  split; [subst w0; simpl in *; congruence|].
  split; [|split].
  - rewrite (write_frame _ _ _ _ _ _ H6) by (by apply prefix_snoc_ne).
    rewrite (os_MkdirAll_frame _ _ _ _ H5).
    2:{ by apply prefix_snoc_ne. }
    apply encodeTOML_Ok in H4 as (d & Hw & ->). simpl.
    apply writeFile_get in Hw. rewrite Hw.
    assert (CF_STACK w2 = CF_STACK w) as -> by (subst w0; simpl in *; congruence).
    done.
  - apply syscall_Ok in H6 as (d & Hw & ->). simpl. by apply writeFile_get in Hw.
  - intros q Hq1 Hq2.
    rewrite (write_frame _ _ _ _ _ q H6) by done.
    rewrite (os_MkdirAll_frame _ _ _ q H5).
    2:{ intros Hp. apply Hq2. rewrite Hbin. by apply prefix_app_r. }
    rewrite (write_frame _ _ _ _ _ q H4) by done.
    rewrite (write_frame _ _ _ _ _ q H2) by done.
    rewrite (os_MkdirAll_frame _ _ _ q H1).
    2:{ intros Hp. apply Hq1. by apply prefix_app_r. }
    done.
Qed.

(** X5. After [AddFakeCNBBuildpack] the descriptor
    [V3BuildpacksDir/id/latest/buildpack.toml] names the buildpack [id],
    with the name [id], the version [latest] and the one stack
    [org.cloudfoundry.stacks.] followed by [CF_STACK]; [bin/build] is the
    one-line script; and nothing changed but these two files and the
    directories that lead to them. *)
Theorem AddFakeCNBBuildpack_spec (f : Finalizer) (buildpackID : string) (w w' : World) :
  AddFakeCNBBuildpack f buildpackID w = (Ok (), w') →
  let buildpackPath := V3BuildpacksDir f ++ [buildpackID; "latest"] in
  get (buildpackPath ++ ["buildpack.toml"]) (disk w')
    = Some (File (FakeBuildpackTOML
                    (mkBuildpack buildpackID buildpackID "latest")
                    [mkStack ("org.cloudfoundry.stacks." +:+ CF_STACK w)])) ∧
  get (buildpackPath ++ ["bin"; "build"]) (disk w') = Some (File (Bytes "#!/bin/bash")) ∧
  (∀ q, ¬ q `prefix_of` buildpackPath ++ ["buildpack.toml"] →
        ¬ q `prefix_of` buildpackPath ++ ["bin"; "build"] →
        get q (disk w') = get q (disk w)).
Proof.
  intros H. by apply AddFakeCNBBuildpack_post in H as (_ & _ & H1 & H2 & H3).
Qed.

Lemma AddFakeCNBBuildpack_spec_witness :
  ∃ w', AddFakeCNBBuildpack exFinalizer "buildpack.0" exWorld = (Ok (), w') ∧
    get ["home"; "vcap"; "cnbs"; "buildpack.0"; "latest"; "buildpack.toml"] (disk w')
      = Some (File (FakeBuildpackTOML
                      (mkBuildpack "buildpack.0" "buildpack.0" "latest")
                      [mkStack "org.cloudfoundry.stacks.cflinuxfs3"])) ∧
    get ["home"; "vcap"; "cnbs"; "buildpack.0"; "latest"; "bin"; "build"] (disk w')
      = Some (File (Bytes "#!/bin/bash")) ∧
    (∀ q, ¬ q `prefix_of` ["home"; "vcap"; "cnbs"; "buildpack.0"; "latest"; "buildpack.toml"] →
          ¬ q `prefix_of` ["home"; "vcap"; "cnbs"; "buildpack.0"; "latest"; "bin"; "build"] →
          get q (disk w') = get q exDisk).
Proof.
  exists (snd (AddFakeCNBBuildpack exFinalizer "buildpack.0" exWorld)). split.
  - vm_compute. reflexivity.
  - apply (AddFakeCNBBuildpack_spec exFinalizer "buildpack.0" exWorld).
    vm_compute. reflexivity.
Defined.

(** X6. [AddFakeCNBBuildpack] is idempotent on the disk: called again with
    the same identifier after a call that succeeded, it succeeds and leaves
    the disk as the first call left it. *)
Theorem AddFakeCNBBuildpack_idempotent (f : Finalizer) (buildpackID : string)
    (w w' : World) :
  AddFakeCNBBuildpack f buildpackID w = (Ok (), w') →
  AddFakeCNBBuildpack f buildpackID w' =
    (Ok (), mkWorld (disk w') (CF_STACK w')
              (calls w' ++ [CallAddFakeCNBBuildpack buildpackID])).
Proof.
  intros H. apply AddFakeCNBBuildpack_post in H as (_ & Hs & Htoml & Hbuild & _).
  set (bp := V3BuildpacksDir f ++ [buildpackID; "latest"]) in *.
  assert (Hbin : bp ++ ["bin"; "build"] = (bp ++ ["bin"]) ++ ["build"])
    by by rewrite <- app_assoc.
  destruct (get_prefix_Dir _ _ _ _ Htoml) as [es Hbp]; [done|].
  rewrite Hbin in Hbuild.
  destruct (get_prefix_Dir _ _ _ _ Hbuild) as [es' Hbp']; [done|].
  destruct (writeFile_over_file (bp ++ ["buildpack.toml"]) (Bytes "") _ (disk w') Htoml)
    as [d2 Hd2].
  unfold AddFakeCNBBuildpack. fold bp. rewrite bind_run, log_run.
  set (w0 := mkWorld (disk w') (CF_STACK w') (calls w' ++ [_])).
  rewrite bind_run. unfold os_MkdirAll, syscall at 1. simpl.
  rewrite (mkdirAll_existing _ _ _ Hbp).
  rewrite bind_run. unfold os_Create, syscall at 1. simpl. rewrite Hd2.
  rewrite bind_run. unfold os_Getenv_CF_STACK at 1. simpl.
  rewrite bind_run. unfold encodeTOML, syscall at 1. simpl.
  rewrite (writeFile_twice _ _ _ _ _ Hd2), Hs, (writeFile_same _ _ _ Htoml).
  rewrite bind_run. unfold os_MkdirAll, syscall at 1. simpl.
  rewrite (mkdirAll_existing _ _ _ Hbp').
  unfold ioutil_WriteFile, syscall. simpl. rewrite Hbin.
  by rewrite (writeFile_same _ _ _ Hbuild).
Qed.

Lemma AddFakeCNBBuildpack_idempotent_witness :
  ∃ w', AddFakeCNBBuildpack exFinalizer "buildpack.0" exWorld = (Ok (), w') ∧
    AddFakeCNBBuildpack exFinalizer "buildpack.0" w' =
      (Ok (), mkWorld (disk w') (CF_STACK w')
                (calls w' ++ [CallAddFakeCNBBuildpack "buildpack.0"])).
Proof.
  exists (snd (AddFakeCNBBuildpack exFinalizer "buildpack.0" exWorld)). split.
  - vm_compute. reflexivity.
  - apply (AddFakeCNBBuildpack_idempotent exFinalizer "buildpack.0" exWorld).
    vm_compute. reflexivity.
Defined.

(** ** The injection of one legacy buildpack *)

Lemma MoveV2Layers_source_gone f src dst w w' :
  MoveV2Layers f src dst w = (Ok (), w') → src ≠ dst → get src (disk w') = None.
Proof.
  unfold MoveV2Layers. rewrite bind_run, log_run, bind_run.
  destruct (os_MkdirAll _ _) as [[[]|e] w1] eqn:Hmk; [|done].
  intros (d2 & Hr & ->)%os_Rename_Ok Hne. simpl.
  destruct (rename_moves _ _ _ _ Hr Hne) as (_ & _ & Hold & _).
  specialize (Hold []). by rewrite app_nil_r in Hold.
Qed.

Lemma absent_Some p d n : get p d = Some n → absent p d = false.
Proof. intros Hg. apply walk_Ok_get in Hg. unfold absent. by rewrite Hg. Qed.

Lemma RenameEnvDir_moves f dst w w' e :
  get (dst ++ ["env"]) (disk w) = Some e →
  RenameEnvDir f dst w = (Ok (), w') →
  get (dst ++ ["env.build"]) (disk w') = Some e ∧ get (dst ++ ["env"]) (disk w') = None.
Proof.
  intros He. pose proof (RenameEnvDir_run f dst w) as Hrun. cbv zeta in Hrun.
  rewrite Hrun.
  assert (Hne : "env" ≠ "env.build") by discriminate.
  destruct (rename_sibling dst "env" "env.build" (disk w) e Hne He) as [Hno _].
  destruct (rename _ _ (disk w)) as [d|[]] eqn:Hr; try done.
  intros [= <-]. simpl.
  assert (Hne' : dst ++ ["env"] ≠ dst ++ ["env.build"]).
  { intros H. apply app_inv_head in H. discriminate. }
  destruct (rename_moves _ _ _ _ Hr Hne') as (_ & Hnew & Hold & _).
  specialize (Hnew []). specialize (Hold []). rewrite !app_nil_r in *.
  by rewrite Hnew, Hold.
Qed.

Lemma apart_snoc_below (r : path) (a c : string) s :
  a ≠ c → apart (r ++ [a]) (r ++ c :: s).
Proof.
  intros Hac. change (c :: s) with ([c] ++ s). rewrite app_assoc.
  by apply apart_app_r, apart_snoc_ne.
Qed.

(** X7. One pass of the loop of [IncludePreviousV2Buildpacks] at an index
    whose deps directory exists, when it completes: the deps directory of
    the index is gone; what it held stands under
    [V3LayersDir/buildpack.i/layer], entry by entry, except that [env] now
    stands at [env.build]; the sidecar marks the layer build and launch, not
    cache; and the synthesized buildpack [buildpack.i] has its descriptor
    and its build script. *)
Theorem includeV2Buildpack_injects (f : Finalizer) (i : nat) (w w' : World) (n : node) :
  staging_apart f →
  apart (V3LayersDir f) (V3BuildpacksDir f) →
  get (v2Layer f i) (disk w) = Some n →
  includeV2Buildpack f i w = (Ok (), w') →
  let layer := V3LayersDir f ++ [legacyID i; "layer"] in
  let cnb := V3BuildpacksDir f ++ [legacyID i; "latest"] in
  get (v2Layer f i) (disk w') = None ∧
  (∀ c s, c ≠ "env" → c ≠ "env.build" →
     get (layer ++ c :: s) (disk w') = get (c :: s) n) ∧
  (∀ e, get ["env"] n = Some e →
     get (layer ++ ["env.build"]) (disk w') = Some e ∧
     get (layer ++ ["env"]) (disk w') = None) ∧
  get (V3LayersDir f ++ [legacyID i; "layer.toml"]) (disk w')
    = Some (File (LayerTOML (mkLayerMetadata true true false))) ∧
  get (cnb ++ ["buildpack.toml"]) (disk w')
    = Some (File (FakeBuildpackTOML
                    (mkBuildpack (legacyID i) (legacyID i) "latest")
                    [mkStack ("org.cloudfoundry.stacks." +:+ CF_STACK w)])) ∧
  get (cnb ++ ["bin"; "build"]) (disk w') = Some (File (Bytes "#!/bin/bash")).
Proof.
  intros (Hdl & Hdb & Hdg & Hlg & Hbg) Hlb Hn.
  unfold includeV2Buildpack. fold (v2Layer f i). fold (legacyID i).
  rewrite bind_run, log_run, bind_run, attempt_Stat_run, notExist_Stat.
  set (w0 := mkWorld (disk w) (CF_STACK w) (calls w ++ [CallStat (v2Layer f i)])).
  change (disk w0) with (disk w). rewrite (absent_Some _ _ _ Hn).
  intros H.
  apply bind_Ok in H as ([] & w1 & H1 & H).
  apply bind_Ok in H as ([] & w2 & H2 & H).
  apply bind_Ok in H as ([] & w3 & H3 & H).
  apply bind_Ok in H as ([] & w4 & H4 & H5).
  assert (Hsrc : apart (v2Layer f i) (V3LayersDir f)) by by apply apart_app_l.
  assert (Hgone : get (v2Layer f i) (disk w1) = None).
  { apply (MoveV2Layers_source_gone _ _ _ _ _ H1). intros Heq.
    destruct Hsrc as [_ Hs]. apply Hs. rewrite Heq. by apply prefix_app_r. }
  apply MoveV2Layers_Ok in H1 as (_ & Hs1 & _ & Hnew1 & _); [|done].
  apply WriteLayerMetadata_Ok in H2 as (_ & Hs2 & Hside & Hf2).
  pose proof (RenameEnvDir_Ok _ _ _ _ H3) as (_ & Hs3 & Hf3).
  apply UpdateGroupTOML_Ok in H4 as (_ & Hs4 & _ & Hf4).
  apply AddFakeCNBBuildpack_post in H5 as (_ & Hs5 & Htoml & Hbuild & Hf5).
  set (layer := V3LayersDir f ++ [legacyID i; "layer"]) in *.
  set (cnb := V3BuildpacksDir f ++ [legacyID i; "latest"]) in *.
  set (sidecar := V3LayersDir f ++ [legacyID i; "layer.toml"]) in *.
  assert (Hnew : ∀ s, get (layer ++ s) (disk w1) = oget s (Some n)).
  { intros s. unfold layer. rewrite <- app_assoc, Hnew1. simpl.
    by rewrite get_app, Hn. }
  (* the last two steps leave the deps and the layers directories alone *)
  assert (Hf45 : ∀ q, apart q (GroupMetadata f) → apart q (V3BuildpacksDir f) →
                      get q (disk w') = get q (disk w3)).
  { intros q Hq1 Hq2. rewrite Hf5, Hf4; [done|apply Hq1|..];
      unfold cnb; rewrite <- app_assoc; by apply apart_not_prefix, apart_sym. }
  assert (Hlayers : ∀ s, get (V3LayersDir f ++ s) (disk w') = get (V3LayersDir f ++ s) (disk w3)).
  { intros s. apply Hf45; by apply apart_app_l. }
  assert (Hlayer : ∀ s, get (layer ++ s) (disk w') = get (layer ++ s) (disk w3)).
  { intros s. unfold layer. rewrite <- app_assoc. apply Hlayers. }
  assert (Hlong : ∀ s, s ≠ [] → ¬ layer ++ s `prefix_of` sidecar).
  { intros s Hs Hp. apply prefix_length in Hp. unfold layer, sidecar in Hp.
    rewrite !length_app in Hp. simpl in Hp. destruct s; [done|]. simpl in Hp. lia. }
  split; [|split; [|split; [|split; [|split]]]].
  - rewrite Hf45 by (by apply apart_app_l).
    rewrite Hf3 by (unfold layer; rewrite <- app_assoc; by apply apart_app_l, apart_sym).
    rewrite Hf2 by (by apply apart_not_prefix, apart_sym). done.
  - intros c s Hc1 Hc2. rewrite Hlayer.
    rewrite Hf3 by (by apply apart_snoc_below).
    rewrite Hf2 by (by apply Hlong). apply Hnew.
  - intros e He.
    assert (Henv : get (layer ++ ["env"]) (disk w2) = Some e).
    { rewrite Hf2 by (by apply Hlong). by rewrite Hnew. }
    destruct (RenameEnvDir_moves _ _ _ _ _ Henv H3) as [Hb He'].
    by rewrite !Hlayer.
  - unfold sidecar. rewrite Hlayers. fold sidecar.
    assert (Hs : sidecar = (V3LayersDir f ++ [legacyID i]) ++ ["layer.toml"])
      by (unfold sidecar; by rewrite <- app_assoc).
    assert (Hl : ∀ x, layer ++ [x] = (V3LayersDir f ++ [legacyID i]) ++ ["layer"; x])
      by (intros x; unfold layer; by rewrite <- !app_assoc).
    rewrite Hf3; [done|..]; rewrite Hl, Hs; by apply apart_sym, apart_snoc_below.
  - rewrite Htoml.
    assert (CF_STACK w4 = CF_STACK w) as -> by (subst w0; simpl in *; congruence).
    done.
  - done.
Qed.

Lemma includeV2Buildpack_injects_witness :
  ∃ w', includeV2Buildpack exFinalizer 0 exWorld = (Ok (), w') ∧
    get ["tmp"; "deps"; "0"] (disk w') = None ∧
    (∀ c s, c ≠ "env" → c ≠ "env.build" →
       get (["home"; "vcap"; "deps"; "buildpack.0"; "layer"] ++ c :: s) (disk w')
         = get (c :: s) (Dir [("env", Dir [("PATH", File (Bytes "/bin"))]); ("bin", Dir [])])) ∧
    (∀ e, get ["env"] (Dir [("env", Dir [("PATH", File (Bytes "/bin"))]); ("bin", Dir [])])
            = Some e →
       get ["home"; "vcap"; "deps"; "buildpack.0"; "layer"; "env.build"] (disk w') = Some e ∧
       get ["home"; "vcap"; "deps"; "buildpack.0"; "layer"; "env"] (disk w') = None) ∧
    get ["home"; "vcap"; "deps"; "buildpack.0"; "layer.toml"] (disk w')
      = Some (File (LayerTOML (mkLayerMetadata true true false))) ∧
    get ["home"; "vcap"; "cnbs"; "buildpack.0"; "latest"; "buildpack.toml"] (disk w')
      = Some (File (FakeBuildpackTOML
                      (mkBuildpack "buildpack.0" "buildpack.0" "latest")
                      [mkStack "org.cloudfoundry.stacks.cflinuxfs3"])) ∧
    get ["home"; "vcap"; "cnbs"; "buildpack.0"; "latest"; "bin"; "build"] (disk w')
      = Some (File (Bytes "#!/bin/bash")).
Proof.
  exists (snd (includeV2Buildpack exFinalizer 0 exWorld)). split.
  - vm_compute. reflexivity.
  - apply (includeV2Buildpack_injects exFinalizer 0 exWorld).
    + vm_compute. repeat split; intros [k Hk]; discriminate.
    + vm_compute. split; intros [k Hk]; discriminate.
    + reflexivity.
    + vm_compute. reflexivity.
Defined.

(** ** What a run leaves alone *)

Lemma leaves_refl keep w : leaves keep w w.
Proof. by repeat split. Qed.

Lemma leaves_trans keep w1 w2 w3 :
  leaves keep w1 w2 → leaves keep w2 w3 → leaves keep w1 w3.
Proof.
  intros (Hs1 & Hc1 & Hf1) (Hs2 & Hc2 & Hf2). split; [congruence|]. split; [congruence|].
  intros q Hq. by rewrite Hf2, Hf1.
Qed.

Lemma keeps_ret {A} keep (a : A) : keeps keep (mret a).
Proof. intros w r w' [= _ <-]. apply leaves_refl. Qed.

Lemma keeps_fail {A} keep e : keeps keep (fail e : M A).
Proof. intros w r w' [= _ <-]. apply leaves_refl. Qed.

Lemma keeps_bind {A B} keep (m : M A) (k : A → M B) :
  keeps keep m → (∀ a, keeps keep (k a)) → keeps keep (m ≫= k).
Proof.
  intros Hm Hk w r w'. rewrite bind_run.
  destruct (m w) as [[a|e] w1] eqn:Hmw.
  - intros Hkw. eapply leaves_trans; [by eapply Hm | by eapply Hk].
  - intros [= _ <-]. by eapply Hm.
Qed.

Lemma keeps_bind_post {A B} keep (P : A → Prop) (m : M A) (k : A → M B) :
  keeps keep m → (∀ w a w', m w = (Ok a, w') → P a) →
  (∀ a, P a → keeps keep (k a)) → keeps keep (m ≫= k).
Proof.
  intros Hm HP Hk w r w'. rewrite bind_run.
  destruct (m w) as [[a|e] w1] eqn:Hmw.
  - intros Hkw. eapply leaves_trans; [by eapply Hm|]. eapply Hk; [|done]. by eapply HP.
  - intros [= _ <-]. by eapply Hm.
Qed.

Lemma keeps_forM {A} keep (l : list A) (body : A → M unit) :
  (∀ x, x ∈ l → keeps keep (body x)) → keeps keep (forM_ l body).
Proof.
  induction l as [|x l IH]; intros Hb; simpl.
  - apply keeps_ret.
  - apply keeps_bind; [apply Hb; left|]. intros _. apply IH.
    intros y Hy. apply Hb. by right.
Qed.

Lemma keeps_Wrap {A} keep (m : M A) msg : keeps keep m → keeps keep (Wrap m msg).
Proof.
  intros Hm w r w'. unfold Wrap. destruct (m w) as [[a|e] w1] eqn:Hmw;
    intros [= _ <-]; by eapply Hm.
Qed.

Lemma keeps_syscall keep (f : node → result errno node) mk :
  (∀ d d' q, f d = Ok d' → keep q → get q d' = get q d) →
  keeps keep (syscall f mk).
Proof.
  intros Hf w r w'. unfold syscall. destruct (f (disk w)) as [d|e] eqn:Hfd;
    intros [= _ <-]; [|apply leaves_refl].
  split; [done|]. split; [done|]. intros q Hq. simpl. by eapply Hf.
Qed.

Lemma keeps_ReadFile keep p : keeps keep (ioutil_ReadFile p).
Proof.
  intros w r w' Hr. apply ioutil_ReadFile_world in Hr as ->. apply leaves_refl.
Qed.

Lemma keeps_decode {A} keep p (sel : content → option A) : keeps keep (decode p sel).
Proof.
  apply keeps_bind; [apply keeps_ReadFile|]. intros c. unfold unmarshal.
  destruct (sel c); [apply keeps_ret | apply keeps_fail].
Qed.

Lemma keeps_Glob keep pat : keeps keep (Glob pat).
Proof. intros w r w' [= _ <-]. apply leaves_refl. Qed.

Lemma keeps_MkdirAll (keep : path → Prop) p :
  (∀ q, keep q → ¬ q `prefix_of` p) → keeps keep (os_MkdirAll p).
Proof.
  intros Hk. apply keeps_syscall. intros d d' q Hm Hq.
  by rewrite (mkdirAll_get_other _ _ _ q Hm (Hk q Hq)).
Qed.

Lemma keeps_writeFile (keep : path → Prop) p c mk :
  (∀ q, keep q → ¬ q `prefix_of` p) → keeps keep (syscall (writeFile p c) mk).
Proof.
  intros Hk. apply keeps_syscall. intros d d' q Hm Hq.
  by apply (writeFile_get_other _ _ _ _ q Hm (Hk q Hq)).
Qed.

Lemma keeps_Rename (keep : path → Prop) old new :
  (∀ q, keep q → apart old q ∧ apart new q) → keeps keep (os_Rename old new).
Proof.
  intros Hk. apply keeps_syscall. intros d d' q Hm Hq.
  destruct (Hk q Hq). by apply (rename_get_apart _ _ _ _ q Hm).
Qed.

Lemma keeps_CopyFile (keep : path → Prop) src dst :
  (∀ q, keep q → ¬ q `prefix_of` dst) → keeps keep (CopyFile src dst).
Proof.
  intros Hk. apply keeps_bind; [apply keeps_ReadFile|]. intros c.
  by apply keeps_writeFile.
Qed.

Lemma copyDirectory_get_apart src dst d d' q :
  copyDirectory src dst d = Ok d' → apart dst q → get q d' = get q d.
Proof.
  unfold copyDirectory. destruct (walk src d) as [[?|es]|]; [done| |done].
  intros Hu Hq. by apply (upd_root_get_apart _ _ _ _ q Hu).
Qed.

Lemma keeps_CopyDirectory (keep : path → Prop) src dst :
  (∀ q, keep q → apart dst q) → keeps keep (CopyDirectory src dst).
Proof.
  intros Hk. apply keeps_syscall. intros d d' q Hm Hq.
  by apply (copyDirectory_get_apart _ _ _ _ q Hm), Hk.
Qed.

(** ** The layer migrator works on four places only *)

Lemma keeps_moveV3Config f : keeps (offMigration f) (moveV3Config f).
Proof.
  unfold moveV3Config.
  apply keeps_bind; [|intros _; apply keeps_bind; [|intros _]].
  - apply keeps_Rename. intros q (H1 & H2 & _). split; [done | by apply apart_app_l].
  - apply keeps_MkdirAll. intros q (_ & _ & _ & H4). apply H4.
  - apply keeps_CopyFile. intros q (_ & _ & _ & H4).
    change [".cloudfoundry"; "metadata.toml"] with ([".cloudfoundry"] ++ ["metadata.toml"]).
    rewrite app_assoc. by apply apart_not_prefix.
Qed.

Lemma keeps_cacheLayer f v3Path layersName layerName :
  keeps (offMigration f) (cacheLayer f v3Path layersName layerName).
Proof.
  unfold cacheLayer.
  assert (Hc : V2CacheDir f ++ ["cnb"; layersName; layerName]
               = (V2CacheDir f ++ ["cnb"]) ++ [layersName; layerName])
    by by rewrite <- app_assoc.
  apply keeps_bind; [|intros _; apply keeps_bind; [|intros _]].
  - apply keeps_MkdirAll. intros q (_ & _ & H3 & _). rewrite Hc. by apply apart_not_prefix.
  - apply keeps_CopyFile. intros q (_ & _ & H3 & _).
    change ["cnb"; layersName; layerName] with (["cnb"; layersName] ++ [layerName]).
    rewrite app_assoc, path_append_snoc.
    change ["cnb"; layersName] with (["cnb"] ++ [layersName]).
    rewrite app_assoc, <- (app_assoc (V2CacheDir f ++ ["cnb"])).
    by apply apart_not_prefix.
  - apply keeps_CopyDirectory. intros q (_ & _ & H3 & _). rewrite Hc. by apply apart_app_l.
Qed.

Lemma keeps_moveV3Layer f layersPath : keeps (offMigration f) (moveV3Layer f layersPath).
Proof.
  unfold moveV3Layer.
  apply keeps_bind; [apply keeps_Glob|]. intros tomls.
  apply keeps_bind; [|intros _; apply keeps_bind; [|intros _]].
  - apply keeps_forM. intros tomlFile _.
    apply keeps_bind; [apply keeps_decode|]. intros m.
    destruct (Cache m); [apply keeps_cacheLayer | apply keeps_ret].
  - apply keeps_MkdirAll. intros q (_ & H2 & _). by apply apart_not_prefix.
  - apply keeps_CopyDirectory. intros q (_ & H2 & _). by apply apart_app_l.
Qed.

(** X8. Whatever it returns, [MoveV3Layers] changes nothing outside four
    places: the [config] entry of the layers directory, the deps directory,
    the durable cache [V2CacheDir/cnb] and the [.cloudfoundry] directory of
    the application. In particular the layers of a buildpack are copied,
    not moved, and no call is logged. *)
Theorem MoveV3Layers_works_in_place (f : Finalizer) (w : World) :
  leaves (offMigration f) w (snd (MoveV3Layers f w)).
Proof.
  assert (H : keeps (offMigration f) (MoveV3Layers f)).
  { unfold MoveV3Layers. apply keeps_bind; [apply keeps_Glob|]. intros bpLayers.
    apply keeps_forM. intros bpLayerPath _.
    destruct (decide _); [apply keeps_moveV3Config | apply keeps_moveV3Layer]. }
  destruct (MoveV3Layers f w) as [r w'] eqn:Hr. by apply (H w r w').
Qed.

(** ** The override engine rewrites buildpack descriptors only *)

Lemma glob1_elem dir pat root p :
  p ∈ glob1 dir pat root ↔ ∃ n, p = dir ++ [n] ∧ pat n = true ∧ is_Some (get p root).
Proof.
  unfold glob1. rewrite list_elem_of_fmap. split.
  - intros (n & -> & Hn). apply list_elem_of_filter in Hn as [Hp Hn].
    apply readdirnames_elem in Hn. eauto.
  - intros (n & -> & Hp & Hn). exists n. split; [done|].
    apply list_elem_of_filter. split; [done|]. by apply readdirnames_elem.
Qed.

Lemma glob_star_name_elem dir name root p :
  p ∈ glob_star_name dir name root ↔
  ∃ a, p = dir ++ [a; name] ∧ is_Some (get p root).
Proof.
  unfold glob_star_name. rewrite list_elem_of_In, in_flat_map. split.
  - intros (d & Hd & Hp). apply list_elem_of_In in Hd, Hp.
    apply glob1_elem in Hd as (a & -> & _ & _).
    apply glob1_elem in Hp as (n & -> & Hn & Hg).
    apply bool_decide_eq_true in Hn as ->. exists a.
    by rewrite <- app_assoc in *.
  - intros (a & -> & Hg). exists (dir ++ [a]). split; apply list_elem_of_In.
    + apply glob1_elem. exists a. split; [done|]. split; [done|].
      change [a; name] with ([a] ++ [name]) in Hg. rewrite app_assoc in Hg.
      destruct Hg as [n Hg]. apply get_prefix_Dir in Hg as [es Hes]; [|done]. eauto.
    + apply glob1_elem. exists name. rewrite <- app_assoc. split; [done|].
      split; [by apply bool_decide_eq_true | done].
Qed.

Lemma glob_star_star_name_elem dir name root p :
  p ∈ glob_star_star_name dir name root → ∃ a b, p = dir ++ [a; b; name].
Proof.
  unfold glob_star_star_name. rewrite list_elem_of_In, in_flat_map.
  intros (d & Hd & Hp). apply list_elem_of_In in Hd, Hp.
  apply glob1_elem in Hd as (a & -> & _ & _).
  apply glob_star_name_elem in Hp as (b & -> & _).
  exists a, b. by rewrite <- app_assoc.
Qed.

Lemma keeps_updateBuildpackTOML ro f paths m :
  (∀ p, p ∈ paths → ∃ a b, p = V3BuildpacksDir f ++ [a; b; "buildpack.toml"]) →
  keeps (offDescriptors f) (updateBuildpackTOML ro f paths m).
Proof.
  intros Hshape. unfold updateBuildpackTOML. apply keeps_forM. intros p Hp.
  destruct (Hshape p Hp) as (a & b & ->).
  apply keeps_bind; [apply keeps_ReadFile|]. intros c.
  apply keeps_bind.
  - apply keeps_Wrap. unfold Unmarshal_BuildpackTOML, unmarshal.
    match goal with |- context [match ?sel with Some _ => _ | None => _ end] =>
      destruct sel end; [apply keeps_ret | apply keeps_fail].
  - intros bpTOML. apply keeps_writeFile. intros q Hq. apply Hq.
Qed.

(** X9. Whatever it returns and whatever the order of enumeration,
    [ApplyOverrideYMLs] changes no path other than the descriptors
    [V3BuildpacksDir/*/*/buildpack.toml] (and the directories that hold
    them): override files, deps directories and the other files of a
    buildpack stay as they were. *)
Theorem ApplyOverrideYMLs_rewrites_descriptors_only (ro : RangeOrder) (f : Finalizer)
    (w : World) :
  leaves (offDescriptors f) w (snd (ApplyOverrideYMLs ro f w)).
Proof.
  assert (H : keeps (offDescriptors f) (ApplyOverrideYMLs ro f)).
  { unfold ApplyOverrideYMLs. apply keeps_bind; [apply keeps_Glob|]. intros overrideYMLPaths.
    apply (keeps_bind_post _
             (λ paths, ∀ p, p ∈ paths →
                ∃ a b, p = V3BuildpacksDir f ++ [a; b; "buildpack.toml"]));
      [apply keeps_Glob| |].
    - intros w0 paths w1 [= <- _] p Hp. by apply glob_star_star_name_elem in Hp.
    - intros bpTOMLs Hshape. apply keeps_forM. intros overrideYML _.
      apply keeps_bind; [apply keeps_Wrap, keeps_decode|]. intros m.
      by apply keeps_updateBuildpackTOML. }
  destruct (ApplyOverrideYMLs ro f w) as [r w'] eqn:Hr. by apply (H w r w').
Qed.

(** X10. When no deps directory holds an [override.yml],
    [ApplyOverrideYMLs] succeeds and leaves the world as it was, whatever
    the buildpack descriptors hold (they are not even read). *)
Theorem ApplyOverrideYMLs_without_overrides (ro : RangeOrder) (f : Finalizer) (w : World) :
  (∀ name, get (V2DepsDir f ++ [name; "override.yml"]) (disk w) = None) →
  ApplyOverrideYMLs ro f w = (Ok (), w).
Proof.
  intros Hno. unfold ApplyOverrideYMLs. rewrite !bind_run. unfold Glob at 1 2. simpl.
  assert (glob_star_name (V2DepsDir f) "override.yml" (disk w) = []) as ->; [|done].
  apply elem_of_nil_inv. intros p Hp.
  apply glob_star_name_elem in Hp as (a & -> & [n Hn]). by rewrite Hno in Hn.
Qed.

Lemma ApplyOverrideYMLs_without_overrides_witness :
  ApplyOverrideYMLs forwards exFinalizer exWorld = (Ok (), exWorld).
Proof.
  apply (ApplyOverrideYMLs_without_overrides forwards exFinalizer exWorld).
  intros name. change (get ["tmp"; "deps"; name; "override.yml"] exDisk = None).
  simpl. repeat (destruct (decide _) as [<-|_]; [reflexivity|]). reflexivity.
Defined.

(** ** The configuration of the layers directory *)

(** X11. [moveV3Config] is not atomic. Either the rename of the
    configuration fails, and then its error is returned and the world is as
    it was; or the configuration has been moved from the layers directory to
    the deps directory, whether or not the steps after it succeed. When the
    whole call succeeds, [metadata.toml] of the configuration has also been
    copied into the [.cloudfoundry] directory of the application. *)
Theorem moveV3Config_moves (f : Finalizer) (w : World) (r : result error unit) (w' : World) :
  let src := V3LayersDir f ++ ["config"] in
  let dst := V2DepsDir f ++ ["config"] in
  let appCF := V2AppDir f ++ [".cloudfoundry"] in
  src ≠ dst → apart src appCF → apart dst appCF →
  moveV3Config f w = (r, w') →
  (∃ e, r = Err (LinkError "rename" src dst e) ∧ w' = w) ∨
  ((∀ s, get (dst ++ s) (disk w') = get (src ++ s) (disk w)) ∧
   get src (disk w') = None ∧
   (r = Ok () →
    ∃ c, get (src ++ ["metadata.toml"]) (disk w) = Some (File c) ∧
         get (appCF ++ ["metadata.toml"]) (disk w') = Some (File c))).
Proof.
  intros src dst appCF Hne Hsa Hda. unfold moveV3Config. fold src dst.
  rewrite bind_run. unfold os_Rename at 1, syscall at 1.
  destruct (rename src dst (disk w)) as [d1|e] eqn:Hr.
  2:{ intros [= <- <-]. left. eauto. }
  intros Hrest. right.
  destruct (rename_moves _ _ _ _ Hr Hne) as (_ & Hnew & Hold & _).
  assert (Hk : keeps (λ q, ¬ q `prefix_of` appCF ++ ["metadata.toml"])
                 (os_MkdirAll appCF ;;
                  CopyFile (dst ++ ["metadata.toml"]) (appCF ++ ["metadata.toml"]))).
  { apply keeps_bind; [|intros _].
    - apply keeps_MkdirAll. intros q Hq Hp. apply Hq. by apply prefix_app_r.
    - by apply keeps_CopyFile. }
  assert (Hrest' : (os_MkdirAll appCF ;;
                    CopyFile (dst ++ ["metadata.toml"]) (appCF ++ ["metadata.toml"]))
                     (set_disk w d1) = (r, w')).
  { rewrite <- Hrest. unfold appCF, dst.
    by rewrite <- !app_assoc. }
  destruct (Hk _ _ _ Hrest') as (_ & _ & Hf). simpl in Hf.
  split; [|split].
  - intros s. rewrite Hf; [apply Hnew|].
    by apply apart_not_prefix, apart_sym, apart_app_l.
  - rewrite Hf.
    + specialize (Hold []). by rewrite app_nil_r in Hold.
    + by apply apart_not_prefix, apart_sym.
  - intros ->. apply bind_Ok in Hrest' as ([] & w2 & Hmk & Hcp).
    apply CopyFile_Ok in Hcp as (c & d3 & Hc & Hw & ->). exists c. split.
    + rewrite <- Hnew.
      rewrite <- (os_MkdirAll_frame _ _ _ _ Hmk); [done|].
      by apply apart_sym, apart_app_l.
    + simpl. by apply writeFile_get in Hw.
Qed.

Lemma moveV3Config_moves_witness :
  ∃ w', moveV3Config exFinalizer configWorld = (Ok (), w') ∧
    ((∃ e, (Ok () : result error unit)
             = Err (LinkError "rename" ["home"; "vcap"; "deps"; "config"]
                      ["tmp"; "deps"; "config"] e) ∧ w' = configWorld) ∨
     ((∀ s, get (["tmp"; "deps"; "config"] ++ s) (disk w')
            = get (["home"; "vcap"; "deps"; "config"] ++ s) configDisk) ∧
      get ["home"; "vcap"; "deps"; "config"] (disk w') = None ∧
      ((Ok () : result error unit) = Ok () →
       ∃ c, get (["home"; "vcap"; "deps"; "config"] ++ ["metadata.toml"]) configDisk
              = Some (File c) ∧
            get (["tmp"; "app"; ".cloudfoundry"] ++ ["metadata.toml"]) (disk w')
              = Some (File c)))).
Proof.
  exists (snd (moveV3Config exFinalizer configWorld)). split.
  - vm_compute. reflexivity.
  - apply (moveV3Config_moves exFinalizer configWorld (Ok ())).
    + discriminate.
    + vm_compute. split; intros [k Hk]; discriminate.
    + vm_compute. split; intros [k Hk]; discriminate.
    + vm_compute. reflexivity.
Defined.

(** ** The launch profile *)

Lemma upd_parent_missing f dir name o :
  (∀ es, oget dir o ≠ Some (Dir es)) →
  ∃ e, upd f (dir ++ [name]) o = Err e ∧ (e = ENOENT ∨ e = ENOTDIR).
Proof.
  revert o. induction dir as [|c dir IH]; intros o Hno; simpl.
  - rewrite oget_nil in Hno. destruct o as [[?|es]|]; eauto. by destruct (Hno es).
  - destruct o as [[?|es0]|]; eauto.
    destruct (IH (assoc c es0)) as (e & -> & He); [|eauto].
    intros es Hes. apply (Hno es). simpl. by destruct (assoc c es0).
Qed.

(** X12. [WriteProfileLaunch] does not create the profile directory. In a
    profile directory that exists it creates or truncates [0_shim.sh] with
    the launch script for the stack of [CF_STACK] and changes nothing else;
    when the profile directory is missing or is no directory it fails with
    [ENOENT] or [ENOTDIR] and leaves the world as it was. *)
Theorem WriteProfileLaunch_spec (f : Finalizer) (w : World) :
  let script := ProfileDir f ++ ["0_shim.sh"] in
  let text := profileContents (CF_STACK w) "launcher" in
  (∀ es, get (ProfileDir f) (disk w) = Some (Dir es) →
         (∀ es', assoc "0_shim.sh" es ≠ Some (Dir es')) →
     ∃ d, WriteProfileLaunch f w = (Ok (), set_disk w d) ∧
          get script d = Some (File (Bytes text)) ∧
          ∀ q, ¬ q `prefix_of` script → get q d = get q (disk w)) ∧
  ((∀ es, get (ProfileDir f) (disk w) ≠ Some (Dir es)) →
     ∃ e, WriteProfileLaunch f w = (Err (PathError "open" script e), w) ∧
          (e = ENOENT ∨ e = ENOTDIR)).
Proof.
  intros script text. unfold WriteProfileLaunch. rewrite bind_run.
  unfold os_Getenv_CF_STACK, ioutil_WriteFile, syscall. simpl.
  change (ProfileDir f ++ [V3LaunchScript]) with script.
  change (profileContents (CF_STACK w) V3Launcher) with text.
  split.
  - intros es Hdir Hnd.
    destruct (writeFile_ok _ _ (Bytes text) _ _ Hdir Hnd) as [d Hw].
    exists d. fold script in Hw. rewrite Hw. split; [done|]. split.
    + by apply writeFile_get in Hw.
    + intros q Hq. by apply (writeFile_get_other _ _ _ _ q Hw).
  - intros Hno. rewrite writeFile_fileWriter. unfold upd_root, script.
    destruct (upd_parent_missing (fileWriter (Bytes text)) (ProfileDir f) "0_shim.sh"
                (Some (disk w)) Hno) as (e & -> & He).
    eauto.
Qed.

(** ** The translation of an override *)

(** X13. [v2ToV3Dep] prefixes every stack of the entry with
    [org.cloudfoundry.stacks.], keeping their number and order; the
    identifier of the result is its name; and two entries translate to
    records of the same key (identifier and version) exactly when their
    dependencies (name and version) are equal, whatever their URI, checksum
    and stacks. *)
Theorem v2ToV3Dep_spec (entry entry' : ManifestEntry) :
  Stacks (v2ToV3Dep entry)
    = map (λ stack, "org.cloudfoundry.stacks." +:+ stack) (meCFStacks entry) ∧
  ID (v2ToV3Dep entry) = Name (v2ToV3Dep entry) ∧
  (sameDep (v2ToV3Dep entry) (v2ToV3Dep entry') ↔ meDependency entry = meDependency entry').
Proof.
  split; [|split].
  - unfold v2ToV3Dep. simpl. by rewrite foldl_snoc_map.
  - done.
  - unfold sameDep. simpl. destruct (meDependency entry), (meDependency entry'). simpl.
    split; [intros [-> ->]; done | intros [= -> ->]; done].
Qed.

(** ** Applying overrides twice *)

Lemma overwrite_key x d : sameDep (overwrite x d) d.
Proof.
  unfold overwrite. destruct (decide (sameDep d x)) as [Hs|Hs]; [|done].
  by apply sameDep_sym.
Qed.

Lemma overwriteAll_key es d : sameDep (overwriteAll es d) d.
Proof.
  revert d. unfold overwriteAll. induction es as [|e es IH]; intros d; simpl; [done|].
  eapply sameDep_trans; [apply IH | apply overwrite_key].
Qed.

Lemma overwriteAll_snoc es e d :
  overwriteAll (es ++ [e]) d = overwrite (v2ToV3Dep e) (overwriteAll es d).
Proof. unfold overwriteAll. by rewrite foldl_app. Qed.

Lemma overwrite_same x d : sameDep d x → overwrite x d = x.
Proof. intros Hs. unfold overwrite. by rewrite decide_True. Qed.

Lemma overwrite_other x d : ¬ sameDep d x → overwrite x d = d.
Proof. intros Hs. unfold overwrite. by rewrite decide_False. Qed.

Lemma upsertDep_elem l e d :
  d ∈ upsertDep l e → d = v2ToV3Dep e ∨ (d ∈ l ∧ ¬ sameDep d (v2ToV3Dep e)).
Proof.
  rewrite upsertDep_unfold. destruct (decide _) as [He|He].
  - intros (d0 & -> & Hd0)%list_elem_of_fmap.
    destruct (decide (sameDep d0 (v2ToV3Dep e))) as [Hs|Hs].
    + left. by apply overwrite_same.
    + right. by rewrite overwrite_other.
  - intros [Hd| ->%list_elem_of_singleton]%elem_of_app; [|by left].
    right. split; [done|]. intros Hs. apply He, Exists_exists. eauto.
Qed.

(** Every record of the list that a manifest leaves is the last override
    of its key, or was never overridden. *)
Lemma foldl_upsertDep_settled es l d :
  d ∈ foldl upsertDep l es → overwriteAll es d = d.
Proof.
  revert d. induction es as [|e es IH] using rev_ind; intros d; [done|].
  rewrite foldl_app, overwriteAll_snoc. simpl. intros Hd.
  apply upsertDep_elem in Hd as [->|[Hd Hs]].
  - apply overwrite_same, overwriteAll_key.
  - rewrite (IH d Hd). by apply overwrite_other.
Qed.

Lemma upsertDep_has l e : Exists (λ d, sameDep d (v2ToV3Dep e)) (upsertDep l e).
Proof.
  rewrite upsertDep_unfold. destruct (decide _) as [He|He].
  - apply Exists_exists in He as (d & Hd & Hs). apply Exists_exists.
    exists (overwrite (v2ToV3Dep e) d). split.
    + apply list_elem_of_fmap. eauto.
    + eapply sameDep_trans; [apply overwrite_key | done].
  - apply Exists_app. right. by left.
Qed.

Lemma upsertDep_keeps_keys l e key :
  Exists (λ d, sameDep d key) l → Exists (λ d, sameDep d key) (upsertDep l e).
Proof.
  intros Hk. rewrite upsertDep_unfold. destruct (decide _) as [He|He].
  - apply Exists_exists in Hk as (d & Hd & Hs). apply Exists_exists.
    exists (overwrite (v2ToV3Dep e) d). split.
    + apply list_elem_of_fmap. eauto.
    + eapply sameDep_trans; [apply overwrite_key | done].
  - apply Exists_app. by left.
Qed.

Lemma foldl_upsertDep_has es l e :
  e ∈ es → Exists (λ d, sameDep d (v2ToV3Dep e)) (foldl upsertDep l es).
Proof.
  induction es as [|e0 es IH] using rev_ind; [by intros ?%elem_of_nil|].
  rewrite foldl_app. simpl. intros [He| ->%list_elem_of_singleton]%elem_of_app.
  - by apply upsertDep_keeps_keys, IH.
  - apply upsertDep_has.
Qed.

(** On a list that holds every key of the overrides, the overrides only
    overwrite. *)
Lemma foldl_upsertDep_present es l :
  (∀ e, e ∈ es → Exists (λ d, sameDep d (v2ToV3Dep e)) l) →
  foldl upsertDep l es = map (overwriteAll es) l.
Proof.
  revert l. induction es as [|e es IH]; intros l Hall; simpl.
  - unfold overwriteAll. simpl. by rewrite map_id.
  - rewrite upsertDep_unfold, decide_True by (apply Hall; left).
    rewrite IH.
    + rewrite map_map. done.
    + intros e' He'. assert (Hall' := Hall e' ltac:(by right)). clear Hall. rename Hall' into Hall.
      apply Exists_exists in Hall as (d & Hd & Hs). apply Exists_exists.
      exists (overwrite (v2ToV3Dep e) d). split.
      * apply list_elem_of_fmap. eauto.
      * eapply sameDep_trans; [apply overwrite_key | done].
Qed.

Lemma foldl_upsertDep_idempotent es l :
  foldl upsertDep (foldl upsertDep l es) es = foldl upsertDep l es.
Proof.
  rewrite foldl_upsertDep_present by (intros e He; by apply foldl_upsertDep_has).
  rewrite <- (map_id (foldl upsertDep l es)) at 2.
  apply map_ext_in. intros d Hd. apply list_elem_of_In in Hd.
  by eapply foldl_upsertDep_settled.
Qed.

Lemma foldl_setDefaultVersion_Some m l :
  foldl setDefaultVersion (Some m) l
    = Some (list_to_map (reverse (map (λ d, (depName d, TString (depVersion d))) l)) ∪ m).
Proof.
  revert m. induction l as [|d l IH]; intros m; simpl.
  - by rewrite (left_id_L ∅ (∪)).
  - unfold setDefaultVersion at 2. simpl. rewrite IH. f_equal.
    rewrite reverse_cons, list_to_map_app. simpl.
    rewrite insert_empty, <- (assoc_L (∪)). f_equal.
    by rewrite <- insert_union_singleton_l.
Qed.

Lemma setDefaultVersion_defaults dvs l :
  l ≠ [] →
  foldl setDefaultVersion dvs l
    = Some (list_to_map (reverse (map (λ d, (depName d, TString (depVersion d))) l))
              ∪ defaults dvs).
Proof.
  intros Hne. destruct dvs as [m|]; [apply foldl_setDefaultVersion_Some|].
  destruct l as [|d l]; [done|]. simpl.
  change (setDefaultVersion None d) with (setDefaultVersion (Some ∅) d).
  apply (foldl_setDefaultVersion_Some ∅ (d :: l)).
Qed.

Lemma foldl_setDefaultVersion_idempotent dvs l :
  foldl setDefaultVersion (foldl setDefaultVersion dvs l) l = foldl setDefaultVersion dvs l.
Proof.
  destruct (decide (l = [])) as [->|Hne]; [done|].
  rewrite (setDefaultVersion_defaults dvs) by done.
  rewrite setDefaultVersion_defaults by done. f_equal. unfold defaults at 1. simpl.
  by rewrite (assoc_L (∪)), (idemp_L (∪)).
Qed.

Lemma foldl_applyManifest b ms :
  foldl applyManifest b ms =
    applyManifest b (mkManifest (concat (map mDefaultVersions ms))
                                (concat (map ManifestEntries ms))).
Proof.
  revert b. induction ms as [|m ms IH]; intros b; simpl.
  - by destruct b as [? [] ?].
  - rewrite IH. unfold applyManifest. simpl. by rewrite !foldl_app.
Qed.

(** X14. Applying the manifests of an override map to a descriptor is
    idempotent: applied a second time, in the same order, to the descriptor
    that the first application left, they change nothing (default versions
    and dependencies alike, also when several entries share a key). *)
Theorem applyManifest_idempotent (bpTOML : BuildpackTOML) (manifests : list Manifest) :
  foldl applyManifest (foldl applyManifest bpTOML manifests) manifests
  = foldl applyManifest bpTOML manifests.
Proof.
  rewrite !foldl_applyManifest. unfold applyManifest. simpl.
  by rewrite foldl_setDefaultVersion_idempotent, foldl_upsertDep_idempotent.
Qed.

(** ** The supplier *)

(** X15. When [SaveOrderTOML] succeeds, the path that it returns is
    [OrderDir/order<DepsIndex>.toml]: the fragment carries the index of
    the buildpack in its name. With the file copy of [libbuildpack] as it
    is modelled, that path then holds the contents that the [order.toml]
    of the buildpack had, and nothing outside that path has changed: the
    fragments of the other indices are as they were. *)
Theorem SaveOrderTOML_saves_fragment (s : Supplier.t) (w w' : World) (p : path) :
  let src := Supplier.V2BuildpackDir s ++ ["order.toml"] in
  let orderFile := Supplier.OrderDir s ++ ["order" +:+ Supplier.DepsIndex s +:+ ".toml"] in
  Supplier.SaveOrderTOML s w = (Ok p, w') →
  p = orderFile ∧
  (∃ c, get src (disk w) = Some (File c) ∧ get orderFile (disk w') = Some (File c)) ∧
  leaves (λ q, ¬ q `prefix_of` orderFile) w w'.
Proof.
  intros src orderFile. unfold Supplier.SaveOrderTOML. rewrite bind_run.
  change (Supplier.orderFile s) with orderFile. fold src.
  destruct (CopyFile src orderFile w) as [[[]|e] w1] eqn:Hcp; [|done].
  apply CopyFile_Ok in Hcp as (c & d & Hc & Hw & ->). simpl.
  intros [= <- <-]. split; [done|]. split.
  - exists c. split; [done|]. by apply writeFile_get in Hw.
  - split; [done|]. split; [done|]. intros q Hq. simpl.
    by apply (writeFile_get_other _ _ _ _ q Hw).
Qed.

(** The supply step of the buildpack of index 2 in the example: its
    fragment is saved as [order2.toml], and the fragments of the indices 0
    and 1 stay as they were. *)
Lemma SaveOrderTOML_saves_fragment_witness :
  ∃ w', Supplier.SaveOrderTOML exSupplier supplyWorld
          = (Ok ["home"; "vcap"; "order"; "order2.toml"], w') ∧
    get ["home"; "vcap"; "order"; "order2.toml"] (disk w')
      = get ["tmp"; "buildpacks"; "lang-c"; "order.toml"] supplyDisk ∧
    get ["home"; "vcap"; "order"; "order0.toml"] (disk w')
      = Some (File (OrderTOML exOrder0)) ∧
    get ["home"; "vcap"; "order"; "order1.toml"] (disk w')
      = Some (File (OrderTOML exOrder1)).
Proof.
  exists (snd (Supplier.SaveOrderTOML exSupplier supplyWorld)).
  assert (Hrun : Supplier.SaveOrderTOML exSupplier supplyWorld
                 = (Ok ["home"; "vcap"; "order"; "order2.toml"],
                    snd (Supplier.SaveOrderTOML exSupplier supplyWorld)))
    by (vm_compute; reflexivity).
  destruct (SaveOrderTOML_saves_fragment exSupplier supplyWorld _ _ Hrun)
    as (_ & (c & Hsrc & Hdst) & _ & _ & Hrest).
  split; [exact Hrun|]. split; [|split].
  - etransitivity; [exact Hdst|]. symmetry. exact Hsrc.
  - etransitivity; [apply Hrest|]; vm_compute; [|reflexivity].
    intros [k Hk]. discriminate.
  - etransitivity; [apply Hrest|]; vm_compute; [|reflexivity].
    intros [k Hk]. discriminate.
Defined.

Lemma removeAll_again p a d d' :
  removeAll (p ++ [a]) d = Ok d' → removeAll (p ++ [a]) d' = Ok d'.
Proof.
  unfold removeAll. destruct (walk (p ++ [a]) d) as [n|[]] eqn:Hw; try done.
  - intros Hdel. apply walk_Ok_get in Hw.
    destruct (get_prefix_Dir _ _ _ _ Hw) as [es Hes]; [done|].
    pose proof (del_child_parent _ _ _ _ _ Hes Hdel) as Hp.
    by rewrite (walk_missing_child _ a _ _ Hp (assoc_del_entry_eq a es)).
  - intros [= <-]. by rewrite Hw.
Qed.

(** X16. After [RemoveV2DepsIndex] nothing is left at or below the deps
    directory of the index, every path apart from it is as before, and a
    second call succeeds and changes nothing. *)
Theorem RemoveV2DepsIndex_idempotent (s : Supplier.t) (w w' : World) :
  Supplier.RemoveV2DepsIndex s w = (Ok (), w') →
  let own := Supplier.V2DepsDir s ++ [Supplier.DepsIndex s] in
  (∀ q, get (own ++ q) (disk w') = None) ∧
  (∀ q, apart own q → get q (disk w') = get q (disk w)) ∧
  Supplier.RemoveV2DepsIndex s w' = (Ok (), w').
Proof.
  intros H own. unfold Supplier.RemoveV2DepsIndex in *. fold own in H |- *.
  apply syscall_Ok in H as (d & Hrm & ->).
  split; [|split].
  - intros q. by apply (removeAll_get _ _ _ q Hrm).
  - intros q Hq. by apply (removeAll_get_apart _ _ _ q Hrm).
  - unfold os_RemoveAll, syscall. simpl. unfold own in *.
    by rewrite (removeAll_again _ _ _ _ Hrm).
Qed.

Lemma RemoveV2DepsIndex_idempotent_witness :
  ∃ w', Supplier.RemoveV2DepsIndex exSupplier supplyWorld = (Ok (), w') ∧
    (∀ q, get (["tmp"; "deps"; "2"] ++ q) (disk w') = None) ∧
    (∀ q, apart ["tmp"; "deps"; "2"] q → get q (disk w') = get q supplyDisk) ∧
    Supplier.RemoveV2DepsIndex exSupplier w' = (Ok (), w').
Proof.
  exists (snd (Supplier.RemoveV2DepsIndex exSupplier supplyWorld)). split.
  - vm_compute. reflexivity.
  - apply (RemoveV2DepsIndex_idempotent exSupplier supplyWorld).
    vm_compute. reflexivity.
Defined.

(** X17. A [moveContent] that succeeds replaces the destination: source
    and destination are apart, the tree of the source stands at the
    destination exactly (nothing the destination held is kept), nothing is
    left at the source, and the paths apart from both are untouched. *)
Theorem moveContent_replaces (source destination : path) (w w' : World) :
  Supplier.moveContent source destination w = (Ok (), w') →
  apart source destination ∧
  (∀ s, get (destination ++ s) (disk w') = get (source ++ s) (disk w)) ∧
  (∀ s, get (source ++ s) (disk w') = None) ∧
  (∀ q, apart source q → apart destination q → get q (disk w') = get q (disk w)).
Proof.
  unfold Supplier.moveContent. intros H.
  apply bind_Ok in H as ([] & w1 & Hrm & Hmv).
  apply syscall_Ok in Hrm as (d1 & Hrm & ->).
  apply os_Rename_Ok in Hmv as (d2 & Hmv & ->). simpl in *.
  assert (Hne : source ≠ destination).
  { intros ->. apply rename_Ok in Hmv as (n & Hn & _).
    pose proof (removeAll_get _ _ _ [] Hrm) as Hd. rewrite app_nil_r in Hd. congruence. }
  destruct (rename_moves _ _ _ _ Hmv Hne) as (Hap & Hnew & Hold & Hfr).
  split; [done|]. split; [|split; [done|]].
  - intros s. rewrite Hnew. apply (removeAll_get_apart _ _ _ _ Hrm).
    by apply apart_sym, apart_app_l.
  - intros q Hq1 Hq2. rewrite Hfr by done. by apply (removeAll_get_apart _ _ _ _ Hrm).
Qed.

Lemma moveContent_replaces_witness :
  ∃ w', Supplier.moveContent ["tmp"; "app"] ["home"; "vcap"; "app"] supplyWorld
          = (Ok (), w') ∧
    apart ["tmp"; "app"] ["home"; "vcap"; "app"] ∧
    (∀ s, get (["home"; "vcap"; "app"] ++ s) (disk w')
          = get (["tmp"; "app"] ++ s) supplyDisk) ∧
    (∀ s, get (["tmp"; "app"] ++ s) (disk w') = None) ∧
    (∀ q, apart ["tmp"; "app"] q → apart ["home"; "vcap"; "app"] q →
          get q (disk w') = get q supplyDisk).
Proof.
  exists (snd (Supplier.moveContent ["tmp"; "app"] ["home"; "vcap"; "app"] supplyWorld)).
  split.
  - vm_compute. reflexivity.
  - apply (moveContent_replaces ["tmp"; "app"] ["home"; "vcap"; "app"] supplyWorld).
    vm_compute. reflexivity.
Defined.

(** Removing creates nothing. *)
Lemma removeAll_get_None p d d' q :
  removeAll p d = Ok d' → get q d = None → get q d' = None.
Proof.
  intros Hrm Hq. destruct (decide (p `prefix_of` q)) as [[s ->]|Hpq].
  { by apply (removeAll_get _ _ _ s Hrm). }
  destruct (decide (q `prefix_of` p)) as [[s ->]|Hqp].
  - unfold removeAll in Hrm.
    destruct (walk (q ++ s) d) as [n|[]] eqn:Hw; try done.
    + apply walk_Ok_get in Hw. rewrite get_app, Hq in Hw. done.
    + by simplify_eq.
  - rewrite (removeAll_get_apart _ _ _ q Hrm); done.
Qed.

(** X18. [moveContent] removes the destination before it looks at the
    source: with a source that does not exist it fails with the error of
    the rename, and the destination is gone all the same. *)
Theorem moveContent_missing_source (source destination : path) (w : World) (d : node) :
  get source (disk w) = None →
  removeAll destination (disk w) = Ok d →
  ∃ e, Supplier.moveContent source destination w
         = (Err (LinkError "rename" source destination e), set_disk w d) ∧
       get destination d = None.
Proof.
  intros Hsrc Hrm. unfold Supplier.moveContent. rewrite bind_run.
  unfold os_RemoveAll at 1, syscall at 1. rewrite Hrm.
  pose proof (removeAll_get_None _ _ _ _ Hrm Hsrc) as Hsrc'.
  apply get_None_walk in Hsrc' as [e He].
  exists e. split.
  - unfold os_Rename, syscall, rename. simpl. rewrite He.
    by destruct (walk destination d) as [[]|].
  - pose proof (removeAll_get _ _ _ [] Hrm) as Hd. by rewrite app_nil_r in Hd.
Qed.

Lemma moveContent_missing_source_witness :
  ∃ d, removeAll ["home"; "vcap"; "app"] supplyDisk = Ok d ∧
  ∃ e, Supplier.moveContent ["tmp"; "gone"] ["home"; "vcap"; "app"] supplyWorld
         = (Err (LinkError "rename" ["tmp"; "gone"] ["home"; "vcap"; "app"] e),
            set_disk supplyWorld d) ∧
       get ["home"; "vcap"; "app"] d = None.
Proof.
  eexists. split; [vm_compute; reflexivity|].
  apply (moveContent_missing_source ["tmp"; "gone"] ["home"; "vcap"; "app"] supplyWorld).
  - reflexivity.
  - vm_compute. reflexivity.
Defined.

(** ** The packager's manifest *)

Lemma listsStack_elem stack stacks : Packager.listsStack stack stacks = true ↔ stack ∈ stacks.
Proof.
  induction stacks as [|s stacks IH]; simpl.
  - split; [done | by intros ?%elem_of_nil].
  - destruct (decide (s = stack)) as [->|Hne].
    + split; [intros _; left | done].
    + rewrite IH, elem_of_cons. split; [by right | by intros [?|?]].
Qed.

(** X19. [hasStack] holds exactly when some dependency of the manifest
    lists the stack. *)
Theorem hasStack_iff (m : Packager.Manifest) (stack : string) :
  Packager.hasStack m stack = true ↔
  ∃ e, e ∈ Packager.Dependencies m ∧ stack ∈ Packager.Stacks e.
Proof.
  unfold Packager.hasStack.
  induction (Packager.Dependencies m) as [|e deps IH]; simpl.
  - split; [done | by intros (e & ?%elem_of_nil & _)].
  - destruct (Packager.listsStack stack (Packager.Stacks e)) eqn:Hl.
    + split; [|done]. intros _. exists e. split; [left|]. by apply listsStack_elem.
    + rewrite IH. split.
      * intros (e' & He' & Hs). exists e'. split; [by right | done].
      * intros (e' & [->|He']%elem_of_cons & Hs); [|eauto].
        apply listsStack_elem in Hs. congruence.
Qed.

(** The versions that one dependency contributes: its version, once for
    each time it lists the stack. *)
Lemma versions_inner (version stack : string) stacks acc :
  foldl (λ versions s, if decide (s = stack) then versions ++ [version] else versions)
        acc stacks
  = acc ++ map (λ _, version) (filter (λ s, s = stack) stacks).
Proof.
  revert acc. induction stacks as [|s stacks IH]; intros acc; simpl.
  - by rewrite app_nil_r.
  - rewrite IH. destruct (decide (s = stack)) as [->|Hne].
    + rewrite filter_cons_True by done. simpl. by rewrite <- app_assoc.
    + by rewrite filter_cons_False.
Qed.

Lemma versions_outer (depName stack : string) deps acc :
  foldl (λ versions e,
           if decide (Packager.Name e = depName) then
             foldl (λ versions s,
                      if decide (s = stack) then versions ++ [Packager.Version e]
                      else versions)
                   versions (Packager.Stacks e)
           else versions)
        acc deps
  = acc ++ flat_map (λ e, if decide (Packager.Name e = depName)
                          then map (λ _, Packager.Version e)
                                   (filter (λ s, s = stack) (Packager.Stacks e))
                          else []) deps.
Proof.
  revert acc. induction deps as [|e deps IH]; intros acc; simpl.
  - by rewrite app_nil_r.
  - rewrite IH. destruct (decide (Packager.Name e = depName)).
    + by rewrite versions_inner, <- app_assoc.
    + done.
Qed.

(** X20. A version is returned by [versionsOfDependencyWithStack] exactly
    when a dependency of that name and version lists the stack; and when
    [hasStack] denies the stack, no version is returned for any name. *)
Theorem versionsOfDependencyWithStack_elem (m : Packager.Manifest)
    (depName stack version : string) :
  (version ∈ Packager.versionsOfDependencyWithStack m depName stack ↔
   ∃ e, e ∈ Packager.Dependencies m ∧ Packager.Name e = depName ∧
        Packager.Version e = version ∧ stack ∈ Packager.Stacks e) ∧
  (Packager.hasStack m stack = false →
   Packager.versionsOfDependencyWithStack m depName stack = []).
Proof.
  assert (Helem : version ∈ Packager.versionsOfDependencyWithStack m depName stack ↔
            ∃ e, e ∈ Packager.Dependencies m ∧ Packager.Name e = depName ∧
                 Packager.Version e = version ∧ stack ∈ Packager.Stacks e).
  { unfold Packager.versionsOfDependencyWithStack. rewrite versions_outer. simpl.
    rewrite list_elem_of_In, in_flat_map. split.
    - intros (e & He & Hv). apply list_elem_of_In in He.
      destruct (decide (Packager.Name e = depName)); [|done].
      apply list_elem_of_In, list_elem_of_fmap in Hv as (s & -> & Hs).
      apply list_elem_of_filter in Hs as [-> Hs]. eauto.
    - intros (e & He & Hn & Hv & Hs). exists e. split; [by apply list_elem_of_In|].
      rewrite decide_True by done. apply list_elem_of_In, list_elem_of_fmap.
      exists stack. split; [done|]. by apply list_elem_of_filter. }
  split; [done|].
  intros Hno. unfold Packager.versionsOfDependencyWithStack. rewrite versions_outer. simpl.
  apply elem_of_nil_inv. intros v Hv.
  apply list_elem_of_In, in_flat_map in Hv as (e & He & Hv).
  apply list_elem_of_In in He.
  destruct (decide (Packager.Name e = depName)); [|done].
  apply list_elem_of_In, list_elem_of_fmap in Hv as (s & _ & Hs).
  apply list_elem_of_filter in Hs as [-> Hs].
  assert (Packager.hasStack m stack = true) by (apply hasStack_iff; eauto).
  congruence.
Qed.

Lemma filter_eq_NoDup (stack : string) stacks :
  NoDup stacks →
  filter (λ s, s = stack) stacks = if decide (stack ∈ stacks) then [stack] else [].
Proof.
  induction 1 as [|s stacks Hs Hnd IH].
  - destruct (decide (stack ∈ [])) as [Hin|_]; [by apply elem_of_nil in Hin | done].
  - destruct (decide (s = stack)) as [->|Hne].
    + rewrite filter_cons_True by done. rewrite IH.
      destruct (decide (stack ∈ stacks)); [done|].
      destruct (decide (stack ∈ stack :: stacks)) as [_|Hout]; [done|].
      destruct Hout. left.
    + rewrite filter_cons_False by done. rewrite IH.
      destruct (decide (stack ∈ stacks)) as [Hin|Hin];
        destruct (decide (stack ∈ s :: stacks)) as [Hin'|Hin']; try done.
      * destruct Hin'. by right.
      * apply elem_of_cons in Hin' as [?|?]; congruence.
Qed.

(** X21. When no dependency lists a stack twice,
    [versionsOfDependencyWithStack] returns the versions of the
    dependencies of that name that list the stack, in manifest order, one
    for each such dependency. *)
Theorem versionsOfDependencyWithStack_in_order (m : Packager.Manifest)
    (depName stack : string) :
  (∀ e, e ∈ Packager.Dependencies m → NoDup (Packager.Stacks e)) →
  Packager.versionsOfDependencyWithStack m depName stack
  = map Packager.Version
      (filter (λ e, Packager.Name e = depName ∧ stack ∈ Packager.Stacks e)
              (Packager.Dependencies m)).
Proof.
  unfold Packager.versionsOfDependencyWithStack. rewrite versions_outer. simpl.
  induction (Packager.Dependencies m) as [|e deps IH]; intros Hnd; simpl; [done|].
  rewrite IH by (intros e' He'; apply Hnd; by right).
  rewrite (filter_eq_NoDup stack (Packager.Stacks e)) by (apply Hnd; left).
  destruct (decide (Packager.Name e = depName)) as [Hn|Hn].
  - destruct (decide (stack ∈ Packager.Stacks e)) as [Hs|Hs].
    + by rewrite filter_cons_True.
    + rewrite filter_cons_False; [done|]. by intros [_ ?].
  - rewrite filter_cons_False; [done|]. by intros [? _].
Qed.

Lemma versionsOfDependencyWithStack_in_order_witness :
  Packager.versionsOfDependencyWithStack
    (Packager.mkManifest "ruby" "" [] ""
       [Packager.mkDependency "" "" "" "ruby" "2.5.0" ["cflinuxfs2"; "cflinuxfs3"] [] "" "" false;
        Packager.mkDependency "" "" "" "bundler" "2.0.1" ["cflinuxfs3"] [] "" "" false;
        Packager.mkDependency "" "" "" "ruby" "2.6.0" ["cflinuxfs3"] [] "" "" false] [])
    "ruby" "cflinuxfs3"
  = map Packager.Version
      (filter (λ e, Packager.Name e = "ruby" ∧ "cflinuxfs3" ∈ Packager.Stacks e)
         [Packager.mkDependency "" "" "" "ruby" "2.5.0" ["cflinuxfs2"; "cflinuxfs3"] [] "" "" false;
          Packager.mkDependency "" "" "" "bundler" "2.0.1" ["cflinuxfs3"] [] "" "" false;
          Packager.mkDependency "" "" "" "ruby" "2.6.0" ["cflinuxfs3"] [] "" "" false]).
Proof.
  apply (versionsOfDependencyWithStack_in_order
           (Packager.mkManifest "ruby" "" [] ""
              [Packager.mkDependency "" "" "" "ruby" "2.5.0" ["cflinuxfs2"; "cflinuxfs3"] [] "" "" false;
               Packager.mkDependency "" "" "" "bundler" "2.0.1" ["cflinuxfs3"] [] "" "" false;
               Packager.mkDependency "" "" "" "ruby" "2.6.0" ["cflinuxfs3"] [] "" "" false] [])).
  intros e He. simpl in He. apply (bool_decide_unpack _).
  repeat (apply elem_of_cons in He as [->|He]; [vm_compute; exact I|]).
  by apply elem_of_nil in He.
Defined.

(** ** The order of [sort.Sort] on the dependencies *)

Lemma ltb_distinct a b : a ≠ b → String.ltb b a = negb (String.ltb a b).
Proof.
  intros Hne. unfold String.ltb. rewrite (String.compare_antisym b a).
  destruct (String.compare a b) eqn:Hc; simpl; [|done|done].
  by apply String.compare_eq_iff in Hc.
Qed.

(** X22. Two dependencies with different names are ordered by name alone:
    [Less] is the byte order of the names, whatever the versions and
    whatever the semantic-version library says of them, and exactly one of
    [Less d i j] and [Less d j i] holds. *)
Theorem Less_distinct_names {semver : Type} (NewVersion : string → option semver)
    (LessThan : semver → semver → bool) (d : list Packager.Dependency) (i j : Z)
    (di dj : Packager.Dependency) :
  Packager.index d i = Some di → Packager.index d j = Some dj →
  Packager.Name di ≠ Packager.Name dj →
  Packager.Less NewVersion LessThan d i j
    = Some (String.ltb (Packager.Name di) (Packager.Name dj)) ∧
  Packager.Less NewVersion LessThan d j i
    = Some (negb (String.ltb (Packager.Name di) (Packager.Name dj))).
Proof.
  intros Hi Hj Hne. unfold Packager.Less. rewrite Hi, Hj. simpl.
  rewrite (ltb_distinct _ _ Hne).
  destruct (String.ltb (Packager.Name di) (Packager.Name dj)); simpl.
  - rewrite decide_False by done. done.
  - rewrite decide_False by done. done.
Qed.

Lemma Less_distinct_names_witness :
  Packager.Less (λ _, None) (λ _ _ : unit, false)
    [Packager.mkDependency "" "" "" "ruby" "2.5.0" [] [] "" "" false;
     Packager.mkDependency "" "" "" "bundler" "10.0.0" [] [] "" "" false] 0 1
    = Some (String.ltb "ruby" "bundler") ∧
  Packager.Less (λ _, None) (λ _ _ : unit, false)
    [Packager.mkDependency "" "" "" "ruby" "2.5.0" [] [] "" "" false;
     Packager.mkDependency "" "" "" "bundler" "10.0.0" [] [] "" "" false] 1 0
    = Some (negb (String.ltb "ruby" "bundler")).
Proof.
  apply (Less_distinct_names (λ _, None) (λ _ _ : unit, false)
           [Packager.mkDependency "" "" "" "ruby" "2.5.0" [] [] "" "" false;
            Packager.mkDependency "" "" "" "bundler" "10.0.0" [] [] "" "" false] 0 1
           (Packager.mkDependency "" "" "" "ruby" "2.5.0" [] [] "" "" false)
           (Packager.mkDependency "" "" "" "bundler" "10.0.0" [] [] "" "" false)).
  - reflexivity.
  - reflexivity.
  - discriminate.
Defined.

Lemma index_Some d i x :
  Packager.index d i = Some x ↔ (0 ≤ i)%Z ∧ d !! Z.to_nat i = Some x.
Proof.
  unfold Packager.index. destruct (decide (0 ≤ i)%Z); [tauto|].
  split; [done | tauto].
Qed.

Lemma index_is_Some d i : is_Some (Packager.index d i) ↔ (0 ≤ i < Packager.Len d)%Z.
Proof.
  unfold Packager.index, Packager.Len. destruct (decide (0 ≤ i)%Z) as [Hi|Hi].
  - rewrite lookup_lt_is_Some. lia.
  - split; [by intros [? ?] | lia].
Qed.

(** X23. [Swap] panics exactly when an index is out of range. Otherwise
    it keeps the length, exchanges the elements at the two indices, leaves
    every other element where it is, and is undone by the same swap. *)
Theorem Swap_spec (d : list Packager.Dependency) (i j : Z) :
  (is_Some (Packager.Swap d i j) ↔
   (0 ≤ i < Packager.Len d)%Z ∧ (0 ≤ j < Packager.Len d)%Z) ∧
  ∀ d', Packager.Swap d i j = Some d' →
    Packager.Len d' = Packager.Len d ∧
    Packager.index d' i = Packager.index d j ∧
    Packager.index d' j = Packager.index d i ∧
    (∀ k, k ≠ i → k ≠ j → Packager.index d' k = Packager.index d k) ∧
    Packager.Swap d' i j = Some d.
Proof.
  split.
  - rewrite <- !index_is_Some. unfold Packager.Swap.
    destruct (Packager.index d i) as [di|], (Packager.index d j) as [dj|]; simpl;
      split; try (by intros [? ?]); try (by intros [[? ?] [? ?]]); eauto.
  - intros d'. unfold Packager.Swap.
    destruct (Packager.index d i) as [di|] eqn:Hi; [|done]. simpl.
    destruct (Packager.index d j) as [dj|] eqn:Hj; [|done]. simpl.
    intros [= <-].
    apply index_Some in Hi as [Hi0 Hi]. apply index_Some in Hj as [Hj0 Hj].
    pose proof (lookup_lt_Some _ _ _ Hi) as Hil.
    pose proof (lookup_lt_Some _ _ _ Hj) as Hjl.
    set (ni := Z.to_nat i) in *. set (nj := Z.to_nat j) in *.
    assert (Hdi : <[nj:=di]> (<[ni:=dj]> d) !! ni = Some dj).
    { destruct (decide (ni = nj)) as [Heq|Hne].
      - rewrite Heq in *. rewrite list_lookup_insert_eq by (by rewrite length_insert).
        congruence.
      - rewrite list_lookup_insert_ne by done. by rewrite list_lookup_insert_eq. }
    assert (Hdj : <[nj:=di]> (<[ni:=dj]> d) !! nj = Some di).
    { rewrite list_lookup_insert_eq; [done|]. by rewrite length_insert. }
    split; [|split; [|split; [|split]]].
    + unfold Packager.Len. by rewrite !length_insert.
    + unfold Packager.index. rewrite !decide_True by done. fold ni nj. congruence.
    + unfold Packager.index. rewrite !decide_True by done. fold ni nj. congruence.
    + intros k Hki Hkj. unfold Packager.index. destruct (decide (0 ≤ k)%Z); [|done].
      rewrite !list_lookup_insert_ne; [done|..]; unfold ni, nj; lia.
    + unfold Packager.index. rewrite !decide_True by done. fold ni nj.
      rewrite Hdi, Hdj. simpl. f_equal.
      apply list_eq. intros k.
      destruct (decide (k = nj)) as [->|Hkj].
      { rewrite list_lookup_insert_eq by (by rewrite !length_insert). done. }
      rewrite list_lookup_insert_ne by done.
      destruct (decide (k = ni)) as [->|Hki].
      { rewrite list_lookup_insert_eq by (by rewrite !length_insert). done. }
      by rewrite !list_lookup_insert_ne.
Qed.

(** ** Recording a downloaded file in a dependency map *)

(** X24. On a map, [UpdateDependencyMap] always stores the name of the
    file under [file], also when it returns an error, and touches no key
    other than [file] and [sha256]. It succeeds exactly when the dependency
    is no CNB or the checksum can be computed; [sha256] is set (to the
    checksum) only for a CNB whose checksum was computed. *)
Theorem UpdateDependencyMap_spec {K V : Type} `{Countable K}
    (key : string → K) (str : string → V) (calcSha : string → result error string)
    (d : Packager.Dependency) (dep : gmap K V) (file : Packager.file) :
  key "file" ≠ key "sha256" →
  ∃ r dep',
    Packager.UpdateDependencyMap key str calcSha d (Packager.Map dep) file
      = Some (r, Packager.Map dep') ∧
    dep' !! key "file" = Some (str (Packager.fileName file)) ∧
    (∀ k, k ≠ key "file" → k ≠ key "sha256" → dep' !! k = dep !! k) ∧
    (r = Ok () ↔
     Packager.CNB d = false ∨ ∃ sha, calcSha (Packager.filePath file) = Ok sha) ∧
    match Packager.CNB d, calcSha (Packager.filePath file) with
    | true, Ok sha => dep' !! key "sha256" = Some (str sha)
    | _, _ => dep' !! key "sha256" = dep !! key "sha256"
    end.
Proof.
  intros Hne. unfold Packager.UpdateDependencyMap.
  destruct (Packager.CNB d) eqn:Hcnb.
  - destruct (calcSha (Packager.filePath file)) as [sha|err] eqn:Hsha.
    + eexists _, _. split; [done|]. split; [|split; [|split]].
      * rewrite lookup_insert_ne by done. by rewrite lookup_insert_eq.
      * intros k Hk1 Hk2. by rewrite !lookup_insert_ne.
      * split; [eauto | done].
      * by rewrite lookup_insert_eq.
    + eexists _, _. split; [done|]. split; [|split; [|split]].
      * by rewrite lookup_insert_eq.
      * intros k Hk1 Hk2. by rewrite lookup_insert_ne.
      * split; [done|]. intros [?|[sha ?]]; done.
      * by rewrite lookup_insert_ne.
  - eexists _, _. split; [done|]. split; [|split; [|split]].
    + by rewrite lookup_insert_eq.
    + intros k Hk1 Hk2. by rewrite lookup_insert_ne.
    + split; [eauto | done].
    + destruct (calcSha (Packager.filePath file)); by rewrite lookup_insert_ne.
Qed.

Lemma UpdateDependencyMap_spec_witness :
  ∃ r dep',
    Packager.UpdateDependencyMap (K := string) (V := string) id id
        (λ _, Err (ErrorString "open: no such file"))
        (Packager.mkDependency "" "" "" "cnb" "1.0.0" [] [] "src" "abc" true)
        (Packager.Map {[ "name" := "cnb" ]})
        (Packager.mkFile "cnb.tgz" "/cache/cnb.tgz")
      = Some (r, Packager.Map dep') ∧
    dep' !! "file" = Some "cnb.tgz" ∧
    (∀ k, k ≠ "file" → k ≠ "sha256" →
          dep' !! k = ({[ "name" := "cnb" ]} : gmap string string) !! k) ∧
    (r = Ok () ↔
     true = false ∨
     ∃ sha, (Err (ErrorString "open: no such file") : result error string) = Ok sha) ∧
    dep' !! "sha256" = ({[ "name" := "cnb" ]} : gmap string string) !! "sha256".
Proof.
  apply (UpdateDependencyMap_spec (K := string) (V := string) id id
           (λ _, Err (ErrorString "open: no such file"))
           (Packager.mkDependency "" "" "" "cnb" "1.0.0" [] [] "src" "abc" true)
           {[ "name" := "cnb" ]} (Packager.mkFile "cnb.tgz" "/cache/cnb.tgz")).
  discriminate.
Defined.

(** ** The fake executable *)

Lemma wrap64_add_l x y : wrap64 (wrap64 x + y) = wrap64 (x + y).
Proof.
  unfold wrap64.
  replace ((x + 2 ^ 63) mod 2 ^ 64 - 2 ^ 63 + y + 2 ^ 63)%Z
    with ((x + 2 ^ 63) mod 2 ^ 64 + y)%Z by lia.
  replace (x + y + 2 ^ 63)%Z with ((x + 2 ^ 63) + y)%Z by lia.
  by rewrite Zplus_mod_idemp_l.
Qed.

Lemma Execute_run {ExecuteOptions : Type}
    (f : Fakes.Executable (ExecuteOptions := ExecuteOptions)) o a :
  Fakes.Execute f o a =
    (match Fakes.Stub f with
     | Some stub => stub o a
     | None => Fakes.ExecuteReturns f
     end,
     Fakes.mkExecutable (wrap64 (Fakes.CallCount f + 1)) o a
       (Fakes.ExecuteReturns f) (Fakes.Stub f)).
Proof. unfold Fakes.Execute. simpl. by destruct (Fakes.Stub f). Qed.

Lemma ExecuteAll_cons {ExecuteOptions : Type}
    (f : Fakes.Executable (ExecuteOptions := ExecuteOptions)) o a params :
  Fakes.ExecuteAll f ((o, a) :: params) =
    (fst (Fakes.Execute f o a) :: fst (Fakes.ExecuteAll (snd (Fakes.Execute f o a)) params),
     snd (Fakes.ExecuteAll (snd (Fakes.Execute f o a)) params)).
Proof.
  simpl. destruct (Fakes.Execute f o a) as [r f1]. simpl.
  by destruct (Fakes.ExecuteAll f1 params).
Qed.

(** X25. After any sequence of calls of [Execute] the fake has counted
    them (in the arithmetic of [int]), holds the arguments of the last
    call, and has its canned return values and its stub unchanged; each
    call returned what the stub computes from its arguments, or the canned
    values when there is no stub. *)
Theorem ExecuteAll_spec {ExecuteOptions : Type} (f : Fakes.Executable (ExecuteOptions := ExecuteOptions))
    (params : list (ExecuteOptions * list string)) :
  let rs := fst (Fakes.ExecuteAll f params) in
  let f' := snd (Fakes.ExecuteAll f params) in
  Fakes.CallCount f' = (if decide (params = []) then Fakes.CallCount f
                        else wrap64 (Fakes.CallCount f + Z.of_nat (length params))) ∧
  (Fakes.ReceivesOptions f', Fakes.ReceivesArgs f')
    = default (Fakes.ReceivesOptions f, Fakes.ReceivesArgs f) (last params) ∧
  Fakes.ExecuteReturns f' = Fakes.ExecuteReturns f ∧
  Fakes.Stub f' = Fakes.Stub f ∧
  rs = map (λ p, match Fakes.Stub f with
                 | Some stub => stub p.1 p.2
                 | None => Fakes.ExecuteReturns f
                 end) params.
Proof.
  revert f. induction params as [|[o a] params IH]; intros f.
  - done.
  - rewrite ExecuteAll_cons, Execute_run. cbv zeta. simpl fst. simpl snd.
    set (f1 := Fakes.mkExecutable _ _ _ _ _).
    specialize (IH f1). cbv zeta in IH.
    destruct IH as (Hc & Hr & Hret & Hs & Hrs).
    split; [|split; [|split; [|split]]].
    + rewrite Hc. rewrite (decide_False (P := (o, a) :: params = [])) by done.
      destruct (decide (params = [])) as [->|Hne]; simpl.
      * done.
      * rewrite wrap64_add_l. f_equal. lia.
    + rewrite Hr. destruct params as [|p params]; [done|].
      change (last ((o, a) :: p :: params)) with (last (p :: params)).
      destruct (last (p :: params)) as [x|] eqn:Hl; [done|].
      by apply last_None in Hl.
    + by rewrite Hret.
    + by rewrite Hs.
    + rewrite Hrs. done.
Qed.
